(** * Keccak sponge (SHA-3 / SHAKE) of the [keccak] Go package

    A shallow embedding of the package and the properties its description
    states about it.

    Conventions of the embedding.
    - [uint64] is [Z] restricted to [0, 2^64); every operation that can leave
      that interval writes its reduction modulo [2^64] out.  [int] and [uint]
      are the 64-bit types of the common Go targets, again as [Z] with the
      wrap-around written out ([Int.wrap], [UInt.wrap]).  A [byte] is a
      [Byte.byte]; the conversions [uint64(b)] and [byte(x)] are [byte_val]
      and [to_byte].
    - [[25]uint64] and [[5]uint64] are lists; the length a Go array type fixes
      appears as a hypothesis [length St = 25] where a statement needs it.
    - Byte slices that outlive a call are slices of a heap of byte arrays
      ([Mem]): a slice names its array, its offset, its length and its
      capacity, [append] writes in place when the capacity suffices and moves
      to a new array otherwise, and two slices of one array share its bytes.
      [Write], [Sum] and [squeeze] take the heap and return the new one, so
      that what [Write] keeps of its argument and what [append] overwrites is
      visible.  The blocks that live inside one call ([pad]'s block, the
      scratch buffer of [squeeze], the block [absorb] reads) are plain byte
      lists.
    - A function that can panic or loop returns an [outcome]; a method with a
      pointer receiver takes the receiver's value and returns the new one. *)

From Stdlib Require Import String ZArith List Lia Bool.
From Stdlib.Strings Require Import Byte.
Import ListNotations.
Local Open Scope Z_scope.

(** ** Outcomes of a run *)

Inductive outcome (A : Type) : Type :=
| Done (a : A)
| Panic (msg : string)
| OutOfFuel.

Arguments Done {A} a.
Arguments Panic {A} msg.
Arguments OutOfFuel {A}.

Definition bind {A B : Type} (m : outcome A) (f : A -> outcome B) : outcome B :=
  match m with
  | Done a => f a
  | Panic msg => Panic msg
  | OutOfFuel => OutOfFuel
  end.

Notation "x <- m ;; k" := (bind m (fun x => k))
  (at level 61, m at next level, right associativity).
Notation "' pat <- m ;; k" := (bind m (fun x => match x with pat => k end))
  (at level 61, pat pattern, m at next level, right associativity).

Definition index_out_of_range : string := "runtime error: index out of range".
Definition slice_out_of_range : string := "runtime error: slice bounds out of range".
Definition makeslice_out_of_range : string := "runtime error: makeslice: len out of range".

(** ** Machine integers *)

Module Int.
(** Go's [int] on a 64-bit target: two's complement, silent wrap-around. *)
Definition min_int : Z := - 2 ^ 63.
Definition max_int : Z := 2 ^ 63 - 1.
Definition wrap (z : Z) : Z := (z + 2 ^ 63) mod 2 ^ 64 - 2 ^ 63.
Definition add (a b : Z) : Z := wrap (a + b).
Definition sub (a b : Z) : Z := wrap (a - b).
Definition mul (a b : Z) : Z := wrap (a * b).
(** [/] and [%] truncate toward zero. *)
Definition quo (a b : Z) : Z := wrap (Z.quot a b).
Definition rem (a b : Z) : Z := Z.rem a b.
End Int.

Module UInt.
(** Go's [uint] on a 64-bit target. *)
Definition wrap (z : Z) : Z := z mod 2 ^ 64.
Definition sub (a b : Z) : Z := wrap (a - b).
End UInt.

(** [uint64] operators.  A shift count of 64 or more yields 0. *)
Definition xor64 (x y : Z) : Z := Z.lxor x y.
Definition and64 (x y : Z) : Z := Z.land x y.
Definition or64 (x y : Z) : Z := Z.lor x y.
Definition not64 (x : Z) : Z := Z.lxor (2 ^ 64 - 1) x.
Definition shl64 (x n : Z) : Z := if n <? 64 then Z.shiftl x n mod 2 ^ 64 else 0.
Definition shr64 (x n : Z) : Z := if n <? 64 then Z.shiftr x n else 0.

(** [uint64(b)] for a byte, [byte(x)] for a [uint64], and [|] on bytes. *)
Definition byte_val (b : byte) : Z := Z.of_N (Byte.to_N b).

Definition to_byte (x : Z) : byte :=
  match Byte.of_N (Z.to_N (x mod 256)) with
  | Some b => b
  | None => x00
  end.

Definition or8 (a b : byte) : byte := to_byte (Z.lor (byte_val a) (byte_val b)).

(** ** Arrays and slices *)

Definition len {A : Type} (l : list A) : Z := Z.of_nat (length l).

Fixpoint upd {A : Type} (l : list A) (n : nat) (v : A) : list A :=
  match l, n with
  | [], _ => []
  | _ :: t, O => v :: t
  | h :: t, S m => h :: upd t m v
  end.

(** [l[i]] as an operand. *)
Definition index {A : Type} (l : list A) (i : Z) : outcome A :=
  if (0 <=? i) && (i <? len l)
  then match nth_error l (Z.to_nat i) with
       | Some v => Done v
       | None => Panic index_out_of_range
       end
  else Panic index_out_of_range.

(** [l[i] = v]. *)
Definition store {A : Type} (l : list A) (i : Z) (v : A) : outcome (list A) :=
  if (0 <=? i) && (i <? len l)
  then Done (upd l (Z.to_nat i) v)
  else Panic index_out_of_range.

(** [l[:hi]] and [l[lo:]]. *)
Definition slice_to {A : Type} (l : list A) (hi : Z) : outcome (list A) :=
  if (0 <=? hi) && (hi <=? len l)
  then Done (firstn (Z.to_nat hi) l)
  else Panic slice_out_of_range.

Definition slice_from {A : Type} (l : list A) (lo : Z) : outcome (list A) :=
  if (0 <=? lo) && (lo <=? len l)
  then Done (skipn (Z.to_nat lo) l)
  else Panic slice_out_of_range.

(** [make([]byte, n)]. *)
Definition make (n : Z) : outcome (list byte) :=
  if 0 <=? n then Done (repeat x00 (Z.to_nat n)) else Panic makeslice_out_of_range.

(** ** Loops with a known index sequence *)

(** [for i := range a] over an array of [n] elements, and
    [for i := 0; i < n; i++]. *)
Definition range (n : Z) : list Z := map Z.of_nat (seq 0 (Z.to_nat n)).

(** [for j := 0; j < stop; j += step]. *)
Definition upto_by (stop step : Z) : list Z :=
  map (fun q => step * Z.of_nat q) (seq 0 (Z.to_nat ((stop + step - 1) / step))).

Fixpoint forM {A : Type} (idx : list Z) (body : Z -> A -> outcome A) (a : A)
  : outcome A :=
  match idx with
  | [] => Done a
  | i :: rest => a' <- body i a ;; forM rest body a'
  end.

(** ** Constants of the package *)

Definition domainNone : byte := x01.
Definition domainSHA3 : byte := x06.
Definition domainSHAKE : byte := x1f.

Definition rounds : Z := 24.

Definition roundConstants : list Z := [
  0x0000000000000001; 0x0000000000008082;
  0x800000000000808A; 0x8000000080008000;
  0x000000000000808B; 0x0000000080000001;
  0x8000000080008081; 0x8000000000008009;
  0x000000000000008A; 0x0000000000000088;
  0x0000000080008009; 0x000000008000000A;
  0x000000008000808B; 0x800000000000008B;
  0x8000000000008089; 0x8000000000008003;
  0x8000000000008002; 0x8000000000000080;
  0x000000000000800A; 0x800000008000000A;
  0x8000000080008081; 0x8000000000008080;
  0x0000000080000001; 0x8000000080008008
].

Definition rotationConstants : list Z := [
  1; 3; 6; 10; 15; 21; 28; 36;
  45; 55; 2; 14; 27; 41; 56; 8;
  25; 43; 62; 18; 39; 61; 20; 44
].

Definition piLane : list Z := [
  10; 7; 11; 17; 18; 3; 5; 16;
  8; 21; 24; 4; 15; 23; 19; 13;
  12; 2; 20; 14; 22; 9; 6; 1
].

(** [rotl64]: [(x << n) | (x >> (64 - n))] with [n] a [uint]. *)
Definition rotl64 (x n : Z) : Z := or64 (shl64 x n) (shr64 x (UInt.sub 64 n)).

(** [S[i] ^= v] on an array of [uint64]. *)
Definition xor_at (St : list Z) (i v : Z) : outcome (list Z) :=
  old <- index St i ;; store St i (xor64 old v).

(** ** keccakf, table-driven (the revision with [piLane] and
    [rotationConstants] in the round loop) *)

Module Looped.

(** One pass of the body of [for r := 0; r < rounds; r++].  [bc] is declared
    outside the loop, so it is threaded with the state. *)
Definition round (r : Z) (vars : list Z * list Z) : outcome (list Z * list Z) :=
  let '(St, bc) := vars in
  (* theta *)
  bc <- forM (range (len bc)) (fun i bc =>
          a <- index St i ;;
          b <- index St (Int.add 5 i) ;;
          c <- index St (Int.add 10 i) ;;
          d <- index St (Int.add 15 i) ;;
          e <- index St (Int.add 20 i) ;;
          store bc i (xor64 (xor64 (xor64 (xor64 a b) c) d) e)) bc ;;
  St <- forM (range (len bc)) (fun i St =>
          p <- index bc (Int.rem (Int.add i 4) 5) ;;
          q <- index bc (Int.rem (Int.add i 1) 5) ;;
          let t := xor64 p (rotl64 q 1) in
          forM (upto_by (len St) 5) (fun j St => xor_at St (Int.add i j) t) St) St ;;
  (* rho phi *)
  temp <- index St 1 ;;
  '(St, temp) <- forM (range (len piLane)) (fun i '(St, temp) =>
          j <- index piLane i ;;
          temp2 <- index St j ;;
          n <- index rotationConstants i ;;
          St <- store St j (rotl64 temp n) ;;
          Done (St, temp2)) (St, temp) ;;
  (* chi *)
  '(St, bc) <- forM (upto_by (len St) 5) (fun j '(St, bc) =>
          bc <- forM (range (len bc)) (fun i bc =>
                  v <- index St (Int.add j i) ;; store bc i v) bc ;;
          St <- forM (range (len bc)) (fun i St =>
                  a <- index bc (Int.rem (Int.add i 1) 5) ;;
                  b <- index bc (Int.rem (Int.add i 2) 5) ;;
                  xor_at St (Int.add j i) (and64 (not64 a) b)) St ;;
          Done (St, bc)) (St, bc) ;;
  (* iota *)
  rc <- index roundConstants r ;;
  St <- xor_at St 0 rc ;;
  Done (St, bc).

Definition keccakf (St : list Z) : outcome (list Z) :=
  let bc := repeat 0 5 in
  '(St, _) <- forM (range rounds) round (St, bc) ;;
  Done St.

End Looped.

(** ** keccakf, unrolled (the revision whose round body is straight-line
    code) *)

Module Unrolled.

(** The variables of [keccakf]. *)
Record frame : Type := { St : list Z; bc : list Z; tmp : Z }.

Definition expr : Type := frame -> outcome Z.
Definition stmt : Type := frame -> outcome frame.

(** Operands [S[i]], [bc[i]], [tmp], and the operators over them. *)
Definition Sx (i : Z) : expr := fun f => index (St f) i.
Definition Bx (i : Z) : expr := fun f => index (bc f) i.
Definition Tx : expr := fun f => Done (tmp f).
Definition op2 (op : Z -> Z -> Z) (a b : expr) : expr :=
  fun f => x <- a f ;; y <- b f ;; Done (op x y).
Definition op1 (op : Z -> Z) (a : expr) : expr :=
  fun f => x <- a f ;; Done (op x).

Declare Scope go_scope.
Delimit Scope go_scope with go.
Bind Scope go_scope with expr.
Notation "a :^ b" := (op2 xor64 a b) (at level 50, left associativity) : go_scope.
Notation "a :| b" := (op2 or64 a b) (at level 50, left associativity) : go_scope.
Notation "a :& b" := (op2 and64 a b) (at level 40, left associativity) : go_scope.
Notation "a :<< n" := (op1 (fun x => shl64 x n) a) (at level 40, left associativity) : go_scope.
Notation "a :>> n" := (op1 (fun x => shr64 x n) a) (at level 40, left associativity) : go_scope.
Notation ":~ a" := (op1 not64 a) (at level 35, right associativity) : go_scope.

(** [bc[i] = e] *)
Definition set_bc (i : Z) (e : expr) : stmt := fun f =>
  v <- e f ;; bc' <- store (bc f) i v ;;
  Done {| St := St f; bc := bc'; tmp := tmp f |}.

(** [tmp = e] *)
Definition set_tmp (e : expr) : stmt := fun f =>
  v <- e f ;; Done {| St := St f; bc := bc f; tmp := v |}.

(** [S[i] = e] *)
Definition set_S (i : Z) (e : expr) : stmt := fun f =>
  v <- e f ;; St' <- store (St f) i v ;;
  Done {| St := St'; bc := bc f; tmp := tmp f |}.

(** [S[i] ^= e] *)
Definition xor_S (i : Z) (e : expr) : stmt := fun f =>
  old <- index (St f) i ;; v <- e f ;; St' <- store (St f) i (xor64 old v) ;;
  Done {| St := St'; bc := bc f; tmp := tmp f |}.

(** [tmp, S[i] = S[i], e]: both right-hand sides are read before either
    variable is written. *)
Definition swap_tmp_S (i : Z) (e : expr) : stmt := fun f =>
  old <- index (St f) i ;; v <- e f ;; St' <- store (St f) i v ;;
  Done {| St := St'; bc := bc f; tmp := old |}.

Fixpoint run (prog : list stmt) (f : frame) : outcome frame :=
  match prog with
  | [] => Done f
  | s :: rest => f' <- s f ;; run rest f'
  end.

Local Open Scope go_scope.

Definition theta : list stmt := [
  set_bc 0 (Sx 0 :^ Sx 5 :^ Sx 10 :^ Sx 15 :^ Sx 20);
  set_bc 1 (Sx 1 :^ Sx 6 :^ Sx 11 :^ Sx 16 :^ Sx 21);
  set_bc 2 (Sx 2 :^ Sx 7 :^ Sx 12 :^ Sx 17 :^ Sx 22);
  set_bc 3 (Sx 3 :^ Sx 8 :^ Sx 13 :^ Sx 18 :^ Sx 23);
  set_bc 4 (Sx 4 :^ Sx 9 :^ Sx 14 :^ Sx 19 :^ Sx 24);
  set_tmp (Bx 4 :^ (Bx 1 :<< 1 :| Bx 1 :>> (64 - 1)));
  xor_S 0 Tx;
  xor_S 5 Tx;
  xor_S 10 Tx;
  xor_S 15 Tx;
  xor_S 20 Tx;
  set_tmp (Bx 0 :^ (Bx 2 :<< 1 :| Bx 2 :>> (64 - 1)));
  xor_S 1 Tx;
  xor_S 6 Tx;
  xor_S 11 Tx;
  xor_S 16 Tx;
  xor_S 21 Tx;
  set_tmp (Bx 1 :^ (Bx 3 :<< 1 :| Bx 3 :>> (64 - 1)));
  xor_S 2 Tx;
  xor_S 7 Tx;
  xor_S 12 Tx;
  xor_S 17 Tx;
  xor_S 22 Tx;
  set_tmp (Bx 2 :^ (Bx 4 :<< 1 :| Bx 4 :>> (64 - 1)));
  xor_S 3 Tx;
  xor_S 8 Tx;
  xor_S 13 Tx;
  xor_S 18 Tx;
  xor_S 23 Tx;
  set_tmp (Bx 3 :^ (Bx 0 :<< 1 :| Bx 0 :>> (64 - 1)));
  xor_S 4 Tx;
  xor_S 9 Tx;
  xor_S 14 Tx;
  xor_S 19 Tx;
  xor_S 24 Tx
].

Definition rho_phi : list stmt := [
  set_tmp (Sx 1);
  swap_tmp_S 10 (Tx :<< 1 :| Tx :>> (64 - 1));
  swap_tmp_S 7 (Tx :<< 3 :| Tx :>> (64 - 3));
  swap_tmp_S 11 (Tx :<< 6 :| Tx :>> (64 - 6));
  swap_tmp_S 17 (Tx :<< 10 :| Tx :>> (64 - 10));
  swap_tmp_S 18 (Tx :<< 15 :| Tx :>> (64 - 15));
  swap_tmp_S 3 (Tx :<< 21 :| Tx :>> (64 - 21));
  swap_tmp_S 5 (Tx :<< 28 :| Tx :>> (64 - 28));
  swap_tmp_S 16 (Tx :<< 36 :| Tx :>> (64 - 36));
  swap_tmp_S 8 (Tx :<< 45 :| Tx :>> (64 - 45));
  swap_tmp_S 21 (Tx :<< 55 :| Tx :>> (64 - 55));
  swap_tmp_S 24 (Tx :<< 2 :| Tx :>> (64 - 2));
  swap_tmp_S 4 (Tx :<< 14 :| Tx :>> (64 - 14));
  swap_tmp_S 15 (Tx :<< 27 :| Tx :>> (64 - 27));
  swap_tmp_S 23 (Tx :<< 41 :| Tx :>> (64 - 41));
  swap_tmp_S 19 (Tx :<< 56 :| Tx :>> (64 - 56));
  swap_tmp_S 13 (Tx :<< 8 :| Tx :>> (64 - 8));
  swap_tmp_S 12 (Tx :<< 25 :| Tx :>> (64 - 25));
  swap_tmp_S 2 (Tx :<< 43 :| Tx :>> (64 - 43));
  swap_tmp_S 20 (Tx :<< 62 :| Tx :>> (64 - 62));
  swap_tmp_S 14 (Tx :<< 18 :| Tx :>> (64 - 18));
  swap_tmp_S 22 (Tx :<< 39 :| Tx :>> (64 - 39));
  swap_tmp_S 9 (Tx :<< 61 :| Tx :>> (64 - 61));
  swap_tmp_S 6 (Tx :<< 20 :| Tx :>> (64 - 20));
  set_S 1 (Tx :<< 44 :| Tx :>> (64 - 44))
].

Definition chi : list stmt := [
  set_bc 0 (Sx 0);
  set_bc 1 (Sx 1);
  set_bc 2 (Sx 2);
  set_bc 3 (Sx 3);
  set_bc 4 (Sx 4);
  xor_S 0 ((:~ Bx 1) :& Bx 2);
  xor_S 1 ((:~ Bx 2) :& Bx 3);
  xor_S 2 ((:~ Bx 3) :& Bx 4);
  xor_S 3 ((:~ Bx 4) :& Bx 0);
  xor_S 4 ((:~ Bx 0) :& Bx 1);
  set_bc 0 (Sx 5);
  set_bc 1 (Sx 6);
  set_bc 2 (Sx 7);
  set_bc 3 (Sx 8);
  set_bc 4 (Sx 9);
  xor_S 5 ((:~ Bx 1) :& Bx 2);
  xor_S 6 ((:~ Bx 2) :& Bx 3);
  xor_S 7 ((:~ Bx 3) :& Bx 4);
  xor_S 8 ((:~ Bx 4) :& Bx 0);
  xor_S 9 ((:~ Bx 0) :& Bx 1);
  set_bc 0 (Sx 10);
  set_bc 1 (Sx 11);
  set_bc 2 (Sx 12);
  set_bc 3 (Sx 13);
  set_bc 4 (Sx 14);
  xor_S 10 ((:~ Bx 1) :& Bx 2);
  xor_S 11 ((:~ Bx 2) :& Bx 3);
  xor_S 12 ((:~ Bx 3) :& Bx 4);
  xor_S 13 ((:~ Bx 4) :& Bx 0);
  xor_S 14 ((:~ Bx 0) :& Bx 1);
  set_bc 0 (Sx 15);
  set_bc 1 (Sx 16);
  set_bc 2 (Sx 17);
  set_bc 3 (Sx 18);
  set_bc 4 (Sx 19);
  xor_S 15 ((:~ Bx 1) :& Bx 2);
  xor_S 16 ((:~ Bx 2) :& Bx 3);
  xor_S 17 ((:~ Bx 3) :& Bx 4);
  xor_S 18 ((:~ Bx 4) :& Bx 0);
  xor_S 19 ((:~ Bx 0) :& Bx 1);
  set_bc 0 (Sx 20);
  set_bc 1 (Sx 21);
  set_bc 2 (Sx 22);
  set_bc 3 (Sx 23);
  set_bc 4 (Sx 24);
  xor_S 20 ((:~ Bx 1) :& Bx 2);
  xor_S 21 ((:~ Bx 2) :& Bx 3);
  xor_S 22 ((:~ Bx 3) :& Bx 4);
  xor_S 23 ((:~ Bx 4) :& Bx 0);
  xor_S 24 ((:~ Bx 0) :& Bx 1)
].

(** [S[0] ^= roundConstants[r]] *)
Definition iota (r : Z) : stmt := fun f =>
  old <- index (St f) 0 ;; rc <- index roundConstants r ;;
  St' <- store (St f) 0 (xor64 old rc) ;;
  Done {| St := St'; bc := bc f; tmp := tmp f |}.

Definition round (r : Z) (f : frame) : outcome frame :=
  run (theta ++ rho_phi ++ chi ++ [iota r]) f.

Definition keccakf (St0 : list Z) : outcome (list Z) :=
  f <- forM (range rounds) round {| St := St0; bc := repeat 0 5; tmp := 0 |} ;;
  Done (St f).

End Unrolled.

(** ** Memory: backing arrays and slices

    The slices that cross a call ([Write]'s argument, the receiver's [buf],
    [Sum]'s argument and result) are slice headers over arrays in a heap, so
    that storage shared between the client and the instance is visible.
    Slices that stay inside one function (the padded block, the scratch
    buffer of [squeeze]) and parameters that are only read ([absorb]'s block)
    are the sequences of bytes they hold. *)

Module Mem.

(** The arrays, in the order of their allocation. *)
Definition heap : Type := list (list byte).

(** A slice header: the array, the offset of the first element, [len] and
    [cap]. *)
Record slice : Type := { base : nat; off : nat; slen : nat; scap : nat }.

Definition nil : slice := {| base := 0; off := 0; slen := 0; scap := 0 |}.

Definition array (h : heap) (s : slice) : list byte := nth (base s) h [].

(** The bytes of a slice. *)
Definition load (h : heap) (s : slice) : list byte :=
  firstn (slen s) (skipn (off s) (array h s)).

Definition len (s : slice) : Z := Z.of_nat (slen s).

(** The header lies within its array. *)
Definition valid (h : heap) (s : slice) : Prop :=
  (slen s <= scap s)%nat /\ (off s + scap s <= length (array h s))%nat.

(** The headers of [s[:n]] and [s[n:]]. *)
Definition take (s : slice) (n : nat) : slice :=
  {| base := base s; off := off s; slen := n; scap := scap s |}.

Definition drop (s : slice) (n : nat) : slice :=
  {| base := base s; off := off s + n; slen := slen s - n; scap := scap s - n |}.

(** [s[:hi]]: the bound is the capacity, not the length. *)
Definition upto (s : slice) (hi : Z) : outcome slice :=
  if (0 <=? hi) && (hi <=? Z.of_nat (scap s))
  then Done (take s (Z.to_nat hi))
  else Panic slice_out_of_range.

(** [s[lo:]] *)
Definition from (s : slice) (lo : Z) : outcome slice :=
  if (0 <=? lo) && (lo <=? len s)
  then Done (drop s (Z.to_nat lo))
  else Panic slice_out_of_range.

(** Overwriting [data] into array [a] from position [pos] on. *)
Definition poke (h : heap) (a pos : nat) (data : list byte) : heap :=
  let arr := nth a h [] in
  upd h a (firstn pos arr ++ data ++ skipn (pos + length data) arr).

(** [append(s, data...)]: in place when the capacity suffices, else into a
    new array.  The new array is given exactly the length needed (the runtime
    may round it up; nothing else refers to that array). *)
Definition append (s : slice) (data : list byte) (h : heap) : slice * heap :=
  if (slen s + length data <=? scap s)%nat
  then ({| base := base s; off := off s;
           slen := slen s + length data; scap := scap s |},
        poke h (base s) (off s + slen s) data)
  else ({| base := length h; off := 0;
           slen := slen s + length data; scap := slen s + length data |},
        h ++ [load h s ++ data]).

(** What a client may do to the heap between calls: write to arrays and
    allocate new ones.  Arrays keep their lengths. *)
Definition extends (h h' : heap) : Prop :=
  (length h <= length h')%nat
  /\ forall a, (a < length h)%nat -> length (nth a h' []) = length (nth a h []).

End Mem.

(** ** The sponge *)

(** [type keccak struct]; the field [S] is called [state] here. *)
Record keccak : Type := {
  state : list Z;
  size : Z;
  blockSize : Z;
  buf : Mem.slice;
  domain : byte
}.

Definition with_state (k : keccak) (St : list Z) : keccak :=
  {| state := St; size := size k; blockSize := blockSize k;
     buf := buf k; domain := domain k |}.

Definition with_buf (k : keccak) (b : Mem.slice) : keccak :=
  {| state := state k; size := size k; blockSize := blockSize k;
     buf := b; domain := domain k |}.

(** The permutation the sponge calls. *)
Definition keccakf : list Z -> outcome (list Z) := Unrolled.keccakf.

Definition newKeccak (capacity output : Z) (dom : byte) : keccak :=
  {| state := repeat 0 25;
     size := Int.quo output 8;
     blockSize := Int.sub 200 (Int.quo capacity 8);
     buf := Mem.nil;
     domain := dom |}.

Definition New224 : keccak := newKeccak (224 * 2) 224 domainNone.
Definition New256 : keccak := newKeccak (256 * 2) 256 domainNone.
Definition New384 : keccak := newKeccak (384 * 2) 384 domainNone.
Definition New512 : keccak := newKeccak (512 * 2) 512 domainNone.

(** The SHA-3 constructors, in the revision that calls the three-argument
    [newKeccak] above. *)
Definition NewSHA3224 : keccak := newKeccak (224 * 2) 224 domainSHA3.
Definition NewSHA3256 : keccak := newKeccak (256 * 2) 256 domainSHA3.
Definition NewSHA3384 : keccak := newKeccak (384 * 2) 384 domainSHA3.
Definition NewSHA3512 : keccak := newKeccak (512 * 2) 512 domainSHA3.

Definition NewSHAKE128 (n : Z) : keccak :=
  newKeccak (128 * 2) (Int.mul n 8) domainSHAKE.
Definition NewSHAKE256 (n : Z) : keccak :=
  newKeccak (256 * 2) (Int.mul n 8) domainSHAKE.

Definition Size (k : keccak) : Z := size k.
Definition BlockSize (k : keccak) : Z := blockSize k.

Definition uint64le (v : list byte) : outcome Z :=
  v0 <- index v 0 ;;
  v1 <- index v 1 ;;
  v2 <- index v 2 ;;
  v3 <- index v 3 ;;
  v4 <- index v 4 ;;
  v5 <- index v 5 ;;
  v6 <- index v 6 ;;
  v7 <- index v 7 ;;
  Done (or64 (or64 (or64 (or64 (or64 (or64 (or64 (byte_val v0)
        (shl64 (byte_val v1) 8))
        (shl64 (byte_val v2) 16))
        (shl64 (byte_val v3) 24))
        (shl64 (byte_val v4) 32))
        (shl64 (byte_val v5) 40))
        (shl64 (byte_val v6) 48))
        (shl64 (byte_val v7) 56)).

(** [putUint64le(b[off:], x)]: the argument slice shares the storage of [b],
    so the eight writes land in [b] at [off], ..., [off+7]. *)
Definition putUint64le (b : list byte) (off : Z) (x : Z) : outcome (list byte) :=
  _ <- slice_from b off ;;
  b <- store b (off + 0) (to_byte x) ;;
  b <- store b (off + 1) (to_byte (shr64 x 8)) ;;
  b <- store b (off + 2) (to_byte (shr64 x 16)) ;;
  b <- store b (off + 3) (to_byte (shr64 x 24)) ;;
  b <- store b (off + 4) (to_byte (shr64 x 32)) ;;
  b <- store b (off + 5) (to_byte (shr64 x 40)) ;;
  b <- store b (off + 6) (to_byte (shr64 x 48)) ;;
  store b (off + 7) (to_byte (shr64 x 56)).

Definition absorb_panic : string := "absorb() called with invalid block size".

(** [absorb] only reads [block]; the argument is the bytes of the slice. *)
Definition absorb (block : list byte) (k : keccak) : outcome keccak :=
  if negb (len block =? blockSize k) then Panic absorb_panic
  else
    St <- forM (range (Int.quo (blockSize k) 8)) (fun i St =>
            v <- slice_from block (Int.mul i 8) ;;
            w <- uint64le v ;;
            xor_at St i w) (state k) ;;
    St <- keccakf St ;;
    Done (with_state k St).

(** [copy(dst, src)] *)
Definition copy {A : Type} (dst src : list A) : list A :=
  firstn (length dst) src ++ skipn (length src) dst.

(** [pad] reads the pending buffer of the receiver, not its argument, and
    returns a block of its own. *)
Definition pad (block : Mem.slice) (k : keccak) (h : Mem.heap)
  : outcome (list byte) :=
  padded <- make (blockSize k) ;;
  let padded := copy padded (Mem.load h (buf k)) in
  padded <- store padded (Mem.len (buf k)) (domain k) ;;
  let i := Int.sub (len padded) 1 in
  last <- index padded i ;;
  store padded i (or8 last x80).

Definition final (k : keccak) (h : Mem.heap) : outcome keccak :=
  last <- pad (buf k) k h ;;
  absorb last k.

(** The loop [for len(b) >= k.blockSize] of [Write]. *)
Fixpoint Write_loop (fuel : nat) (b : Mem.slice) (k : keccak) (h : Mem.heap)
  : outcome (Mem.slice * keccak) :=
  match fuel with
  | O => OutOfFuel
  | S fuel' =>
      if blockSize k <=? Mem.len b then
        blk <- Mem.upto b (blockSize k) ;;
        k <- absorb (Mem.load h blk) k ;;
        b <- Mem.from b (blockSize k) ;;
        Write_loop fuel' b k h
      else Done (b, k)
  end.

(** [Write] returns [(n, nil)]; the [error] is left out of the result.  The
    receiver keeps the slice header of what is left of [b]. *)
Definition Write (b : Mem.slice) (k : keccak) (h : Mem.heap)
  : outcome (Z * keccak * Mem.heap) :=
  let n := Mem.len b in
  r <- (if 0 <? Mem.len (buf k) then
          let x := Int.sub (blockSize k) (Mem.len (buf k)) in
          let x := if Mem.len b <? x then Mem.len b else x in
          hd <- Mem.upto b x ;;
          let '(grown, h) := Mem.append (buf k) (Mem.load h hd) h in
          let k := with_buf k grown in
          b <- Mem.from b x ;;
          if Mem.len (buf k) <? blockSize k then Done (inl (k, h))
          else
            k <- absorb (Mem.load h (buf k)) k ;;
            Done (inr (b, with_buf k Mem.nil, h))
        else Done (inr (b, k, h))) ;;
  match r with
  | inl (k, h) => Done (n, k, h)
  | inr (b, k, h) =>
      '(b, k) <- Write_loop (S (Mem.slen b)) b k h ;;
      Done (n, with_buf k b, h)
  end.

(** The [for { ... }] of [squeeze]; [scratch] is its local [buf]. *)
Fixpoint squeeze_loop (fuel : nat) (scratch : list byte) (n : Z)
  (b : Mem.slice) (k : keccak) (h : Mem.heap)
  : outcome (Mem.slice * keccak * Mem.heap) :=
  match fuel with
  | O => OutOfFuel
  | S fuel' =>
      scratch <- forM (range (len (state k))) (fun i scratch =>
                   x <- index (state k) i ;;
                   putUint64le scratch (Int.mul i 8) x) scratch ;;
      if n <=? blockSize k then
        out <- slice_to scratch n ;;
        let '(b, h) := Mem.append b out h in
        Done (b, k, h)
      else
        out <- slice_to scratch (blockSize k) ;;
        let '(b, h) := Mem.append b out h in
        let n := Int.sub n (blockSize k) in
        St <- keccakf (state k) ;;
        squeeze_loop fuel' scratch n b (with_state k St) h
  end.

Definition squeeze (b : Mem.slice) (k : keccak) (h : Mem.heap)
  : outcome (Mem.slice * keccak * Mem.heap) :=
  scratch <- make (Int.mul 8 (len (state k))) ;;
  let n := size k in
  squeeze_loop (S (Z.to_nat n)) scratch n b k h.

(** [Sum] works on [k := *k0]: the copy has the state array of its own and
    the slice header of the pending buffer.  The receiver is never
    assigned. *)
Definition Sum (b : Mem.slice) (k0 : keccak) (h : Mem.heap)
  : outcome (Mem.slice * keccak * Mem.heap) :=
  let k := k0 in
  k <- final k h ;;
  '(out, _, h) <- squeeze b k h ;;
  Done (out, k0, h).

Definition Reset (k : keccak) : outcome keccak :=
  St <- forM (range (len (state k))) (fun i St => store St i 0) (state k) ;;
  Done (with_buf (with_state k St) Mem.nil).

(** Hashing a message in one go: [Write(msg)], then [Sum(nil)]. *)
Definition digest (k : keccak) (msg : Mem.slice) (h : Mem.heap)
  : outcome (list byte) :=
  '(_, k, h) <- Write msg k h ;;
  '(out, _, h) <- Sum Mem.nil k h ;;
  Done (Mem.load h out).

(** Writing a sequence of chunks, one [Write] per chunk. *)
Fixpoint Write_all (chunks : list Mem.slice) (k : keccak) (h : Mem.heap)
  : outcome (keccak * Mem.heap) :=
  match chunks with
  | [] => Done (k, h)
  | c :: rest => '(_, k', h') <- Write c k h ;; Write_all rest k' h'
  end.

(** ** The description of the algorithm

    The definitions of this module follow the words of the package's
    description, not its code; the theorems below compare the two. *)

Module Spec.

Definition lane (St : list Z) (i : nat) : Z := nth i St 0.

(** Theta: [parity[c]] is the XOR of the five lanes of column [c]; lane
    [i] of column [c] receives
    [parity[(c+4) mod 5] XOR rotl(parity[(c+1) mod 5], 1)]. *)
Definition parity (St : list Z) (c : nat) : Z :=
  xor64 (xor64 (xor64 (xor64 (lane St c) (lane St (c + 5))) (lane St (c + 10)))
               (lane St (c + 15))) (lane St (c + 20)).

Definition theta (St : list Z) : list Z :=
  map (fun i =>
         let c := (i mod 5)%nat in
         xor64 (lane St i)
               (xor64 (parity St ((c + 4) mod 5)) (rotl64 (parity St ((c + 1) mod 5)) 1)))
      (seq 0 25).

(** Rho and pi: the 24 steps of the lane cycle.  Step [t] writes into lane
    [lane_cycle[t]] the lane read at the step before (lane 1 for the first
    step), rotated left by [rotation_amounts[t]]. *)
Definition rotation_amounts : list Z :=
  [1; 3; 6; 10; 15; 21; 28; 36; 45; 55; 2; 14;
   27; 41; 56; 8; 25; 43; 62; 18; 39; 61; 20; 44].

Definition lane_cycle : list nat :=
  [10; 7; 11; 17; 18; 3; 5; 16; 8; 21; 24; 4;
   15; 23; 19; 13; 12; 2; 20; 14; 22; 9; 6; 1]%nat.

Definition step_source (t : nat) : nat :=
  match t with
  | O => 1%nat
  | S t' => nth t' lane_cycle 0%nat
  end.

Fixpoint step_of (i : nat) (cycle : list nat) (t : nat) : option nat :=
  match cycle with
  | [] => None
  | j :: rest => if Nat.eqb i j then Some t else step_of i rest (S t)
  end.

Definition rho_pi (St : list Z) : list Z :=
  map (fun i =>
         match step_of i lane_cycle 0 with
         | Some t => rotl64 (lane St (step_source t)) (nth t rotation_amounts 0)
         | None => lane St i
         end)
      (seq 0 25).

(** Chi, row by row, from the lanes as they were before the step. *)
Definition chi (St : list Z) : list Z :=
  map (fun i =>
         let row := (5 * (i / 5))%nat in
         let c := (i mod 5)%nat in
         xor64 (lane St i)
               (and64 (not64 (lane St (row + (c + 1) mod 5)))
                      (lane St (row + (c + 2) mod 5))))
      (seq 0 25).

(** Iota: lane 0 only. *)
Definition iota (r : nat) (St : list Z) : list Z :=
  upd St 0 (xor64 (lane St 0) (nth r roundConstants 0)).

Definition round (r : nat) (St : list Z) : list Z :=
  iota r (chi (rho_pi (theta St))).

(** 24 rounds, numbered from 0. *)
Definition permute (St : list Z) : list Z :=
  fold_left (fun St r => round r St) (seq 0 24) St.

(** Little-endian lanes. *)
Definition le_word (bs : list byte) : Z :=
  fold_right (fun b acc => byte_val b + 256 * acc) 0 (firstn 8 bs).

Definition le_bytes (x : Z) : list byte :=
  map (fun j => to_byte (x / 256 ^ Z.of_nat j)) (seq 0 8).

Definition serialize (St : list Z) : list byte := flat_map le_bytes St.

(** absorb: word [i] of the block is XORed into lane [i], for the
    [rate/8] words of the block, then the permutation runs once. *)
Definition xor_block (rate : Z) (St : list Z) (block : list byte) : list Z :=
  map (fun i =>
         if Z.of_nat i <? rate / 8
         then xor64 (lane St i) (le_word (skipn (8 * i) block))
         else lane St i)
      (seq 0 25).

Definition absorb (rate : Z) (St : list Z) (block : list byte) : list Z :=
  permute (xor_block rate St block).

(** write: the stream is cut into blocks of [rate] bytes; each full block is
    absorbed, what is left over stays pending. *)
Definition full_blocks (rate : Z) (data : list byte) : nat :=
  Z.to_nat (len data / rate).

Fixpoint absorb_blocks (n : nat) (rate : Z) (St : list Z) (data : list byte) : list Z :=
  match n with
  | O => St
  | S n' =>
      absorb_blocks n' rate
        (absorb rate St (firstn (Z.to_nat rate) data))
        (skipn (Z.to_nat rate) data)
  end.

Definition absorbed (rate : Z) (St : list Z) (data : list byte) : list Z :=
  absorb_blocks (full_blocks rate data) rate St data.

Definition pending (rate : Z) (data : list byte) : list byte :=
  skipn (Z.to_nat rate * full_blocks rate data) data.

(** pad: a zero-filled block of [rate] bytes with the pending bytes at its
    start, the domain byte right after them and 0x80 ORed into the last
    byte. *)
Definition pad (rate : Z) (dom : byte) (pend : list byte) : list byte :=
  map (fun i =>
         let b := if (i <? length pend)%nat then nth i pend x00
                  else if (i =? length pend)%nat then dom else x00 in
         if (S i =? Z.to_nat rate)%nat then or8 b x80 else b)
      (seq 0 (Z.to_nat rate)).

Definition finalize (rate : Z) (dom : byte) (St : list Z) (pend : list byte) : list Z :=
  absorb rate St (pad rate dom pend).

(** squeeze: if [n <= rate] the first [n] bytes of the serialized state;
    otherwise its first [rate] bytes, followed by what squeezing [n - rate]
    bytes from the permuted state gives. *)
Fixpoint squeeze_blocks (more : nat) (rate : Z) (St : list Z) (n : Z) : list byte :=
  match more with
  | O => firstn (Z.to_nat n) (serialize St)
  | S m =>
      firstn (Z.to_nat rate) (serialize St)
        ++ squeeze_blocks m rate (permute St) (n - rate)
  end.

Definition squeeze (rate : Z) (St : list Z) (n : Z) : list byte :=
  squeeze_blocks (Z.to_nat ((n - 1) / rate)) rate St n.

End Spec.

(** ** Well-formed instances *)

Definition is_word (w : Z) : Prop := 0 <= w < 2 ^ 64.

(** The bytes pending in an instance. *)
Definition pending_bytes (h : Mem.heap) (k : keccak) : list byte :=
  Mem.load h (buf k).

(** What the data model promises of a sponge instance: 25 lanes, a rate
    between 1 and 200 bytes, fewer than [rate] pending bytes, held in a slice
    that lies within its array. *)
Record well_formed (h : Mem.heap) (k : keccak) : Prop := {
  wf_state : length (state k) = 25%nat;
  wf_rate : 0 < blockSize k <= 200;
  wf_buf : Mem.len (buf k) < blockSize k;
  wf_mem : Mem.valid h (buf k)
}.

(** The instances the exported constructors return. *)
Inductive constructed : keccak -> Prop :=
| made_224 : constructed New224
| made_256 : constructed New256
| made_384 : constructed New384
| made_512 : constructed New512
| made_SHA3224 : constructed NewSHA3224
| made_SHA3256 : constructed NewSHA3256
| made_SHA3384 : constructed NewSHA3384
| made_SHA3512 : constructed NewSHA3512
| made_SHAKE128 (n : Z) : constructed (NewSHAKE128 n)
| made_SHAKE256 (n : Z) : constructed (NewSHAKE256 n).

(** The instances a client can get hold of, with the heap they live in.  The
    client may write to any array and allocate between calls. *)
Inductive reachable : Mem.heap -> keccak -> Prop :=
| reach_new (h : Mem.heap) (k : keccak) :
    constructed k -> reachable h k
| reach_client (h h' : Mem.heap) (k : keccak) :
    reachable h k -> Mem.extends h h' -> reachable h' k
| reach_Write (h h' : Mem.heap) (k k' : keccak) (b : Mem.slice) (n : Z) :
    reachable h k -> Mem.valid h b ->
    Write b k h = Done (n, k', h') -> reachable h' k'
| reach_Reset (h : Mem.heap) (k k' : keccak) :
    reachable h k -> Reset k = Done k' -> reachable h k'
| reach_Sum (h h' : Mem.heap) (k k' : keccak) (b out : Mem.slice) :
    reachable h k -> Mem.valid h b ->
    Sum b k h = Done (out, k', h') -> reachable h' k'.

(** The instance the description expects once the bytes [data] (what was
    pending, then what was written) have gone through [write]: every full
    block absorbed, the rest pending, the parameters as they were. *)
Definition streamed (k : keccak) (data : list byte) (h' : Mem.heap) (k' : keccak)
  : Prop :=
  state k' = Spec.absorbed (blockSize k) (state k) data
  /\ pending_bytes h' k' = Spec.pending (blockSize k) data
  /\ size k' = size k /\ blockSize k' = blockSize k /\ domain k' = domain k.

(** The state the description expects once the pending bytes are padded and
    absorbed. *)
Definition finalized (h : Mem.heap) (k : keccak) : list Z :=
  Spec.finalize (blockSize k) (domain k) (state k) (pending_bytes h k).

(** The extendable-output property for a family [New] of instances indexed by
    their output length: asking for [n] bytes gives the first [n] of the bytes
    that asking for [2n] gives. *)
Definition prefix_property (New : Z -> keccak) (h : Mem.heap) (msg : Mem.slice)
  (n : Z) : Prop :=
  exists d1 d2,
    digest (New n) msg h = Done d1
    /\ digest (New (2 * n)) msg h = Done d2
    /\ d1 = firstn (Z.to_nat n) d2.

(** A run that ends, and ends with a true proposition. *)
Definition holds (m : outcome Prop) : Prop :=
  match m with
  | Done P => P
  | Panic _ => False
  | OutOfFuel => False
  end.

(** A slice over the whole of array [a], of [n] bytes. *)
Definition whole (a n : nat) : Mem.slice :=
  {| Mem.base := a; Mem.off := 0; Mem.slen := n; Mem.scap := n |}.

Create HintDb words.


(** ** Histories and spare capacity *)

(** The instances a client gets from the instance [k0] by calls of [Write],
    [Reset] and [Sum], with writes of its own to the arrays in between. *)
Inductive history (k0 : keccak) : Mem.heap -> keccak -> Prop :=
| hist_start (h : Mem.heap) : history k0 h k0
| hist_client (h h' : Mem.heap) (k : keccak) :
    history k0 h k -> Mem.extends h h' -> history k0 h' k
| hist_Write (h h' : Mem.heap) (k k' : keccak) (b : Mem.slice) (n : Z) :
    history k0 h k -> Mem.valid h b ->
    Write b k h = Done (n, k', h') -> history k0 h' k'
| hist_Reset (h : Mem.heap) (k k' : keccak) :
    history k0 h k -> Reset k = Done k' -> history k0 h k'
| hist_Sum (h h' : Mem.heap) (k k' : keccak) (b out : Mem.slice) :
    history k0 h k -> Mem.valid h b ->
    Sum b k h = Done (out, k', h') -> history k0 h' k'.

(** Byte [i] of array [a] lies in the spare capacity of the slice [s]: past
    its length, within its capacity. *)
Definition in_spare (s : Mem.slice) (a i : nat) : Prop :=
  a = Mem.base s /\ (Mem.off s + Mem.slen s <= i < Mem.off s + Mem.scap s)%nat.

(** Byte [i] of array [a]. *)
Definition byte_at (h : Mem.heap) (a i : nat) : byte := nth i (nth a h []) x00.

(** The bytes of the slice [p] lie outside the spare capacity of the slice
    [s]. *)
Definition apart (p s : Mem.slice) : Prop :=
  Mem.slen p = 0%nat
  \/ Mem.base p <> Mem.base s
  \/ (Mem.off p + Mem.slen p <= Mem.off s + Mem.slen s)%nat
  \/ (Mem.off s + Mem.scap s <= Mem.off p)%nat.
(** * Properties *)

(** ** Outcomes, indexing *)

Lemma index_nth {A : Type} (l : list A) (i : Z) (d : A) :
  0 <= i < len l -> index l i = Done (nth (Z.to_nat i) l d).
Proof.
  intros H. unfold index.
  replace ((0 <=? i) && (i <? len l)) with true
    by (symmetry; apply andb_true_iff; split; [apply Z.leb_le | apply Z.ltb_lt]; lia).
  destruct (nth_error l (Z.to_nat i)) eqn:E.
  - now rewrite (nth_error_nth _ _ d E).
  - apply nth_error_None in E. unfold len in H. lia.
Qed.

Lemma store_upd {A : Type} (l : list A) (i : Z) (v : A) :
  0 <= i < len l -> store l i v = Done (upd l (Z.to_nat i) v).
Proof.
  intros H. unfold store.
  replace ((0 <=? i) && (i <? len l)) with true
    by (symmetry; apply andb_true_iff; split; [apply Z.leb_le | apply Z.ltb_lt]; lia).
  reflexivity.
Qed.

(** ** One round *)

Ltac explode l :=
  repeat (let x := fresh "x" in destruct l as [|x l]; [discriminate|]);
  try discriminate.

Ltac list_exactly l H :=
  repeat (let x := fresh "x" in destruct l as [|x l]; [discriminate H|]; simpl in H);
  destruct l; [clear H | discriminate H].

Lemma Looped_round_spec (r : Z) (St bc : list Z) :
  length St = 25%nat -> length bc = 5%nat -> 0 <= r < 24 ->
  exists bc',
    Looped.round r (St, bc) = Done (Spec.round (Z.to_nat r) St, bc')
    /\ length bc' = 5%nat.
Proof.
  intros HS Hb Hr.
  do 25 (destruct St as [|? St]; [discriminate HS|]).
  destruct St; [|discriminate HS].
  do 5 (destruct bc as [|? bc]; [discriminate Hb|]).
  destruct bc; [|discriminate Hb].
  unfold Looped.round.
  rewrite (index_nth roundConstants r 0) by (unfold len; simpl; lia).
  unfold Spec.round, Spec.iota.
  generalize (nth (Z.to_nat r) roundConstants 0). intros rc.
  cbv -[xor64 and64 or64 not64 shl64 shr64].
  eexists. split; reflexivity.
Qed.

Lemma Unrolled_round_spec (r : Z) (St bc : list Z) (tmp : Z) :
  length St = 25%nat -> length bc = 5%nat -> 0 <= r < 24 ->
  exists bc' tmp',
    Unrolled.round r {| Unrolled.St := St; Unrolled.bc := bc; Unrolled.tmp := tmp |}
    = Done {| Unrolled.St := Spec.round (Z.to_nat r) St;
              Unrolled.bc := bc'; Unrolled.tmp := tmp' |}
    /\ length bc' = 5%nat.
Proof.
  intros HS Hb Hr.
  do 25 (destruct St as [|? St]; [discriminate HS|]).
  destruct St; [|discriminate HS].
  do 5 (destruct bc as [|? bc]; [discriminate Hb|]).
  destruct bc; [|discriminate Hb].
  unfold Unrolled.round, Unrolled.iota.
  rewrite (index_nth roundConstants r 0) by (unfold len; simpl; lia).
  unfold Spec.round, Spec.iota.
  generalize (nth (Z.to_nat r) roundConstants 0). intros rc.
  cbv -[xor64 and64 or64 not64 shl64 shr64].
  do 2 eexists. split; reflexivity.
Qed.

Lemma round_length (r : nat) (St : list Z) :
  length St = 25%nat -> length (Spec.round r St) = 25%nat.
Proof.
  intros HS.
  do 25 (destruct St as [|? St]; [discriminate HS|]).
  destruct St; [|discriminate HS].
  reflexivity.
Qed.

(** ** All rounds *)

Lemma rounds_length (rs : list nat) (St : list Z) :
  length St = 25%nat ->
  length (fold_left (fun St r => Spec.round r St) rs St) = 25%nat.
Proof.
  revert St. induction rs as [|r rs IH]; intros St HS; simpl.
  - exact HS.
  - apply IH, round_length, HS.
Qed.

Lemma permute_length (St : list Z) :
  length St = 25%nat -> length (Spec.permute St) = 25%nat.
Proof. apply rounds_length. Qed.

Lemma Looped_rounds_spec (rs : list nat) (St bc : list Z) :
  Forall (fun r => (r < 24)%nat) rs ->
  length St = 25%nat -> length bc = 5%nat ->
  exists bc',
    forM (map Z.of_nat rs) Looped.round (St, bc)
    = Done (fold_left (fun St r => Spec.round r St) rs St, bc')
    /\ length bc' = 5%nat.
Proof.
  intros Hrs. revert St bc.
  induction Hrs as [|r rs Hr _ IH]; intros St bc HS Hb; cbn [map forM fold_left].
  - exists bc. split; [reflexivity | exact Hb].
  - destruct (Looped_round_spec (Z.of_nat r) St bc HS Hb) as (bc1 & E & Hb1); [lia|].
    rewrite E, Nat2Z.id. cbn [bind].
    apply IH; [apply round_length, HS | exact Hb1].
Qed.

Lemma Unrolled_rounds_spec (rs : list nat) (St bc : list Z) (tmp : Z) :
  Forall (fun r => (r < 24)%nat) rs ->
  length St = 25%nat -> length bc = 5%nat ->
  exists bc' tmp',
    forM (map Z.of_nat rs) Unrolled.round
         {| Unrolled.St := St; Unrolled.bc := bc; Unrolled.tmp := tmp |}
    = Done {| Unrolled.St := fold_left (fun St r => Spec.round r St) rs St;
              Unrolled.bc := bc'; Unrolled.tmp := tmp' |}
    /\ length bc' = 5%nat.
Proof.
  intros Hrs. revert St bc tmp.
  induction Hrs as [|r rs Hr _ IH]; intros St bc tmp HS Hb; cbn [map forM fold_left].
  - exists bc, tmp. split; [reflexivity | exact Hb].
  - destruct (Unrolled_round_spec (Z.of_nat r) St bc tmp HS Hb)
      as (bc1 & tmp1 & E & Hb1); [lia|].
    rewrite E, Nat2Z.id. cbn [bind].
    apply IH; [apply round_length, HS | exact Hb1].
Qed.

Lemma all_rounds : Forall (fun r => (r < 24)%nat) (seq 0 24).
Proof. apply Forall_forall. intros r H. apply in_seq in H. lia. Qed.

Lemma Looped_keccakf_permute (St : list Z) :
  length St = 25%nat -> Looped.keccakf St = Done (Spec.permute St).
Proof.
  intros HS. unfold Looped.keccakf.
  change (range rounds) with (map Z.of_nat (seq 0 24)).
  destruct (Looped_rounds_spec (seq 0 24) St (repeat 0 5) all_rounds HS eq_refl)
    as (bc' & E & _).
  rewrite E. reflexivity.
Qed.

Lemma Unrolled_keccakf_permute (St : list Z) :
  length St = 25%nat -> Unrolled.keccakf St = Done (Spec.permute St).
Proof.
  intros HS. unfold Unrolled.keccakf.
  change (range rounds) with (map Z.of_nat (seq 0 24)).
  destruct (Unrolled_rounds_spec (seq 0 24) St (repeat 0 5) 0 all_rounds HS eq_refl)
    as (bc' & tmp' & E & _).
  rewrite E. reflexivity.
Qed.

Lemma keccakf_permute (St : list Z) :
  length St = 25%nat -> keccakf St = Done (Spec.permute St).
Proof. apply Unrolled_keccakf_permute. Qed.

(** ** Bytes and machine integers *)

Lemma byte_val_range (b : byte) : 0 <= byte_val b < 256.
Proof.
  unfold byte_val. pose proof (Byte.to_N_bounded b). lia.
Qed.

Lemma byte_val_to_byte (x : Z) : byte_val (to_byte x) = x mod 256.
Proof.
  unfold to_byte, byte_val.
  pose proof (Z.mod_pos_bound x 256 eq_refl) as Hm.
  destruct (Byte.of_N (Z.to_N (x mod 256))) as [b|] eqn:E.
  - apply Byte.to_of_N in E. rewrite E. lia.
  - apply Byte.of_N_None_iff in E. lia.
Qed.

Lemma to_byte_byte_val (b : byte) : to_byte (byte_val b) = b.
Proof.
  unfold to_byte. rewrite Z.mod_small by apply byte_val_range.
  unfold byte_val. rewrite N2Z.id, Byte.of_to_N. reflexivity.
Qed.

Lemma wrap_small (z : Z) : Int.min_int <= z <= Int.max_int -> Int.wrap z = z.
Proof.
  unfold Int.min_int, Int.max_int, Int.wrap. intros H.
  rewrite Z.mod_small; lia.
Qed.

Lemma quo_small (a b : Z) : 0 <= a <= Int.max_int -> 0 < b -> Int.quo a b = a / b.
Proof.
  intros Ha Hb. unfold Int.quo.
  rewrite Z.quot_div_nonneg by lia.
  apply wrap_small.
  pose proof (Z.div_pos a b). pose proof (Z.div_le_upper_bound a b a).
  unfold Int.min_int, Int.max_int in *. nia.
Qed.

(** ** Lists as arrays *)

Lemma len_nonneg {A : Type} (l : list A) : 0 <= len l.
Proof. unfold len. lia. Qed.

Lemma len_app {A : Type} (l1 l2 : list A) : len (l1 ++ l2) = len l1 + len l2.
Proof. unfold len. rewrite length_app. lia. Qed.

Lemma slice_to_firstn {A : Type} (l : list A) (hi : Z) :
  0 <= hi <= len l -> slice_to l hi = Done (firstn (Z.to_nat hi) l).
Proof.
  intros H. unfold slice_to.
  replace ((0 <=? hi) && (hi <=? len l)) with true
    by (symmetry; apply andb_true_iff; split; apply Z.leb_le; lia).
  reflexivity.
Qed.

Lemma slice_from_skipn {A : Type} (l : list A) (lo : Z) :
  0 <= lo <= len l -> slice_from l lo = Done (skipn (Z.to_nat lo) l).
Proof.
  intros H. unfold slice_from.
  replace ((0 <=? lo) && (lo <=? len l)) with true
    by (symmetry; apply andb_true_iff; split; apply Z.leb_le; lia).
  reflexivity.
Qed.

Lemma upd_length {A : Type} (l : list A) (n : nat) (v : A) :
  length (upd l n v) = length l.
Proof.
  revert n. induction l as [|h t IH]; intros [|n]; simpl; auto.
Qed.

Lemma upd_app_len {A : Type} (p l : list A) (j : nat) (v : A) :
  upd (p ++ l) (length p + j) v = p ++ upd l j v.
Proof.
  induction p as [|h t IH]; simpl.
  - reflexivity.
  - now rewrite IH.
Qed.

Lemma nth_upd {A : Type} (l : list A) (n i : nat) (v d : A) :
  nth i (upd l n v) d =
  if Nat.eqb i n then (if Nat.ltb n (length l) then v else d) else nth i l d.
Proof.
  revert n i. induction l as [|h t IH]; intros n i.
  - simpl. destruct (Nat.eqb i n); destruct i; reflexivity.
  - destruct n as [|n], i as [|i]; simpl; try reflexivity.
    rewrite IH. simpl.
    destruct (Nat.eqb i n); [|reflexivity].
    reflexivity.
Qed.

Lemma map_lane_seq (St : list Z) :
  map (Spec.lane St) (seq 0 (length St)) = St.
Proof.
  apply nth_ext with (d := 0) (d' := 0).
  - now rewrite length_map, length_seq.
  - intros i Hi. rewrite length_map, length_seq in Hi.
    rewrite (nth_indep _ 0 (Spec.lane St 0)) by now rewrite length_map, length_seq.
    rewrite map_nth, seq_nth by assumption. reflexivity.
Qed.

Lemma forM_app {A : Type} (l1 l2 : list Z) (body : Z -> A -> outcome A) (a : A) :
  forM (l1 ++ l2) body a = (a' <- forM l1 body a ;; forM l2 body a').
Proof.
  revert a. induction l1 as [|i l1 IH]; intros a; simpl.
  - reflexivity.
  - destruct (body i a); simpl; auto.
Qed.

Lemma range_succ (n : nat) :
  range (Z.of_nat (S n)) = range (Z.of_nat n) ++ [Z.of_nat n].
Proof.
  unfold range. rewrite !Nat2Z.id, seq_S, map_app. reflexivity.
Qed.

(** ** Little-endian words *)

Lemma lor_shifted (a b n : Z) :
  0 <= n -> 0 <= a < 2 ^ n -> Z.lor a (b * 2 ^ n) = a + b * 2 ^ n.
Proof.
  intros Hn Ha.
  assert (E : Z.land a (b * 2 ^ n) = 0).
  { apply Z.bits_inj'. intros i Hi.
    rewrite Z.land_spec, Z.bits_0.
    destruct (Z.lt_ge_cases i n) as [L|G].
    - rewrite Z.mul_pow2_bits_low by assumption. apply andb_false_r.
    - rewrite <- (Z.mod_small a (2 ^ n)) by assumption.
      rewrite Z.mod_pow2_bits_high by lia. reflexivity. }
  rewrite <- Z.lxor_lor by assumption.
  symmetry. apply Z.add_nocarry_lxor. assumption.
Qed.

Lemma or_shl_byte (a : Z) (b : byte) (n : Z) :
  0 <= n <= 56 -> 0 <= a < 2 ^ n ->
  or64 a (shl64 (byte_val b) n) = a + byte_val b * 2 ^ n.
Proof.
  intros Hn Ha. unfold or64, shl64.
  replace (n <? 64) with true by (symmetry; apply Z.ltb_lt; lia).
  rewrite Z.shiftl_mul_pow2 by lia.
  pose proof (byte_val_range b) as Hb.
  assert (0 < 2 ^ n) by (apply Z.pow_pos_nonneg; lia).
  assert (2 ^ n <= 2 ^ 56) by (apply Z.pow_le_mono_r; lia).
  rewrite Z.mod_small by (change (2 ^ 64) with (256 * 2 ^ 56); nia).
  apply lor_shifted; lia.
Qed.

Lemma uint64le_le_word (v : list byte) :
  (8 <= length v)%nat -> uint64le v = Done (Spec.le_word v).
Proof.
  intros H.
  do 8 (destruct v as [|? v]; [simpl in H; lia|]).
  unfold uint64le, Spec.le_word.
  assert (L : 8 <= len (b :: b0 :: b1 :: b2 :: b3 :: b4 :: b5 :: b6 :: v))
    by (unfold len; simpl length; lia).
  rewrite !(index_nth _ _ x00) by lia.
  cbn [bind Z.to_nat Pos.to_nat Pos.iter_op Nat.add nth firstn fold_right].
  f_equal.
  pose proof (byte_val_range b). pose proof (byte_val_range b0).
  pose proof (byte_val_range b1). pose proof (byte_val_range b2).
  pose proof (byte_val_range b3). pose proof (byte_val_range b4).
  pose proof (byte_val_range b5). pose proof (byte_val_range b6).
  rewrite (or_shl_byte _ b0 8) by lia.
  rewrite (or_shl_byte _ b1 16) by lia.
  rewrite (or_shl_byte _ b2 24) by lia.
  rewrite (or_shl_byte _ b3 32) by lia.
  rewrite (or_shl_byte _ b4 40) by lia.
  rewrite (or_shl_byte _ b5 48) by lia.
  rewrite (or_shl_byte _ b6 56) by lia.
  lia.
Qed.

(** ** absorb *)

Lemma nth_map_seq {A : Type} (f : nat -> A) (n i : nat) (d : A) :
  (i < n)%nat -> nth i (map f (seq 0 n)) d = f i.
Proof.
  intros H.
  rewrite (nth_indep _ d (f 0%nat)) by now rewrite length_map, length_seq.
  rewrite map_nth, seq_nth by assumption. reflexivity.
Qed.

Lemma xor_block_length (rate : Z) (St : list Z) (block : list byte) :
  length (Spec.xor_block rate St block) = 25%nat.
Proof. unfold Spec.xor_block. now rewrite length_map, length_seq. Qed.

Lemma absorb_length (rate : Z) (St : list Z) (block : list byte) :
  length (Spec.absorb rate St block) = 25%nat.
Proof. apply permute_length, xor_block_length. Qed.

Lemma xor_block_nth (rate : Z) (St : list Z) (block : list byte) (i : nat) :
  (i < 25)%nat ->
  nth i (Spec.xor_block rate St block) 0 =
  if Z.of_nat i <? rate / 8
  then xor64 (Spec.lane St i) (Spec.le_word (skipn (8 * i) block))
  else Spec.lane St i.
Proof. intros H. unfold Spec.xor_block. now rewrite nth_map_seq. Qed.

Lemma absorb_loop (m : nat) (St : list Z) (block : list byte) :
  length St = 25%nat -> (m <= 25)%nat -> (8 * m <= length block)%nat ->
  forM (range (Z.of_nat m))
       (fun i St =>
          v <- slice_from block (Int.mul i 8) ;;
          w <- uint64le v ;;
          xor_at St i w) St
  = Done (Spec.xor_block (8 * Z.of_nat m) St block).
Proof.
  intros HS. induction m as [|m IH]; intros Hm Hb.
  - simpl. f_equal. rewrite <- (map_lane_seq St) at 1. rewrite HS.
    unfold Spec.xor_block. apply map_ext. intros i.
    destruct (Z.ltb_spec (Z.of_nat i) (0 / 8)) as [L|L];
      [change (0 / 8) with 0 in L; lia | reflexivity].
  - rewrite range_succ, forM_app, IH by lia. cbn [bind forM].
    unfold Int.mul.
    rewrite wrap_small by (unfold Int.min_int, Int.max_int; lia).
    rewrite slice_from_skipn by (unfold len; lia).
    cbn [bind].
    rewrite uint64le_le_word by (rewrite length_skipn; lia).
    cbn [bind]. unfold xor_at.
    pose proof (xor_block_length (8 * Z.of_nat m) St block) as L.
    rewrite (index_nth _ _ 0) by (unfold len; lia).
    cbn [bind].
    rewrite store_upd by (unfold len; lia).
    cbn [bind]. f_equal.
    apply nth_ext with (d := 0) (d' := 0).
    + now rewrite upd_length, L, xor_block_length.
    + intros i Hi. rewrite upd_length, L in Hi.
      rewrite nth_upd, !xor_block_nth, L, Nat2Z.id by lia.
      replace (8 * Z.of_nat m / 8) with (Z.of_nat m)
        by (rewrite Z.mul_comm, Z.div_mul; lia).
      replace (8 * Z.of_nat (S m) / 8) with (Z.of_nat (S m))
        by (rewrite Z.mul_comm, Z.div_mul; lia).
      replace (Z.to_nat (Z.of_nat m * 8)) with (8 * m)%nat by lia.
      destruct (Nat.eqb_spec i m) as [->|Ne].
      * replace (Nat.ltb m 25) with true by (symmetry; apply Nat.ltb_lt; lia).
        replace (Z.of_nat m <? Z.of_nat m) with false
          by (symmetry; apply Z.ltb_ge; lia).
        replace (Z.of_nat m <? Z.of_nat (S m)) with true
          by (symmetry; apply Z.ltb_lt; lia).
        reflexivity.
      * destruct (Z.ltb_spec (Z.of_nat i) (Z.of_nat m));
          destruct (Z.ltb_spec (Z.of_nat i) (Z.of_nat (S m))); try lia; reflexivity.
Qed.

Lemma xor_block_rate (rate : Z) (St : list Z) (block : list byte) :
  Spec.xor_block (8 * (rate / 8)) St block = Spec.xor_block rate St block.
Proof.
  unfold Spec.xor_block. apply map_ext. intros i.
  replace (8 * (rate / 8) / 8) with (rate / 8)
    by (rewrite Z.mul_comm, Z.div_mul; lia).
  reflexivity.
Qed.

Lemma absorb_spec (block : list byte) (k : keccak) :
  length (state k) = 25%nat -> 0 <= blockSize k <= 200 ->
  len block = blockSize k ->
  absorb block k = Done (with_state k (Spec.absorb (blockSize k) (state k) block)).
Proof.
  intros HS Hr Hb. unfold absorb.
  replace (len block =? blockSize k) with true by (symmetry; apply Z.eqb_eq; exact Hb).
  cbn [negb].
  rewrite quo_small by (unfold Int.max_int; lia).
  assert (0 <= blockSize k / 8 <= 25).
  { split; [apply Z.div_pos; lia|]. apply Z.div_le_upper_bound; lia. }
  rewrite <- (Z2Nat.id (blockSize k / 8)) by lia.
  rewrite absorb_loop; [ | exact HS | lia | ].
  - cbn [bind]. rewrite Z2Nat.id by lia.
    rewrite xor_block_rate.
    rewrite keccakf_permute by apply xor_block_length.
    reflexivity.
  - unfold len in Hb.
    pose proof (Z.mul_div_le (blockSize k) 8). lia.
Qed.

(** ** Slices in the heap *)

Lemma load_length (h : Mem.heap) (s : Mem.slice) :
  Mem.valid h s -> length (Mem.load h s) = Mem.slen s.
Proof.
  intros [H1 H2]. unfold Mem.load.
  rewrite length_firstn, length_skipn. lia.
Qed.

Lemma len_load (h : Mem.heap) (s : Mem.slice) :
  Mem.valid h s -> len (Mem.load h s) = Mem.len s.
Proof. intros V. unfold len, Mem.len. now rewrite load_length. Qed.

Lemma load_take (h : Mem.heap) (s : Mem.slice) (n : nat) :
  (n <= Mem.slen s)%nat -> Mem.load h (Mem.take s n) = firstn n (Mem.load h s).
Proof.
  intros H. unfold Mem.load, Mem.take, Mem.array. cbn [Mem.base Mem.off Mem.slen].
  rewrite firstn_firstn. f_equal. lia.
Qed.

Lemma skipn_firstn_sub {A : Type} (n m : nat) (l : list A) :
  skipn n (firstn m l) = firstn (m - n) (skipn n l).
Proof.
  revert m l. induction n as [|n IH]; intros m l.
  - now rewrite Nat.sub_0_r.
  - destruct m as [|m], l as [|x l]; cbn [firstn skipn Nat.sub]; auto.
    now rewrite firstn_nil.
Qed.

Lemma load_drop (h : Mem.heap) (s : Mem.slice) (n : nat) :
  Mem.load h (Mem.drop s n) = skipn n (Mem.load h s).
Proof.
  unfold Mem.load, Mem.drop, Mem.array. cbn [Mem.base Mem.off Mem.slen].
  rewrite skipn_firstn_sub, skipn_skipn. do 2 f_equal. lia.
Qed.

Lemma valid_take (h : Mem.heap) (s : Mem.slice) (n : nat) :
  Mem.valid h s -> (n <= Mem.slen s)%nat -> Mem.valid h (Mem.take s n).
Proof.
  intros [H1 H2] Hn. split; unfold Mem.take, Mem.array in *;
    cbn [Mem.base Mem.off Mem.slen Mem.scap]; lia.
Qed.

Lemma valid_drop (h : Mem.heap) (s : Mem.slice) (n : nat) :
  Mem.valid h s -> (n <= Mem.slen s)%nat -> Mem.valid h (Mem.drop s n).
Proof.
  intros [H1 H2] Hn. split; unfold Mem.drop, Mem.array in *;
    cbn [Mem.base Mem.off Mem.slen Mem.scap]; lia.
Qed.

Lemma drop_drop (s : Mem.slice) (n m : nat) :
  Mem.drop (Mem.drop s n) m = Mem.drop s (n + m).
Proof.
  unfold Mem.drop. cbn [Mem.base Mem.off Mem.slen Mem.scap]. f_equal; lia.
Qed.

Lemma upto_take (s : Mem.slice) (hi : Z) :
  0 <= hi <= Z.of_nat (Mem.scap s) -> Mem.upto s hi = Done (Mem.take s (Z.to_nat hi)).
Proof.
  intros H. unfold Mem.upto.
  replace ((0 <=? hi) && (hi <=? Z.of_nat (Mem.scap s))) with true
    by (symmetry; apply andb_true_iff; split; apply Z.leb_le; lia).
  reflexivity.
Qed.

Lemma from_drop (s : Mem.slice) (lo : Z) :
  0 <= lo <= Mem.len s -> Mem.from s lo = Done (Mem.drop s (Z.to_nat lo)).
Proof.
  intros H. unfold Mem.from.
  replace ((0 <=? lo) && (lo <=? Mem.len s)) with true
    by (symmetry; apply andb_true_iff; split; apply Z.leb_le; lia).
  reflexivity.
Qed.

Lemma valid_nil (h : Mem.heap) : Mem.valid h Mem.nil.
Proof. split; simpl; lia. Qed.

Lemma load_empty (h : Mem.heap) (s : Mem.slice) :
  Mem.slen s = 0%nat -> Mem.load h s = [].
Proof. intros E. unfold Mem.load. now rewrite E. Qed.

Lemma extends_refl (h : Mem.heap) : Mem.extends h h.
Proof. split; auto. Qed.

Lemma extends_trans (h1 h2 h3 : Mem.heap) :
  Mem.extends h1 h2 -> Mem.extends h2 h3 -> Mem.extends h1 h3.
Proof.
  intros [L1 A1] [L2 A2]. split; [lia|].
  intros a Ha. rewrite A2, A1 by lia. reflexivity.
Qed.

Lemma extends_valid (h h' : Mem.heap) (s : Mem.slice) :
  Mem.extends h h' -> Mem.valid h s -> Mem.valid h' s.
Proof.
  intros [L A] [H1 H2]. split; [assumption|].
  unfold Mem.array in *.
  destruct (Nat.lt_ge_cases (Mem.base s) (length h)) as [Lt|Ge].
  - rewrite A by assumption. assumption.
  - rewrite (nth_overflow h) in H2 by assumption. simpl in H2. lia.
Qed.

Lemma nth_upd_list {A : Type} (l : list A) (n i : nat) (v d : A) :
  (n < length l)%nat -> nth i (upd l n v) d = if Nat.eqb i n then v else nth i l d.
Proof.
  intros H. rewrite nth_upd.
  replace (n <? length l)%nat with true by (symmetry; apply Nat.ltb_lt; assumption).
  reflexivity.
Qed.

Lemma upd_overflow {A : Type} (l : list A) (n : nat) (v : A) :
  (length l <= n)%nat -> upd l n v = l.
Proof.
  revert n. induction l as [|x l IH]; intros n H; [reflexivity|].
  destruct n as [|n]; simpl in *; [lia|]. now rewrite IH by lia.
Qed.

Section Append.

Variables (h : Mem.heap) (s : Mem.slice) (data : list byte).
Hypothesis V : Mem.valid h s.

Local Abbreviation s' := (fst (Mem.append s data h)).
Local Abbreviation h' := (snd (Mem.append s data h)).

Lemma append_frame (a : nat) :
  (a < length h)%nat -> a <> Mem.base s -> nth a h' [] = nth a h [].
Proof.
  intros Ha Ne. unfold Mem.append.
  destruct (Mem.slen s + length data <=? Mem.scap s)%nat; cbn [snd].
  - unfold Mem.poke. rewrite nth_upd.
    destruct (Nat.eqb_spec a (Mem.base s)); [contradiction | reflexivity].
  - now rewrite app_nth1.
Qed.

Lemma append_extends : Mem.extends h h'.
Proof.
  destruct V as [V1 V2]. unfold Mem.append.
  destruct (Nat.leb_spec (Mem.slen s + length data) (Mem.scap s)); cbn [snd].
  - unfold Mem.poke. split; [now rewrite upd_length|].
    intros a Ha. rewrite nth_upd.
    destruct (Nat.eqb_spec a (Mem.base s)) as [->|Ne]; [|reflexivity].
    replace (Mem.base s <? length h)%nat with true
      by (symmetry; apply Nat.ltb_lt; assumption).
    unfold Mem.array in V2.
    rewrite !length_app, length_firstn, length_skipn. lia.
  - split; [rewrite length_app; simpl; lia|].
    intros a Ha. now rewrite app_nth1.
Qed.

Lemma append_valid : Mem.valid h' s'.
Proof.
  pose proof append_extends as [_ E].
  destruct V as [V1 V2]. unfold Mem.append in *.
  destruct (Nat.leb_spec (Mem.slen s + length data) (Mem.scap s)); cbn [fst snd] in *.
  - split; cbn [Mem.slen Mem.scap Mem.off]; [assumption|].
    unfold Mem.array in *. cbn [Mem.base].
    destruct (Nat.lt_ge_cases (Mem.base s) (length h)) as [Lt|Ge].
    + rewrite E by assumption. assumption.
    + rewrite (nth_overflow h) in V2 by assumption. simpl in V2. lia.
  - split; cbn [Mem.slen Mem.scap Mem.off]; [lia|].
    unfold Mem.array. cbn [Mem.base].
    rewrite app_nth2, Nat.sub_diag by lia. cbn [nth].
    rewrite length_app, load_length by (split; assumption). lia.
Qed.

Lemma append_load : Mem.load h' s' = Mem.load h s ++ data.
Proof.
  pose proof (load_length h s V) as LL.
  destruct V as [V1 V2]. unfold Mem.append in *.
  destruct (Nat.leb_spec (Mem.slen s + length data) (Mem.scap s)); cbn [fst snd] in *.
  - unfold Mem.load at 1, Mem.array. cbn [Mem.base Mem.off Mem.slen].
    unfold Mem.poke.
    destruct (Nat.lt_ge_cases (Mem.base s) (length h)) as [Lt|Ge].
    + rewrite nth_upd_list by assumption. rewrite Nat.eqb_refl.
      unfold Mem.load, Mem.array in *.
      set (arr := nth (Mem.base s) h []) in *.
      rewrite skipn_app, length_firstn.
      replace (Mem.off s - Nat.min (Mem.off s + Mem.slen s) (length arr))%nat
        with 0%nat by lia.
      cbn [skipn].
      rewrite skipn_firstn_sub.
      replace (Mem.off s + Mem.slen s - Mem.off s)%nat with (Mem.slen s) by lia.
      rewrite firstn_app, length_firstn, length_skipn.
      replace (Nat.min (Mem.slen s) (length arr - Mem.off s)) with (Mem.slen s) by lia.
      rewrite (firstn_all2 (n := Mem.slen s + length data))
        by (rewrite length_firstn, length_skipn; lia).
      f_equal.
      replace (Mem.slen s + length data - Mem.slen s)%nat with (length data) by lia.
      rewrite firstn_app, Nat.sub_diag, firstn_all. cbn [firstn].
      now rewrite app_nil_r.
    + unfold Mem.array in V2. rewrite (nth_overflow h) in V2 by assumption.
      simpl in V2.
      assert (D : data = []) by (destruct data; [reflexivity | simpl in *; lia]).
      rewrite upd_overflow by assumption.
      rewrite D, app_nil_r. unfold Mem.load, Mem.array.
      f_equal. simpl. lia.
  - unfold Mem.load at 1, Mem.array. cbn [Mem.base Mem.off Mem.slen].
    rewrite app_nth2, Nat.sub_diag by lia. cbn [nth skipn].
    apply firstn_all2. rewrite length_app. lia.
Qed.

Lemma append_base : Mem.base s' = Mem.base s \/ Mem.base s' = length h.
Proof.
  unfold Mem.append.
  destruct (Mem.slen s + length data <=? Mem.scap s)%nat; cbn [fst Mem.base]; auto.
Qed.

Lemma append_slen : Mem.slen s' = (Mem.slen s + length data)%nat.
Proof.
  unfold Mem.append.
  destruct (Mem.slen s + length data <=? Mem.scap s)%nat; reflexivity.
Qed.

End Append.

Lemma load_frame (h h' : Mem.heap) (b : Mem.slice) :
  Mem.valid h b ->
  ((Mem.base b < length h)%nat -> nth (Mem.base b) h' [] = nth (Mem.base b) h []) ->
  Mem.load h' b = Mem.load h b.
Proof.
  intros [V1 V2] F. unfold Mem.load, Mem.array in *.
  destruct (Nat.lt_ge_cases (Mem.base b) (length h)) as [Lt|Ge].
  - now rewrite F.
  - rewrite (nth_overflow h) in V2 by assumption. simpl in V2.
    replace (Mem.slen b) with 0%nat by lia. reflexivity.
Qed.

(** ** pad and final *)

Lemma skipn_repeat_sub {A : Type} (x : A) (n p : nat) :
  skipn p (repeat x n) = repeat x (n - p).
Proof.
  revert p. induction n as [|n IH]; intros [|p]; simpl; auto.
Qed.

Lemma copy_length {A : Type} (dst src : list A) :
  length (copy dst src) = length dst.
Proof.
  unfold copy. rewrite length_app, length_firstn, length_skipn. lia.
Qed.

Lemma copy_zero_nth (n i : nat) (src : list byte) :
  (length src <= n)%nat ->
  nth i (copy (repeat x00 n) src) x00 =
  if (i <? length src)%nat then nth i src x00 else x00.
Proof.
  intros H. unfold copy.
  rewrite repeat_length, firstn_all2, skipn_repeat_sub by assumption.
  destruct (Nat.ltb_spec i (length src)).
  - now rewrite app_nth1.
  - rewrite app_nth2 by assumption. apply nth_repeat.
Qed.

Lemma pad_length (rate : Z) (dom : byte) (pend : list byte) :
  length (Spec.pad rate dom pend) = Z.to_nat rate.
Proof. unfold Spec.pad. now rewrite length_map, length_seq. Qed.

Lemma pad_spec (block : Mem.slice) (k : keccak) (h : Mem.heap) :
  Mem.valid h (buf k) -> Mem.len (buf k) < blockSize k <= Int.max_int ->
  pad block k h = Done (Spec.pad (blockSize k) (domain k) (pending_bytes h k)).
Proof.
  intros V H. unfold pad, pending_bytes.
  rewrite <- (len_load h (buf k) V) in *.
  generalize dependent (Mem.load h (buf k)). intros pend H.
  pose proof (len_nonneg pend) as Hp.
  unfold make.
  replace (0 <=? blockSize k) with true by (symmetry; apply Z.leb_le; lia).
  cbn [bind].
  set (n := Z.to_nat (blockSize k)).
  set (P := copy (repeat x00 n) pend).
  assert (LP : length P = n) by (unfold P; now rewrite copy_length, repeat_length).
  assert (Hn : blockSize k = Z.of_nat n) by (unfold n; lia).
  assert (Hlt : (length pend < n)%nat) by (unfold len in H; lia).
  rewrite store_upd by (unfold len in *; lia). cbn [bind].
  replace (Z.to_nat (len pend)) with (length pend) by (unfold len; lia).
  set (Q := upd P (length pend) (domain k)).
  assert (LQ : length Q = n) by (unfold Q; now rewrite upd_length).
  unfold Int.sub.
  rewrite wrap_small by (unfold len, Int.min_int, Int.max_int in *; lia).
  rewrite (index_nth _ _ x00) by (unfold len; lia). cbn [bind].
  rewrite store_upd by (unfold len; lia).
  f_equal.
  apply nth_ext with (d := x00) (d' := x00).
  - now rewrite upd_length, LQ, pad_length.
  - intros i Hi. rewrite upd_length, LQ in Hi.
    unfold Spec.pad. fold n. rewrite nth_map_seq by assumption.
    replace (Z.to_nat (len Q - 1)) with (n - 1)%nat by (unfold len; lia).
    assert (NQ : forall j, (j < n)%nat ->
               nth j Q x00 = if (j <? length pend)%nat then nth j pend x00
                             else if (j =? length pend)%nat then domain k else x00).
    { intros j Hj. unfold Q. rewrite nth_upd, LP.
      destruct (Nat.eqb_spec j (length pend)) as [->|Ne].
      - replace (length pend <? n)%nat with true by (symmetry; apply Nat.ltb_lt; lia).
        now rewrite Nat.ltb_irrefl.
      - unfold P. rewrite copy_zero_nth by lia.
        destruct (Nat.ltb_spec j (length pend)); reflexivity. }
    rewrite nth_upd, LQ.
    destruct (Nat.eqb_spec i (n - 1)) as [->|Ne].
    + replace (n - 1 <? n)%nat with true by (symmetry; apply Nat.ltb_lt; lia).
      replace (S (n - 1) =? n)%nat with true by (symmetry; apply Nat.eqb_eq; lia).
      rewrite NQ by lia. reflexivity.
    + replace (S i =? n)%nat with false by (symmetry; apply Nat.eqb_neq; lia).
      apply NQ. assumption.
Qed.

Lemma final_spec (k : keccak) (h : Mem.heap) :
  well_formed h k -> final k h = Done (with_state k (finalized h k)).
Proof.
  intros [HS Hr Hb V]. unfold final, finalized.
  rewrite pad_spec by (try assumption; unfold Int.max_int; lia). cbn [bind].
  rewrite absorb_spec; [reflexivity | exact HS | lia | ].
  unfold len. rewrite pad_length. lia.
Qed.

(** ** The stream of blocks *)

Lemma full_blocks_small (rate : Z) (data : list byte) :
  len data < rate -> Spec.full_blocks rate data = 0%nat.
Proof.
  intros H. unfold Spec.full_blocks.
  rewrite Z.div_small by (pose proof (len_nonneg data); lia). reflexivity.
Qed.

Lemma len_skipn {A : Type} (n : Z) (l : list A) :
  0 <= n <= len l -> len (skipn (Z.to_nat n) l) = len l - n.
Proof. unfold len. rewrite length_skipn. lia. Qed.

Lemma len_firstn {A : Type} (n : Z) (l : list A) :
  0 <= n <= len l -> len (firstn (Z.to_nat n) l) = n.
Proof. unfold len. rewrite length_firstn. lia. Qed.

Lemma full_blocks_step (rate : Z) (data : list byte) :
  0 < rate <= len data ->
  Spec.full_blocks rate data
  = S (Spec.full_blocks rate (skipn (Z.to_nat rate) data)).
Proof.
  intros H. unfold Spec.full_blocks.
  rewrite len_skipn by lia.
  replace (len data) with ((len data - rate) + 1 * rate) at 1 by lia.
  rewrite Z.div_add by lia.
  pose proof (Z.div_pos (len data - rate) rate). lia.
Qed.

Lemma absorbed_small (rate : Z) (St : list Z) (data : list byte) :
  len data < rate -> Spec.absorbed rate St data = St.
Proof. intros H. unfold Spec.absorbed. now rewrite full_blocks_small. Qed.

Lemma pending_small (rate : Z) (data : list byte) :
  len data < rate -> Spec.pending rate data = data.
Proof.
  intros H. unfold Spec.pending. rewrite full_blocks_small by assumption.
  now rewrite Nat.mul_0_r.
Qed.

Lemma absorbed_step (rate : Z) (St : list Z) (data : list byte) :
  0 < rate <= len data ->
  Spec.absorbed rate St data
  = Spec.absorbed rate (Spec.absorb rate St (firstn (Z.to_nat rate) data))
                       (skipn (Z.to_nat rate) data).
Proof.
  intros H. unfold Spec.absorbed. now rewrite full_blocks_step.
Qed.

Lemma pending_step (rate : Z) (data : list byte) :
  0 < rate <= len data ->
  Spec.pending rate data = Spec.pending rate (skipn (Z.to_nat rate) data).
Proof.
  intros H. unfold Spec.pending. rewrite (full_blocks_step rate data) by assumption.
  rewrite skipn_skipn. f_equal. lia.
Qed.

Lemma pending_length (rate : Z) (data : list byte) :
  0 < rate -> len (Spec.pending rate data) = len data mod rate.
Proof.
  intros H. unfold Spec.pending, Spec.full_blocks, len.
  rewrite length_skipn. fold (len data).
  pose proof (len_nonneg data).
  pose proof (Z.div_pos (len data) rate).
  pose proof (Z.mul_div_le (len data) rate).
  rewrite Z.mod_eq by lia.
  unfold len in *. nia.
Qed.

Lemma pending_short (rate : Z) (data : list byte) :
  0 < rate -> len (Spec.pending rate data) < rate.
Proof.
  intros H. rewrite pending_length by assumption.
  apply Z.mod_pos_bound. assumption.
Qed.

Lemma absorb_blocks_length (n : nat) (rate : Z) (St : list Z) (data : list byte) :
  length St = 25%nat -> length (Spec.absorb_blocks n rate St data) = 25%nat.
Proof.
  revert St data. induction n as [|n IH]; intros St data HS; simpl.
  - exact HS.
  - apply IH, absorb_length.
Qed.

Lemma absorbed_length (rate : Z) (St : list Z) (data : list byte) :
  length St = 25%nat -> length (Spec.absorbed rate St data) = 25%nat.
Proof. apply absorb_blocks_length. Qed.

(** Absorbing is compositional: the stream [d ++ e] leaves what [e] leaves
    when it comes after the bytes [d] left pending. *)
Lemma stream_app (rate : Z) (n : nat) :
  0 < rate ->
  forall (St : list Z) (d e : list byte),
    (length d <= n)%nat ->
    Spec.absorbed rate St (d ++ e)
    = Spec.absorbed rate (Spec.absorbed rate St d) (Spec.pending rate d ++ e)
    /\ Spec.pending rate (d ++ e) = Spec.pending rate (Spec.pending rate d ++ e).
Proof.
  intros Hr. induction n as [|n IH]; intros St d e Hd.
  - destruct d; [|simpl in Hd; lia].
    rewrite (absorbed_small rate St []), (pending_small rate [])
      by (unfold len; simpl; lia).
    split; reflexivity.
  - destruct (Z.lt_ge_cases (len d) rate) as [L|G].
    + rewrite (absorbed_small rate St d), (pending_small rate d) by assumption.
      split; reflexivity.
    + assert (Hl : (Z.to_nat rate <= length d)%nat) by (unfold len in G; lia).
      rewrite (absorbed_step rate St (d ++ e)), (pending_step rate (d ++ e))
        by (rewrite len_app; pose proof (len_nonneg e); lia).
      rewrite (absorbed_step rate St d), (pending_step rate d) by lia.
      rewrite firstn_app, skipn_app.
      replace (Z.to_nat rate - length d)%nat with 0%nat by lia.
      cbn [firstn skipn]. rewrite app_nil_r.
      apply IH. rewrite length_skipn. lia.
Qed.

(** ** Write *)

Lemma drop_zero (s : Mem.slice) : Mem.drop s 0 = s.
Proof.
  destruct s. unfold Mem.drop. cbn [Mem.base Mem.off Mem.slen Mem.scap].
  f_equal; lia.
Qed.

Lemma full_blocks_fit (rate : Z) (data : list byte) :
  0 < rate -> (Z.to_nat rate * Spec.full_blocks rate data <= length data)%nat.
Proof.
  intros H. unfold Spec.full_blocks.
  pose proof (len_nonneg data). pose proof (Z.div_pos (len data) rate).
  pose proof (Z.mul_div_le (len data) rate). unfold len in *. nia.
Qed.

Lemma Write_loop_spec (fuel : nat) (b : Mem.slice) (k : keccak) (h : Mem.heap) :
  length (state k) = 25%nat -> 0 < blockSize k <= 200 -> Mem.valid h b ->
  (Mem.slen b < fuel)%nat ->
  Write_loop fuel b k h
  = Done (Mem.drop b (Z.to_nat (blockSize k)
                      * Spec.full_blocks (blockSize k) (Mem.load h b)),
          with_state k (Spec.absorbed (blockSize k) (state k) (Mem.load h b))).
Proof.
  revert b k. induction fuel as [|fuel IH]; intros b k HS Hr V Hf; [lia|].
  cbn [Write_loop].
  pose proof (len_load h b V) as Lb. pose proof V as [V1 V2].
  destruct (Z.leb_spec (blockSize k) (Mem.len b)) as [G|L].
  - unfold Mem.len in *.
    rewrite upto_take by lia. cbn [bind].
    rewrite load_take by lia.
    rewrite absorb_spec by (try rewrite len_firstn; try assumption; lia).
    cbn [bind].
    change (blockSize (with_state k _)) with (blockSize k).
    rewrite from_drop by (unfold Mem.len; lia). cbn [bind].
    rewrite IH.
    + change (blockSize (with_state k _)) with (blockSize k).
      unfold with_state; cbn [state blockSize size buf domain].
      rewrite load_drop, drop_drop.
      rewrite (full_blocks_step (blockSize k) (Mem.load h b)) by lia.
      rewrite (absorbed_step (blockSize k) _ (Mem.load h b)) by lia.
      do 3 f_equal. lia.
    + apply absorb_length.
    + assumption.
    + apply valid_drop; [assumption | lia].
    + unfold Mem.drop. cbn [Mem.slen]. lia.
  - rewrite full_blocks_small, absorbed_small by lia.
    rewrite Nat.mul_0_r, drop_zero.
    destruct k; reflexivity.
Qed.

Lemma valid_rest (b : Mem.slice) (rate : Z) (h : Mem.heap) :
  0 < rate -> Mem.valid h b ->
  Mem.valid h (Mem.drop b (Z.to_nat rate * Spec.full_blocks rate (Mem.load h b)))
  /\ Mem.len (Mem.drop b (Z.to_nat rate * Spec.full_blocks rate (Mem.load h b)))
     < rate.
Proof.
  intros Hr V.
  pose proof (full_blocks_fit rate (Mem.load h b) Hr) as F.
  rewrite load_length in F by assumption.
  assert (V' : Mem.valid h
            (Mem.drop b (Z.to_nat rate * Spec.full_blocks rate (Mem.load h b))))
    by (apply valid_drop; assumption).
  split; [exact V'|].
  rewrite <- (len_load h _ V'), load_drop.
  apply (pending_short rate (Mem.load h b) Hr).
Qed.

(** What a call of [Write] does, whatever the slices share: it returns
    [len(b)], the instance is the one [streamed] describes for some [data] of
    as many bytes as were pending and written, and only the array of the
    pending buffer can have changed.  When nothing is pending, or the pending
    buffer and [b] lie in different arrays, [data] is the pending bytes
    followed by the bytes of [b]. *)
Lemma Write_run (b : Mem.slice) (k : keccak) (h : Mem.heap) :
  well_formed h k -> Mem.valid h b ->
  exists k' h' data,
    Write b k h = Done (Mem.len b, k', h')
    /\ streamed k data h' k'
    /\ len data = Mem.len (buf k) + Mem.len b
    /\ well_formed h' k'
    /\ Mem.extends h h'
    /\ (forall a, (a < length h)%nat -> a <> Mem.base (buf k) ->
          nth a h' [] = nth a h [])
    /\ (Mem.slen (buf k) = 0%nat -> h' = h)
    /\ (Mem.slen (buf k) = 0%nat \/ Mem.base (buf k) <> Mem.base b ->
          data = pending_bytes h k ++ Mem.load h b)
    /\ (Mem.base (buf k') = Mem.base b
        \/ (0 < Mem.slen (buf k))%nat
           /\ (Mem.base (buf k') = Mem.base (buf k)
               \/ Mem.base (buf k') = length h)).
Proof.
  intros [HS Hr Hb Vk] V. unfold Write.
  pose proof (len_load h b V) as Lb. pose proof V as [V1 V2].
  destruct (Z.ltb_spec 0 (Mem.len (buf k))) as [P|Z0].
  - (* something is pending *)
    unfold Int.sub.
    rewrite wrap_small by (unfold Int.min_int, Int.max_int, Mem.len in *; lia).
    set (x := if Mem.len b <? blockSize k - Mem.len (buf k)
              then Mem.len b else blockSize k - Mem.len (buf k)).
    assert (Hx : 0 <= x <= Mem.len b /\ x <= blockSize k - Mem.len (buf k)
                 /\ (x = Mem.len b \/ x = blockSize k - Mem.len (buf k)))
      by (unfold x, Mem.len in *;
          destruct (Z.ltb_spec (Z.of_nat (Mem.slen b))
                      (blockSize k - Z.of_nat (Mem.slen (buf k)))); lia).
    clearbody x.
    rewrite upto_take by (unfold Mem.len in *; lia). cbn [bind].
    rewrite load_take by (unfold Mem.len in *; lia).
    set (D := firstn (Z.to_nat x) (Mem.load h b)).
    assert (LD : length D = Z.to_nat x)
      by (unfold D; rewrite length_firstn, load_length by assumption;
          unfold Mem.len in *; lia).
    pose proof (append_load h (buf k) D Vk) as AL.
    pose proof (append_valid h (buf k) D Vk) as AV.
    pose proof (append_extends h (buf k) D Vk) as AE.
    pose proof (append_frame h (buf k) D) as AF.
    pose proof (append_base h (buf k) D) as AB.
    pose proof (append_slen h (buf k) D) as AS.
    destruct (Mem.append (buf k) D h) as [grown h1]. cbn [fst snd] in *.
    rewrite from_drop by lia. cbn [bind].
    cbn [buf with_buf].
    change (blockSize (with_buf k grown)) with (blockSize k).
    assert (Lg : Mem.len grown = Mem.len (buf k) + x) by (unfold Mem.len in *; lia).
    destruct (Z.ltb_spec (Mem.len grown) (blockSize k)) as [Short|Full].
    + (* the buffer is not full yet *)
      cbn [bind].
      exists (with_buf k grown), h1, (Mem.load h (buf k) ++ D).
      assert (Ld : len (Mem.load h (buf k) ++ D) = Mem.len grown)
        by (rewrite <- AL; apply len_load; assumption).
      split; [reflexivity|].
      split.
      { unfold streamed, pending_bytes, with_buf. cbn [state buf size blockSize domain].
        rewrite absorbed_small, pending_small, AL by lia. auto. }
      split; [lia|].
      split; [split; assumption|].
      split; [assumption|].
      split; [assumption|].
      split; [unfold Mem.len in P; lia|].
      split.
      { intros _. unfold pending_bytes, D. f_equal.
        apply firstn_all2. rewrite load_length by assumption.
        unfold Mem.len in *. lia. }
      right. split; [unfold Mem.len in P; lia | exact AB].
    + (* the buffer is full: one block, then the loop *)
      assert (Ex : x = blockSize k - Mem.len (buf k)) by lia.
      assert (Lgl : len (Mem.load h1 grown) = blockSize k)
        by (rewrite len_load by assumption; lia).
      rewrite absorb_spec by (cbn [state with_buf blockSize]; assumption || lia).
      cbn [bind].
      assert (Vd : Mem.valid h1 (Mem.drop b (Z.to_nat x)))
        by (apply (extends_valid h h1); [assumption|];
            apply valid_drop; [assumption | unfold Mem.len in *; lia]).
      rewrite Write_loop_spec; [ | apply absorb_length | simpl; lia | assumption | lia ].
      cbn [bind].
      unfold with_buf, with_state; cbn [state blockSize size domain buf].
      set (b1 := Mem.drop b (Z.to_nat x)) in *.
      set (data := Mem.load h1 grown ++ Mem.load h1 b1).
      assert (F : firstn (Z.to_nat (blockSize k)) data = Mem.load h1 grown).
      { unfold data. rewrite firstn_app.
        replace (Z.to_nat (blockSize k) - length (Mem.load h1 grown))%nat
          with 0%nat by (unfold len in Lgl; lia).
        cbn [firstn]. rewrite app_nil_r.
        apply firstn_all2. unfold len in Lgl. lia. }
      assert (K : skipn (Z.to_nat (blockSize k)) data = Mem.load h1 b1).
      { unfold data. rewrite skipn_app.
        replace (Z.to_nat (blockSize k) - length (Mem.load h1 grown))%nat
          with 0%nat by (unfold len in Lgl; lia).
        rewrite skipn_all2 by (unfold len in Lgl; lia). reflexivity. }
      assert (Ldata : len data = Mem.len (buf k) + Mem.len b).
      { unfold data. rewrite len_app, Lgl, len_load by assumption.
        unfold b1, Mem.drop, Mem.len in *. cbn [Mem.slen]. lia. }
      pose proof (valid_rest b1 (blockSize k) h1 ltac:(lia) Vd) as [Vr Lr].
      eexists _, h1, data.
      split; [reflexivity|].
      split.
      { unfold streamed, pending_bytes. cbn [state buf size blockSize domain].
        rewrite (absorbed_step (blockSize k) (state k) data),
                (pending_step (blockSize k) data)
          by (pose proof (len_nonneg (Mem.load h1 b1)); lia).
        rewrite F, K, load_drop. auto. }
      split; [exact Ldata|].
      split.
      { split; cbn [state buf blockSize]; try assumption.
        apply absorbed_length, absorb_length. }
      split; [assumption|].
      split; [assumption|].
      split; [unfold Mem.len in P; lia|].
      split.
      { intros [E0 | Ne]; [unfold Mem.len in P; lia|].
        unfold data, pending_bytes. rewrite AL, <- app_assoc. f_equal.
        rewrite (load_frame h h1 b1).
        - unfold b1. rewrite load_drop. unfold D. apply firstn_skipn.
        - apply valid_drop; [assumption | unfold Mem.len in *; lia].
        - intros Lt. apply AF; [exact Lt|]. unfold b1. cbn [Mem.drop Mem.base].
          congruence. }
      left. reflexivity.
  - (* nothing is pending *)
    assert (E0 : Mem.slen (buf k) = 0%nat) by (unfold Mem.len in Z0; lia).
    cbn [bind]. rewrite Write_loop_spec by (assumption || lia).
    cbn [bind].
    pose proof (valid_rest b (blockSize k) h ltac:(lia) V) as [Vr Lr].
    eexists _, h, (Mem.load h b).
    split; [reflexivity|].
    split.
    { unfold streamed, pending_bytes, with_buf, with_state.
      cbn [state buf size blockSize domain].
      rewrite load_drop. auto. }
    split; [unfold Mem.len in *; lia|].
    split.
    { split; unfold with_buf, with_state; cbn [state buf blockSize]; try assumption.
      apply absorbed_length. assumption. }
    split; [apply extends_refl|].
    split; [reflexivity|].
    split; [reflexivity|].
    split.
    { intros _. unfold pending_bytes. rewrite (load_empty h (buf k)) by assumption.
      reflexivity. }
    left. reflexivity.
Qed.

(** ** squeeze *)

Lemma le_bytes_length (x : Z) : length (Spec.le_bytes x) = 8%nat.
Proof. reflexivity. Qed.

Lemma serialize_length (St : list Z) :
  length (Spec.serialize St) = (8 * length St)%nat.
Proof.
  unfold Spec.serialize. induction St as [|x St IH]; [reflexivity|].
  cbn [flat_map]. rewrite length_app, le_bytes_length, IH. simpl length. lia.
Qed.

Lemma store_app {A : Type} (p l : list A) (off j : Z) (v : A) :
  off = len p -> 0 <= j < len l ->
  store (p ++ l) (off + j) v = Done (p ++ upd l (Z.to_nat j) v).
Proof.
  intros -> Hj. rewrite store_upd by (rewrite len_app; unfold len in *; lia).
  replace (Z.to_nat (len p + j)) with (length p + Z.to_nat j)%nat by (unfold len; lia).
  now rewrite upd_app_len.
Qed.

Lemma shr_byte (x : Z) (j : nat) :
  (j < 8)%nat ->
  to_byte (shr64 x (8 * Z.of_nat j)) = to_byte (x / 256 ^ Z.of_nat j).
Proof.
  intros H. unfold shr64.
  replace (8 * Z.of_nat j <? 64) with true by (symmetry; apply Z.ltb_lt; lia).
  rewrite Z.shiftr_div_pow2 by lia.
  rewrite Z.pow_mul_r by lia. reflexivity.
Qed.

Lemma putUint64le_spec (b : list byte) (off x : Z) :
  0 <= off -> off + 8 <= len b ->
  putUint64le b off x
  = Done (firstn (Z.to_nat off) b ++ Spec.le_bytes x ++ skipn (Z.to_nat off + 8) b).
Proof.
  intros Ho Hl. unfold putUint64le.
  rewrite slice_from_skipn by lia. cbn [bind].
  assert (Lp : len (firstn (Z.to_nat off) b) = off) by (apply len_firstn; lia).
  assert (Ls : (8 <= length (skipn (Z.to_nat off) b))%nat)
    by (rewrite length_skipn; unfold len in Hl; lia).
  rewrite (Nat.add_comm (Z.to_nat off) 8), <- (skipn_skipn 8 (Z.to_nat off) b).
  rewrite <- (firstn_skipn (Z.to_nat off) b) at 1.
  destruct (skipn (Z.to_nat off) b) as [|a0 [|a1 [|a2 [|a3 [|a4 [|a5 [|a6 [|a7 t]]]]]]]];
    simpl in Ls; try lia.
  set (p := firstn (Z.to_nat off) b) in *.
  rewrite store_app by (unfold len; simpl; lia || auto). cbn [bind Z.to_nat upd].
  rewrite store_app by (unfold len; simpl; lia || auto).
  cbn [bind Z.to_nat upd Pos.to_nat Pos.iter_op Nat.add].
  rewrite store_app by (unfold len; simpl; lia || auto).
  cbn [bind Z.to_nat upd Pos.to_nat Pos.iter_op Nat.add].
  rewrite store_app by (unfold len; simpl; lia || auto).
  cbn [bind Z.to_nat upd Pos.to_nat Pos.iter_op Nat.add].
  rewrite store_app by (unfold len; simpl; lia || auto).
  cbn [bind Z.to_nat upd Pos.to_nat Pos.iter_op Nat.add].
  rewrite store_app by (unfold len; simpl; lia || auto).
  cbn [bind Z.to_nat upd Pos.to_nat Pos.iter_op Nat.add].
  rewrite store_app by (unfold len; simpl; lia || auto).
  cbn [bind Z.to_nat upd Pos.to_nat Pos.iter_op Nat.add].
  rewrite store_app by (unfold len; simpl; lia || auto).
  cbn [bind Z.to_nat upd Pos.to_nat Pos.iter_op Nat.add skipn].
  unfold Spec.le_bytes. cbn [map seq app].
  rewrite <- (shr_byte x 1), <- (shr_byte x 2), <- (shr_byte x 3), <- (shr_byte x 4),
          <- (shr_byte x 5), <- (shr_byte x 6), <- (shr_byte x 7) by lia.
  change (256 ^ Z.of_nat 0) with 1. rewrite Z.div_1_r.
  reflexivity.
Qed.

Lemma firstn_succ_nth {A : Type} (l : list A) (m : nat) (d : A) :
  (m < length l)%nat -> firstn (S m) l = firstn m l ++ [nth m l d].
Proof.
  revert m. induction l as [|h t IH]; intros m H; simpl in H; [lia|].
  destruct m as [|m]; [reflexivity|].
  cbn [firstn nth app]. f_equal. apply IH. lia.
Qed.

Lemma serialize_loop (m : nat) (St : list Z) (scratch : list byte) :
  length St = 25%nat -> (m <= 25)%nat -> length scratch = 200%nat ->
  forM (range (Z.of_nat m))
       (fun i scratch =>
          x <- index St i ;;
          putUint64le scratch (Int.mul i 8) x) scratch
  = Done (Spec.serialize (firstn m St) ++ skipn (8 * m) scratch).
Proof.
  intros HS. induction m as [|m IH]; intros Hm Hl.
  - reflexivity.
  - rewrite range_succ, forM_app, IH by (assumption || lia). cbn [bind forM].
    rewrite (firstn_succ_nth St m 0) by lia.
    rewrite (index_nth _ _ 0) by (unfold len; lia). cbn [bind].
    unfold Int.mul.
    rewrite wrap_small by (unfold Int.min_int, Int.max_int; lia).
    assert (La : length (Spec.serialize (firstn m St)) = (8 * m)%nat)
      by (rewrite serialize_length, length_firstn; lia).
    rewrite putUint64le_spec
      by (try rewrite len_app; unfold len; try rewrite La, length_skipn; lia).
    cbn [bind]. f_equal.
    replace (Z.to_nat (Z.of_nat m * 8)) with (8 * m)%nat by lia.
    rewrite firstn_app, firstn_all2 by lia.
    replace (8 * m - length (Spec.serialize (firstn m St)))%nat with 0%nat by lia.
    cbn [firstn]. rewrite app_nil_r.
    rewrite skipn_app, skipn_all2 by lia.
    replace (8 * m + 8 - length (Spec.serialize (firstn m St)))%nat with 8%nat by lia.
    rewrite skipn_skipn. cbn [app].
    unfold Spec.serialize at 2. rewrite flat_map_app. cbn [flat_map].
    fold (Spec.serialize (firstn m St)).
    rewrite app_nil_r, Nat2Z.id, <- app_assoc.
    do 3 f_equal. lia.
Qed.

Lemma serialize_state (St : list Z) (scratch : list byte) :
  length St = 25%nat -> length scratch = 200%nat ->
  forM (range (len St))
       (fun i scratch =>
          x <- index St i ;;
          putUint64le scratch (Int.mul i 8) x) scratch
  = Done (Spec.serialize St).
Proof.
  intros HS Hl. unfold len. rewrite HS.
  rewrite (serialize_loop 25 St scratch) by (assumption || lia).
  rewrite firstn_all2, skipn_all2 by lia.
  now rewrite app_nil_r.
Qed.

Lemma squeeze_small (rate : Z) (St : list Z) (n : Z) :
  0 < rate -> n <= rate ->
  Spec.squeeze rate St n = firstn (Z.to_nat n) (Spec.serialize St).
Proof.
  intros Hr Hn. unfold Spec.squeeze.
  replace (Z.to_nat ((n - 1) / rate)) with 0%nat; [reflexivity|].
  assert ((n - 1) / rate <= 0); [|lia].
  apply Z.lt_succ_r. apply Z.div_lt_upper_bound; lia.
Qed.

Lemma squeeze_step (rate : Z) (St : list Z) (n : Z) :
  0 < rate < n ->
  Spec.squeeze rate St n
  = firstn (Z.to_nat rate) (Spec.serialize St)
      ++ Spec.squeeze rate (Spec.permute St) (n - rate).
Proof.
  intros H. unfold Spec.squeeze.
  replace (n - 1) with ((n - rate - 1) + 1 * rate) by lia.
  rewrite Z.div_add by lia.
  pose proof (Z.div_pos (n - rate - 1) rate).
  replace (Z.to_nat ((n - rate - 1) / rate + 1))
    with (S (Z.to_nat ((n - rate - 1) / rate))) by lia.
  cbn [Spec.squeeze_blocks]. do 2 f_equal; lia.
Qed.

Lemma squeeze_loop_spec (fuel : nat) (scratch : list byte) (n : Z)
  (b : Mem.slice) (k : keccak) (h : Mem.heap) :
  length (state k) = 25%nat -> length scratch = 200%nat ->
  0 < blockSize k <= 200 -> 0 <= n <= Int.max_int ->
  (Z.to_nat ((n - 1) / blockSize k) < fuel)%nat ->
  Mem.valid h b ->
  exists r k' h',
    squeeze_loop fuel scratch n b k h = Done (r, k', h')
    /\ Mem.load h' r = Mem.load h b ++ Spec.squeeze (blockSize k) (state k) n
    /\ Mem.valid h' r
    /\ Mem.extends h h'
    /\ (forall a, (a < length h)%nat -> a <> Mem.base b ->
          nth a h' [] = nth a h []).
Proof.
  revert scratch n b k h.
  induction fuel as [|fuel IH]; intros scratch n b k h HS Hl Hr Hn Hf V; [lia|].
  cbn [squeeze_loop].
  rewrite serialize_state by assumption. cbn [bind].
  assert (Lser : len (Spec.serialize (state k)) = 200)
    by (unfold len; rewrite serialize_length, HS; reflexivity).
  destruct (Z.leb_spec n (blockSize k)) as [Le|Gt].
  - rewrite slice_to_firstn by lia. cbn [bind].
    set (out := firstn (Z.to_nat n) (Spec.serialize (state k))).
    pose proof (append_load h b out V) as AL.
    pose proof (append_valid h b out V) as AV.
    pose proof (append_extends h b out V) as AE.
    pose proof (append_frame h b out) as AF.
    destruct (Mem.append b out h) as [r h1]. cbn [fst snd] in *.
    exists r, k, h1.
    rewrite squeeze_small by lia.
    split; [reflexivity|]. split; [exact AL|]. split; [exact AV|].
    split; [exact AE | exact AF].
  - rewrite slice_to_firstn by lia. cbn [bind].
    set (out := firstn (Z.to_nat (blockSize k)) (Spec.serialize (state k))).
    pose proof (append_load h b out V) as AL.
    pose proof (append_valid h b out V) as AV.
    pose proof (append_extends h b out V) as AE.
    pose proof (append_frame h b out) as AF.
    pose proof (append_base h b out) as AB.
    destruct (Mem.append b out h) as [b1 h1]. cbn [fst snd] in *.
    rewrite keccakf_permute by assumption. cbn [bind].
    unfold Int.sub.
    rewrite wrap_small by (unfold Int.min_int, Int.max_int in *; lia).
    destruct (IH (Spec.serialize (state k)) (n - blockSize k) b1
                 (with_state k (Spec.permute (state k))) h1)
      as (r & k' & h' & E & L & Vr & Ex & Fr).
    + apply permute_length. assumption.
    + unfold len in Lser. lia.
    + assumption.
    + lia.
    + cbn [blockSize with_state].
      replace (n - 1) with ((n - blockSize k - 1) + 1 * blockSize k) in Hf by lia.
      rewrite Z.div_add in Hf by lia.
      pose proof (Z.div_pos (n - blockSize k - 1) (blockSize k)). lia.
    + assumption.
    + exists r, k', h'. rewrite E.
      split; [reflexivity|].
      split.
      { rewrite L, AL. cbn [blockSize with_state state].
        rewrite (squeeze_step (blockSize k) (state k) n) by lia.
        now rewrite app_assoc. }
      split; [assumption|].
      split; [apply (extends_trans h h1 h'); assumption|].
      intros a Ha Ne. destruct AE as [AE1 AE2].
      rewrite Fr; [apply AF; assumption | lia | ].
      destruct AB as [-> | ->]; [assumption | lia].
Qed.

Lemma squeeze_spec (b : Mem.slice) (k : keccak) (h : Mem.heap) :
  length (state k) = 25%nat -> 0 < blockSize k <= 200 ->
  0 <= size k <= Int.max_int -> Mem.valid h b ->
  exists r k' h',
    squeeze b k h = Done (r, k', h')
    /\ Mem.load h' r
       = Mem.load h b ++ Spec.squeeze (blockSize k) (state k) (size k)
    /\ Mem.valid h' r
    /\ Mem.extends h h'
    /\ (forall a, (a < length h)%nat -> a <> Mem.base b ->
          nth a h' [] = nth a h []).
Proof.
  intros HS Hr Hn V. unfold squeeze, len. rewrite HS.
  change (make (Int.mul 8 (Z.of_nat 25))) with (Done (repeat x00 200)).
  cbn [bind].
  apply squeeze_loop_spec; try assumption; [reflexivity|].
  assert ((size k - 1) / blockSize k < size k + 1); [|lia].
  apply Z.div_lt_upper_bound; nia.
Qed.

Lemma squeeze_loop_extends (fuel : nat) (scratch : list byte) (n : Z)
  (b r : Mem.slice) (k k' : keccak) (h h' : Mem.heap) :
  Mem.valid h b ->
  squeeze_loop fuel scratch n b k h = Done (r, k', h') -> Mem.extends h h'.
Proof.
  revert scratch n b k h.
  induction fuel as [|fuel IH]; intros scratch n b k h V E; [discriminate E|].
  cbn [squeeze_loop] in E.
  destruct (forM _ _ scratch) as [sc| |]; cbn [bind] in E; try discriminate.
  destruct (n <=? blockSize k).
  - destruct (slice_to sc n) as [out| |]; cbn [bind] in E; try discriminate.
    pose proof (append_extends h b out V) as AE.
    destruct (Mem.append b out h) as [b1 h1]. cbn [snd] in AE.
    injection E as _ _ <-. assumption.
  - destruct (slice_to sc (blockSize k)) as [out| |]; cbn [bind] in E;
      try discriminate.
    pose proof (append_extends h b out V) as AE.
    pose proof (append_valid h b out V) as AV.
    destruct (Mem.append b out h) as [b1 h1]. cbn [fst snd] in *.
    destruct (keccakf (state k)) as [St| |]; cbn [bind] in E; try discriminate.
    apply (extends_trans h h1 h'); [assumption|].
    apply (IH _ _ _ _ _ AV E).
Qed.

Lemma squeeze_length_bounded (rate : Z) (j : nat) :
  0 < rate <= 200 ->
  forall (St : list Z) (n : Z),
    length St = 25%nat -> 0 <= n <= rate * Z.of_nat (S j) ->
    len (Spec.squeeze rate St n) = n.
Proof.
  intros Hr. induction j as [|j IH]; intros St n HS Hn.
  - rewrite squeeze_small by lia.
    unfold len. rewrite length_firstn, serialize_length, HS. lia.
  - destruct (Z.le_gt_cases n rate) as [Le|Gt].
    + rewrite squeeze_small by lia.
      unfold len. rewrite length_firstn, serialize_length, HS. lia.
    + rewrite squeeze_step, len_app by lia.
      rewrite IH by (try apply permute_length; try assumption; lia).
      unfold len. rewrite length_firstn, serialize_length, HS. lia.
Qed.

Lemma squeeze_length (rate : Z) (St : list Z) (n : Z) :
  length St = 25%nat -> 0 < rate <= 200 -> 0 <= n ->
  len (Spec.squeeze rate St n) = n.
Proof.
  intros HS Hr Hn.
  apply (squeeze_length_bounded rate (Z.to_nat n)); try assumption. nia.
Qed.

Lemma squeeze_prefix_bounded (rate : Z) (j : nat) :
  0 < rate <= 200 ->
  forall (St : list Z) (n m : Z),
    length St = 25%nat -> 0 <= n <= m -> n <= rate * Z.of_nat (S j) ->
    firstn (Z.to_nat n) (Spec.squeeze rate St m) = Spec.squeeze rate St n.
Proof.
  intros Hr.
  assert (Small : forall St n m, length St = 25%nat -> 0 <= n <= m -> n <= rate ->
            firstn (Z.to_nat n) (Spec.squeeze rate St m) = Spec.squeeze rate St n).
  { intros St n m HS Hn Le.
    rewrite (squeeze_small rate St n) by lia.
    destruct (Z.le_gt_cases m rate) as [Lm|Gm].
    - rewrite squeeze_small by lia. rewrite firstn_firstn. f_equal. lia.
    - rewrite squeeze_step by lia.
      rewrite firstn_app, length_firstn, serialize_length, HS.
      replace (Z.to_nat n - Nat.min (Z.to_nat rate) (8 * 25))%nat with 0%nat by lia.
      cbn [firstn]. rewrite app_nil_r, firstn_firstn. f_equal. lia. }
  induction j as [|j IH]; intros St n m HS Hn Hb.
  - apply Small; try assumption. lia.
  - destruct (Z.le_gt_cases n rate) as [Le|Gt].
    + apply Small; assumption.
    + rewrite (squeeze_step rate St n), (squeeze_step rate St m) by lia.
      rewrite firstn_app, length_firstn, serialize_length, HS.
      rewrite firstn_all2 by (rewrite length_firstn, serialize_length, HS; lia).
      f_equal.
      replace (Z.to_nat n - Nat.min (Z.to_nat rate) (8 * 25))%nat
        with (Z.to_nat (n - rate)) by lia.
      apply IH; [apply permute_length; assumption | lia | lia].
Qed.

Lemma squeeze_prefix (rate : Z) (St : list Z) (n m : Z) :
  length St = 25%nat -> 0 < rate <= 200 -> 0 <= n <= m ->
  firstn (Z.to_nat n) (Spec.squeeze rate St m) = Spec.squeeze rate St n.
Proof.
  intros HS Hr Hn.
  apply (squeeze_prefix_bounded rate (Z.to_nat n)); try assumption. nia.
Qed.

(** ** Sum, Reset and the instances in use *)

(** What a call of [Sum] does: the receiver is as it was, the result holds
    the bytes of [extra] followed by the digest, and only the array of [extra]
    can have changed. *)
Lemma Sum_run (extra : Mem.slice) (k : keccak) (h : Mem.heap) :
  well_formed h k -> 0 <= size k <= Int.max_int -> Mem.valid h extra ->
  exists r h',
    Sum extra k h = Done (r, k, h')
    /\ Mem.load h' r
       = Mem.load h extra ++ Spec.squeeze (blockSize k) (finalized h k) (size k)
    /\ Mem.valid h' r
    /\ Mem.extends h h'
    /\ (forall a, (a < length h)%nat -> a <> Mem.base extra ->
          nth a h' [] = nth a h []).
Proof.
  intros W Hn V. unfold Sum.
  rewrite final_spec by assumption. cbn [bind].
  destruct W as [HS Hr Hb Vk].
  destruct (squeeze_spec extra (with_state k (finalized h k)) h)
    as (r & k' & h' & E & L & Vr & Ex & Fr); try assumption.
  - unfold finalized, Spec.finalize. apply absorb_length.
  - rewrite E. cbn [bind]. exists r, h'.
    split; [reflexivity|]. split; [exact L|]. split; [exact Vr|].
    split; [exact Ex | exact Fr].
Qed.

Lemma Sum_receiver (extra out : Mem.slice) (k k' : keccak) (h h' : Mem.heap) :
  Sum extra k h = Done (out, k', h') -> k' = k.
Proof.
  unfold Sum. destruct (final k h) as [k1| |]; cbn [bind]; try discriminate.
  destruct (squeeze extra k1 h) as [[[o k2] h2]| |]; cbn [bind]; try discriminate.
  intros H. now injection H.
Qed.

Lemma Sum_extends (extra out : Mem.slice) (k k' : keccak) (h h' : Mem.heap) :
  Mem.valid h extra -> Sum extra k h = Done (out, k', h') -> Mem.extends h h'.
Proof.
  intros V. unfold Sum, squeeze.
  destruct (final k h) as [k1| |]; cbn [bind]; try discriminate.
  destruct (make _) as [sc| |]; cbn [bind]; try discriminate.
  destruct (squeeze_loop _ sc (size k1) extra k1 h) as [[[o k2] h2]| |] eqn:Q;
    cbn [bind]; try discriminate.
  intros H. injection H as _ _ <-.
  apply (squeeze_loop_extends _ _ _ _ _ _ _ _ _ V Q).
Qed.

Lemma Reset_spec (k : keccak) :
  length (state k) = 25%nat ->
  Reset k = Done (with_buf (with_state k (repeat 0 25)) Mem.nil).
Proof.
  intros HS. unfold Reset. destruct k as [St sz bs bf dm]. cbn [state] in *.
  do 25 (destruct St as [|? St]; [discriminate HS|]).
  destruct St; [|discriminate HS].
  reflexivity.
Qed.

Lemma constructed_well_formed (h : Mem.heap) (k : keccak) :
  constructed k -> well_formed h k.
Proof.
  intros C. destruct C; split; try reflexivity; try apply valid_nil;
    unfold NewSHAKE128, NewSHAKE256, newKeccak; cbn [blockSize buf];
    vm_compute; split; congruence.
Qed.

Lemma extends_well_formed (h h' : Mem.heap) (k : keccak) :
  Mem.extends h h' -> well_formed h k -> well_formed h' k.
Proof.
  intros E [HS Hr Hb V]. split; try assumption.
  apply (extends_valid h h'); assumption.
Qed.

Lemma reachable_well_formed (h : Mem.heap) (k : keccak) :
  reachable h k -> well_formed h k.
Proof.
  induction 1 as [h k C | h h' k _ IH E | h h' k k' b n _ IH V E
                 | h k k' _ IH E | h h' k k' b out _ IH V E].
  - apply constructed_well_formed. assumption.
  - apply (extends_well_formed h h'); assumption.
  - destruct (Write_run b k h IH V) as (k1 & h1 & data & E1 & _ & _ & W & _).
    rewrite E1 in E. injection E as _ <- <-. assumption.
  - destruct IH as [HS Hr Hb Vk].
    rewrite Reset_spec in E by assumption. injection E as <-.
    split; unfold with_buf, with_state; cbn [state blockSize buf];
      [reflexivity | assumption | unfold Mem.len; simpl; lia | apply valid_nil].
  - pose proof (Sum_receiver _ _ _ _ _ _ E) as ->.
    apply (extends_well_formed h h'); [|assumption].
    apply (Sum_extends b out k k h h' V E).
Qed.

(** ** Lanes stay 64-bit words *)

Lemma word_bits (a : Z) :
  0 <= a -> (a < 2 ^ 64 <-> forall i, 64 <= i -> Z.testbit a i = false).
Proof.
  intros Ha. split.
  - intros Hlt i Hi.
    rewrite <- (Z.mod_small a (2 ^ 64)) by lia.
    apply Z.mod_pow2_bits_high. lia.
  - intros Hb.
    assert (E : a = a mod 2 ^ 64).
    { apply Z.bits_inj'. intros i Hi.
      destruct (Z.lt_ge_cases i 64).
      - now rewrite Z.mod_pow2_bits_low.
      - rewrite Z.mod_pow2_bits_high by lia. apply Hb. assumption. }
    rewrite E. apply Z.mod_pos_bound. lia.
Qed.

Lemma xor64_word (a b : Z) : is_word a -> is_word b -> is_word (xor64 a b).
Proof.
  unfold is_word, xor64. intros [A0 A1] [B0 B1].
  assert (N : 0 <= Z.lxor a b) by (apply Z.lxor_nonneg; lia).
  split; [assumption|].
  apply word_bits; [assumption|]. intros i Hi.
  rewrite Z.lxor_spec.
  rewrite (proj1 (word_bits a A0) A1 i Hi), (proj1 (word_bits b B0) B1 i Hi).
  reflexivity.
Qed.

Lemma and64_word (a b : Z) : is_word a -> is_word b -> is_word (and64 a b).
Proof.
  unfold is_word, and64. intros [A0 A1] [B0 B1].
  assert (N : 0 <= Z.land a b) by (apply Z.land_nonneg; lia).
  split; [assumption|].
  apply word_bits; [assumption|]. intros i Hi.
  rewrite Z.land_spec.
  rewrite (proj1 (word_bits a A0) A1 i Hi). reflexivity.
Qed.

Lemma or64_word (a b : Z) : is_word a -> is_word b -> is_word (or64 a b).
Proof.
  unfold is_word, or64. intros [A0 A1] [B0 B1].
  assert (N : 0 <= Z.lor a b) by (apply Z.lor_nonneg; lia).
  split; [assumption|].
  apply word_bits; [assumption|]. intros i Hi.
  rewrite Z.lor_spec.
  rewrite (proj1 (word_bits a A0) A1 i Hi), (proj1 (word_bits b B0) B1 i Hi).
  reflexivity.
Qed.

Lemma not64_word (a : Z) : is_word a -> is_word (not64 a).
Proof.
  intros H. unfold not64. apply (xor64_word (2 ^ 64 - 1) a); [|assumption].
  unfold is_word. lia.
Qed.

Lemma shl64_word (x n : Z) : is_word (shl64 x n).
Proof.
  unfold shl64, is_word. destruct (n <? 64).
  - apply Z.mod_pos_bound. lia.
  - lia.
Qed.

Lemma shr64_word (x n : Z) : is_word x -> 0 <= n -> is_word (shr64 x n).
Proof.
  unfold shr64, is_word. intros [X0 X1] Hn. destruct (n <? 64); [|lia].
  rewrite Z.shiftr_div_pow2 by assumption.
  assert (0 < 2 ^ n) by (apply Z.pow_pos_nonneg; lia).
  split.
  - apply Z.div_pos; lia.
  - apply Z.div_lt_upper_bound; nia.
Qed.

Lemma rotl64_word (x n : Z) : is_word x -> is_word (rotl64 x n).
Proof.
  intros H. unfold rotl64. apply or64_word.
  - apply shl64_word.
  - apply shr64_word; [assumption|].
    unfold UInt.sub, UInt.wrap. apply Z.mod_pos_bound. lia.
Qed.

Lemma lane_word (St : list Z) (i : nat) :
  Forall is_word St -> is_word (Spec.lane St i).
Proof.
  intros H. unfold Spec.lane.
  destruct (Nat.lt_ge_cases i (length St)) as [L|G].
  - apply Forall_forall with (x := nth i St 0) in H; [assumption|].
    apply nth_In. assumption.
  - rewrite nth_overflow by assumption. unfold is_word. lia.
Qed.

#[local] Hint Resolve xor64_word and64_word or64_word not64_word rotl64_word
  lane_word : words.

Lemma roundConstants_words : Forall is_word roundConstants.
Proof.
  unfold roundConstants, is_word.
  repeat (constructor; [lia|]). constructor.
Qed.

Lemma round_words (r : nat) (St : list Z) :
  Forall is_word St -> Forall is_word (Spec.round r St).
Proof.
  intros H.
  assert (T : Forall is_word (Spec.theta St)).
  { unfold Spec.theta, Spec.parity. apply Forall_map, Forall_forall.
    intros i _. auto 12 with words. }
  assert (R : Forall is_word (Spec.rho_pi (Spec.theta St))).
  { unfold Spec.rho_pi. apply Forall_map, Forall_forall. intros i _.
    destruct (Spec.step_of i Spec.lane_cycle 0); auto with words. }
  assert (C : Forall is_word (Spec.chi (Spec.rho_pi (Spec.theta St)))).
  { unfold Spec.chi. apply Forall_map, Forall_forall. intros i _.
    auto with words. }
  unfold Spec.round, Spec.iota.
  set (X := Spec.chi (Spec.rho_pi (Spec.theta St))) in *.
  apply Forall_forall. intros x Hx.
  apply In_nth with (d := 0) in Hx. destruct Hx as (j & Hj & <-).
  rewrite nth_upd. rewrite upd_length in Hj.
  destruct (Nat.eqb j 0).
  - replace (0 <? length X)%nat with true by (symmetry; apply Nat.ltb_lt; lia).
    apply xor64_word; [auto with words|].
    apply (lane_word roundConstants r roundConstants_words).
  - apply (lane_word X j C).
Qed.

Lemma permute_words (St : list Z) :
  Forall is_word St -> Forall is_word (Spec.permute St).
Proof.
  unfold Spec.permute. generalize (seq 0 24). intros rs. revert St.
  induction rs as [|r rs IH]; intros St H; simpl.
  - assumption.
  - apply IH, round_words, H.
Qed.

(** ** Streams of chunks in separate arrays *)

Lemma streamed_compose (k k1 k2 : keccak) (d e : list byte) (h1 h2 : Mem.heap) :
  0 < blockSize k ->
  streamed k d h1 k1 -> streamed k1 (pending_bytes h1 k1 ++ e) h2 k2 ->
  streamed k (d ++ e) h2 k2.
Proof.
  intros Hr (S1 & P1 & Z1 & B1 & D1) (S2 & P2 & Z2 & B2 & D2).
  destruct (stream_app (blockSize k) (length d) Hr (state k) d e (le_n _))
    as [E1 E2].
  unfold streamed. rewrite S2, P2, Z2, B2, D2, B1, S1, P1, E1, E2. auto.
Qed.

Lemma streamed_nothing (k : keccak) (h : Mem.heap) :
  well_formed h k -> streamed k (pending_bytes h k) h k.
Proof.
  intros [HS Hr Hb V]. unfold streamed, pending_bytes.
  rewrite absorbed_small, pending_small by (rewrite len_load; assumption).
  auto.
Qed.

(** When every chunk lies in an array of its own, and none in the array of
    the pending buffer, one [Write] per chunk streams the pending bytes
    followed by the chunks. *)
Lemma Write_all_separate (chunks : list Mem.slice) :
  forall (k : keccak) (h : Mem.heap),
    well_formed h k ->
    Forall (fun c => Mem.valid h c /\ (Mem.base c < length h)%nat) chunks ->
    NoDup (map Mem.base chunks) ->
    (Mem.slen (buf k) = 0%nat \/ ~ In (Mem.base (buf k)) (map Mem.base chunks)) ->
    exists k' h',
      Write_all chunks k h = Done (k', h')
      /\ streamed k (pending_bytes h k ++ concat (map (Mem.load h) chunks)) h' k'
      /\ well_formed h' k'
      /\ Mem.extends h h'.
Proof.
  induction chunks as [|c rest IH]; intros k h W F ND Sep.
  - exists k, h. cbn [Write_all map concat]. rewrite app_nil_r.
    split; [reflexivity|]. split; [apply streamed_nothing; assumption|].
    split; [assumption | apply extends_refl].
  - inversion F as [|? ? [Vc Bc] Fr]; subst.
    inversion ND as [|? ? Nin ND']; subst.
    destruct (Write_run c k h W Vc)
      as (k1 & h1 & data & E & S1 & Ld & W1 & Ex & Fr1 & H0 & Dsep & Pos).
    assert (Dd : data = pending_bytes h k ++ Mem.load h c).
    { apply Dsep. destruct Sep as [Z0|NI]; [left; assumption|].
      right. intros Eq. apply NI. left. symmetry. exact Eq. }
    assert (Same : forall c', In c' rest -> Mem.load h1 c' = Mem.load h c').
    { intros c' Hc.
      destruct (Nat.eq_dec (Mem.slen (buf k)) 0) as [Z0|NZ].
      - now rewrite (H0 Z0).
      - pose proof (proj1 (Forall_forall _ _) Fr c' Hc) as [Vc' Bc'].
        apply load_frame; [assumption|].
        intros Lt. apply Fr1; [assumption|].
        destruct Sep as [Z0|NI]; [contradiction|].
        intros Eq. apply NI. right. rewrite <- Eq. apply in_map. assumption. }
    destruct (IH k1 h1) as (k' & h' & E' & S' & W' & Ex').
    + assumption.
    + apply Forall_forall. intros c' Hc.
      pose proof (proj1 (Forall_forall _ _) Fr c' Hc) as [Vc' Bc'].
      split; [apply (extends_valid h h1); assumption|].
      destruct Ex as [Ex1 _]. lia.
    + assumption.
    + destruct (Nat.eq_dec (Mem.slen (buf k1)) 0) as [Z1|NZ1]; [left; assumption|].
      right. intros In1.
      destruct Pos as [Pc | [Pk [Pb | Pn]]].
      * apply Nin. rewrite <- Pc. assumption.
      * destruct Sep as [Z0|NI]; [lia|].
        apply NI. right. rewrite <- Pb. assumption.
      * apply in_map_iff in In1. destruct In1 as (c' & Eb & Hc).
        pose proof (proj1 (Forall_forall _ _) Fr c' Hc) as [_ Bc']. lia.
    + exists k', h'. cbn [Write_all]. rewrite E. cbn [bind].
      split; [exact E'|].
      split.
      { cbn [map concat]. rewrite app_assoc, <- Dd.
        rewrite (map_ext_in _ _ rest (fun c' Hc => eq_sym (Same c' Hc))).
        apply (streamed_compose k k1 k' _ _ h1 h'); [|assumption|assumption].
        destruct W as [_ Hr _ _]. lia. }
      split; [assumption|].
      apply (extends_trans h h1 h'); assumption.
Qed.

(** [Sum] leaves the pending bytes alone when [extra] lies in another array
    than the pending buffer. *)
Lemma Sum_keeps_pending (extra : Mem.slice) (k : keccak) (h : Mem.heap) :
  well_formed h k -> 0 <= size k <= Int.max_int -> Mem.valid h extra ->
  Mem.slen (buf k) = 0%nat \/ Mem.base (buf k) <> Mem.base extra ->
  exists r h',
    Sum extra k h = Done (r, k, h')
    /\ Mem.load h' r
       = Mem.load h extra ++ Spec.squeeze (blockSize k) (finalized h k) (size k)
    /\ pending_bytes h' k = pending_bytes h k
    /\ finalized h' k = finalized h k
    /\ well_formed h' k.
Proof.
  intros W Hn V Sep.
  destruct (Sum_run extra k h W Hn V) as (r & h' & E & L & Vr & Ex & Fr).
  assert (P : pending_bytes h' k = pending_bytes h k).
  { unfold pending_bytes. destruct Sep as [Z0|Ne].
    - now rewrite !load_empty.
    - apply load_frame; [apply W|]. intros Lt. apply Fr; assumption. }
  exists r, h'. split; [exact E|]. split; [exact L|]. split; [exact P|].
  split; [unfold finalized; now rewrite P|].
  apply (extends_well_formed h h'); assumption.
Qed.

Lemma digest_spec (k : keccak) (msg : Mem.slice) (h : Mem.heap) :
  well_formed h k -> Mem.slen (buf k) = 0%nat -> 0 <= size k <= Int.max_int ->
  Mem.valid h msg ->
  digest k msg h
  = Done (Spec.squeeze (blockSize k)
            (Spec.finalize (blockSize k) (domain k)
               (Spec.absorbed (blockSize k) (state k) (Mem.load h msg))
               (Spec.pending (blockSize k) (Mem.load h msg)))
            (size k)).
Proof.
  intros W Z0 Hn V. unfold digest.
  destruct (Write_run msg k h W V)
    as (k1 & h1 & data & E & (S1 & P1 & Z1 & B1 & D1) & _ & W1 & _ & _ & H0 & Dsep & _).
  rewrite E. cbn [bind].
  rewrite (Dsep (or_introl Z0)) in *.
  unfold pending_bytes in Dsep, S1, P1. rewrite (load_empty h (buf k) Z0) in *.
  cbn [app] in *.
  destruct (Sum_run Mem.nil k1 h1 W1 ltac:(lia) (valid_nil h1))
    as (r & h2 & E2 & L2 & _).
  rewrite E2. cbn [bind]. rewrite L2.
  unfold finalized, pending_bytes. rewrite S1, P1, Z1, B1, D1.
  reflexivity.
Qed.

(** * The claims *)

(** Claim C1.  On every state of 25 lanes the table-driven [keccakf] returns
    (it cannot panic), and the state it leaves is the one 24 rounds of theta,
    rho+pi, chi and iota produce, the rounds being those of [Spec]: column
    parities [parity[c]] XORed as [parity[(c+4) mod 5] XOR
    rotl(parity[(c+1) mod 5], 1)] into the five lanes of column [c]; the
    24-step lane cycle with the rotation amounts 1, 3, 6, ..., 44, lane 0
    untouched; chi on each row from the row as it was; the round constant
    XORed into lane 0.  The result has 25 lanes again, and they are 64-bit
    words when the input lanes are. *)
Theorem keccakf_is_24_rounds (St : list Z) :
  length St = 25%nat ->
  Looped.keccakf St = Done (Spec.permute St)
  /\ Spec.permute St
     = fold_left
         (fun T r => Spec.iota r (Spec.chi (Spec.rho_pi (Spec.theta T))))
         (seq 0 24) St
  /\ length (Spec.permute St) = 25%nat
  /\ (Forall is_word St -> Forall is_word (Spec.permute St))
  /\ (forall T, Spec.lane (Spec.rho_pi T) 0 = Spec.lane T 0)
  /\ rotationConstants
     = [1; 3; 6; 10; 15; 21; 28; 36; 45; 55; 2; 14;
        27; 41; 56; 8; 25; 43; 62; 18; 39; 61; 20; 44]
  /\ Spec.rotation_amounts = rotationConstants.
Proof.
  intros HS.
  split; [apply Looped_keccakf_permute; assumption|].
  split; [reflexivity|].
  split; [apply permute_length; assumption|].
  split; [apply permute_words|].
  split; [reflexivity|].
  split; reflexivity.
Qed.

Lemma keccakf_is_24_rounds_witness :
  length (repeat 0 25) = 25%nat
  /\ Looped.keccakf (repeat 0 25) = Done (Spec.permute (repeat 0 25)).
Proof.
  split; [reflexivity|].
  apply (keccakf_is_24_rounds (repeat 0 25)). reflexivity.
Defined.

(** Claim C10.  On every state of 25 lanes the unrolled [keccakf] and the
    table-driven [keccakf] return the same state. *)
Theorem keccakf_unrolled_is_looped (St : list Z) :
  length St = 25%nat ->
  Unrolled.keccakf St = Looped.keccakf St
  /\ exists St', Looped.keccakf St = Done St' /\ length St' = 25%nat.
Proof.
  intros HS.
  rewrite Unrolled_keccakf_permute, Looped_keccakf_permute by assumption.
  split; [reflexivity|].
  exists (Spec.permute St). split; [reflexivity|].
  apply permute_length. assumption.
Qed.

Lemma keccakf_unrolled_is_looped_witness :
  length (repeat 1 25) = 25%nat
  /\ Unrolled.keccakf (repeat 1 25) = Looped.keccakf (repeat 1 25).
Proof.
  split; [reflexivity|].
  apply (keccakf_unrolled_is_looped (repeat 1 25)). reflexivity.
Defined.

(** Claim C2.  With [p] pending bytes, [p < rate], [pad] returns a block of
    [rate] bytes: the pending bytes, the domain byte at offset [p], zero bytes
    after it, and 0x80 ORed into the last byte.  When [p = rate - 1] the last
    byte is the domain byte ORed with 0x80. *)
Theorem pad_builds_final_block (block : Mem.slice) (k : keccak) (h : Mem.heap) :
  Mem.valid h (buf k) -> Mem.len (buf k) < blockSize k <= Int.max_int ->
  exists padded,
    pad block k h = Done padded
    /\ len padded = blockSize k
    /\ padded = Spec.pad (blockSize k) (domain k) (pending_bytes h k)
    /\ (forall i, (i < length padded)%nat ->
          nth i padded x00 =
          let b := if (i <? Mem.slen (buf k))%nat then nth i (pending_bytes h k) x00
                   else if (i =? Mem.slen (buf k))%nat then domain k else x00 in
          if (S i =? length padded)%nat then or8 b x80 else b)
    /\ (Mem.len (buf k) = blockSize k - 1 ->
          nth (Mem.slen (buf k)) padded x00 = or8 (domain k) x80).
Proof.
  intros V H.
  assert (Lp : length (pending_bytes h k) = Mem.slen (buf k))
    by (apply load_length; assumption).
  exists (Spec.pad (blockSize k) (domain k) (pending_bytes h k)).
  assert (L : length (Spec.pad (blockSize k) (domain k) (pending_bytes h k))
              = Z.to_nat (blockSize k)) by apply pad_length.
  assert (N : forall i, (i < Z.to_nat (blockSize k))%nat ->
            nth i (Spec.pad (blockSize k) (domain k) (pending_bytes h k)) x00 =
            let b := if (i <? Mem.slen (buf k))%nat
                     then nth i (pending_bytes h k) x00
                     else if (i =? Mem.slen (buf k))%nat then domain k else x00 in
            if (S i =? Z.to_nat (blockSize k))%nat then or8 b x80 else b).
  { intros i Hi. unfold Spec.pad. rewrite nth_map_seq by assumption.
    now rewrite Lp. }
  split; [apply pad_spec; assumption|].
  split; [unfold len; rewrite L; unfold Mem.len in H; lia|].
  split; [reflexivity|].
  split.
  - intros i Hi. rewrite L in *. apply N. assumption.
  - intros E. rewrite N by (unfold Mem.len in *; lia). cbn zeta.
    rewrite Nat.ltb_irrefl, Nat.eqb_refl.
    replace (S (Mem.slen (buf k)) =? Z.to_nat (blockSize k))%nat with true
      by (symmetry; apply Nat.eqb_eq; unfold Mem.len in *; lia).
    reflexivity.
Qed.

Lemma pad_builds_final_block_witness :
  let h := [repeat x61 135] in
  let k := with_buf NewSHA3256 (whole 0 135) in
  Mem.valid h (buf k)
  /\ Mem.len (buf k) < blockSize k <= Int.max_int
  /\ exists padded, pad Mem.nil k h = Done padded /\ len padded = blockSize k.
Proof.
  assert (V : Mem.valid [repeat x61 135] (buf (with_buf NewSHA3256 (whole 0 135))))
    by (split; simpl; lia).
  assert (H : Mem.len (buf (with_buf NewSHA3256 (whole 0 135)))
              < blockSize (with_buf NewSHA3256 (whole 0 135)) <= Int.max_int)
    by (vm_compute; split; congruence).
  split; [exact V|]. split; [exact H|].
  destruct (pad_builds_final_block Mem.nil (with_buf NewSHA3256 (whole 0 135))
              [repeat x61 135] V H) as (padded & E & L & _).
  exists padded. split; assumption.
Defined.

(** Claim C3, as it stands, fails for instances of negative size, which the
    SHAKE constructors make when the bit count [n*8] overflows [int]:
    [NewSHAKE128(1<<60)] computes [n*8 = -2^63] and has size [-2^60]; [Sum]
    on it panics when [squeeze] slices its scratch buffer, so no bytes are
    returned. *)
Lemma Sum_fails_on_negative_size :
  let k := NewSHAKE128 (2 ^ 60) in
  reachable [] k /\ well_formed [] k /\ Mem.valid [] Mem.nil
  /\ Size k = - 2 ^ 60
  /\ Sum Mem.nil k [] = Panic slice_out_of_range
  /\ ~ (exists r h' out,
          Sum Mem.nil k [] = Done (r, k, h')
          /\ Mem.load h' r = Mem.load [] Mem.nil ++ out
          /\ len out = size k).
Proof.
  assert (P : Sum Mem.nil (NewSHAKE128 (2 ^ 60)) [] = Panic slice_out_of_range)
    by (vm_compute; reflexivity).
  cbv zeta.
  split; [apply reach_new; constructor|].
  split; [apply constructed_well_formed; constructor|].
  split; [apply valid_nil|].
  split; [vm_compute; reflexivity|].
  split; [exact P|].
  intros (r & h' & out & E & _). rewrite P in E. discriminate E.
Qed.

(** Claim C3, amended.  On a well-formed instance whose [size] is not
    negative (every instance of the fixed-size constructors, and of the SHAKE
    constructors for [0 <= n < 2^60]), [Sum(extra)] returns the bytes of
    [extra] followed by exactly [size] bytes, and these are what the squeeze
    loop of the description gives on the finalized state: the 25 lanes
    serialized little-endian, 8 bytes a lane, 200 bytes in all; when the [n]
    bytes still wanted satisfy [n <= rate], the first [n] serialized bytes
    and nothing more; otherwise the first [rate] bytes, and then the same
    for [n - rate] on the permuted state. *)
Theorem Sum_appends_squeezed_bytes (extra : Mem.slice) (k : keccak) (h : Mem.heap) :
  well_formed h k -> 0 <= size k <= Int.max_int -> Mem.valid h extra ->
  exists r h' out,
    Sum extra k h = Done (r, k, h')
    /\ Mem.load h' r = Mem.load h extra ++ out
    /\ len out = size k
    /\ out = Spec.squeeze (blockSize k) (finalized h k) (size k)
    /\ (forall St n, n <= blockSize k ->
          Spec.squeeze (blockSize k) St n
          = firstn (Z.to_nat n) (Spec.serialize St))
    /\ (forall St n, blockSize k < n ->
          Spec.squeeze (blockSize k) St n
          = firstn (Z.to_nat (blockSize k)) (Spec.serialize St)
              ++ Spec.squeeze (blockSize k) (Spec.permute St) (n - blockSize k))
    /\ (forall St, length St = 25%nat -> length (Spec.serialize St) = 200%nat)
    /\ (forall St i j, (j < 8)%nat ->
          nth (8 * i + j) (Spec.serialize St) x00
          = if (i <? length St)%nat
            then to_byte (Z.shiftr (Spec.lane St i) (8 * Z.of_nat j))
            else x00).
Proof.
  intros W Hn V. pose proof W as [HS Hr Hb Vk].
  destruct (Sum_run extra k h W Hn V) as (r & h' & E & L & _).
  exists r, h', (Spec.squeeze (blockSize k) (finalized h k) (size k)).
  split; [exact E|]. split; [exact L|].
  unfold finalized, Spec.finalize.
  split; [apply squeeze_length; [apply absorb_length | lia | lia]|].
  split; [reflexivity|].
  split; [intros; apply squeeze_small; lia|].
  split; [intros; apply squeeze_step; lia|].
  split; [intros St H; rewrite serialize_length, H; reflexivity|].
  intros St i j Hj. revert i.
  induction St as [|x St IH]; intros i.
  - simpl. now destruct (_ + j)%nat.
  - unfold Spec.serialize. cbn [flat_map]. fold (Spec.serialize St).
    destruct i as [|i].
    + rewrite app_nth1 by (rewrite le_bytes_length; lia).
      cbn [Nat.mul Nat.add length Nat.ltb Nat.leb Spec.lane nth].
      unfold Spec.le_bytes. rewrite nth_map_seq by assumption.
      rewrite Z.shiftr_div_pow2, Z.pow_mul_r by lia. reflexivity.
    + rewrite app_nth2 by (rewrite le_bytes_length; lia).
      rewrite le_bytes_length.
      replace (8 * S i + j - 8)%nat with (8 * i + j)%nat by lia.
      rewrite IH. cbn [length Spec.lane nth].
      change (S i <? S (length St))%nat with (i <? length St)%nat.
      reflexivity.
Qed.

Lemma Sum_appends_squeezed_bytes_witness :
  well_formed [[x01]] NewSHA3256
  /\ 0 <= size NewSHA3256 <= Int.max_int
  /\ Mem.valid [[x01]] (whole 0 1)
  /\ exists r h' out,
       Sum (whole 0 1) NewSHA3256 [[x01]] = Done (r, NewSHA3256, h')
       /\ Mem.load h' r = [x01] ++ out /\ len out = 32.
Proof.
  assert (W : well_formed [[x01]] NewSHA3256)
    by (apply constructed_well_formed; constructor).
  assert (Hn : 0 <= size NewSHA3256 <= Int.max_int) by (vm_compute; split; congruence).
  assert (V : Mem.valid [[x01]] (whole 0 1)) by (split; simpl; lia).
  split; [exact W|]. split; [exact Hn|]. split; [exact V|].
  destruct (Sum_appends_squeezed_bytes (whole 0 1) NewSHA3256 [[x01]] W Hn V)
    as (r & h' & out & E & L & Lo & _).
  exists r, h', out. split; [exact E|]. split; [exact L | exact Lo].
Defined.

(** Claim C4, at an input where the code departs from it.  The sequence
    1 2 9 3 4 is written as three chunks, [data[0:2]], [other] and
    [data[2:4]], with [data = {1, 2, 3, 4}] and [other = {9}].  The first
    [Write] keeps [data[0:2]] itself as pending buffer; the second appends
    [other] to it in place, which overwrites [data[2]]; the third therefore
    reads 9 4.  The pending bytes end as 1 2 9 9 4 and the digest differs from
    that of one [Write] of 1 2 9 3 4. *)
Theorem Write_chunks_clobber_input :
  let h := [[x01; x02; x03; x04]; [x09]; [x01; x02; x09; x03; x04]] in
  let c1 := Mem.take (whole 0 4) 2 in
  let c2 := whole 1 1 in
  let c3 := Mem.drop (whole 0 4) 2 in
  let m := whole 2 5 in
  Mem.load h c1 ++ Mem.load h c2 ++ Mem.load h c3 = Mem.load h m
  /\ holds ('(k, h') <- Write_all [c1; c2; c3] New256 h ;;
            Done (pending_bytes h' k = [x01; x02; x09; x09; x04]
                  /\ nth 0 h' [] = [x01; x02; x09; x04]))
  /\ holds ('(_, k, h') <- Write m New256 h ;;
            Done (pending_bytes h' k = [x01; x02; x09; x03; x04] /\ h' = h))
  /\ holds ('(k1, h1) <- Write_all [c1; c2; c3] New256 h ;;
            '(r1, _, h1') <- Sum Mem.nil k1 h1 ;;
            '(_, k2, h2) <- Write m New256 h ;;
            '(r2, _, h2') <- Sum Mem.nil k2 h2 ;;
            Done (Mem.load h1' r1 <> Mem.load h2' r2)).
Proof.
  vm_compute.
  split; [reflexivity|]. split; [split; reflexivity|].
  split; [split; reflexivity|].
  intros H. discriminate H.
Qed.

(** Claim C5, at an input where the code departs from it.  One byte of a
    40-byte array is written, then [Sum] is asked to append the digest to the
    empty prefix of the same array.  The pending buffer is that byte of the
    array, so the digest lands on it: the pending byte has changed, and a
    second [Sum] returns other bytes than the first. *)
Theorem Sum_clobbers_pending :
  let h := [x61 :: repeat x00 39] in
  let data := whole 0 40 in
  holds ('(_, k, h1) <- Write (Mem.take data 1) NewSHA3256 h ;;
         '(r1, k1, h2) <- Sum (Mem.take data 0) k h1 ;;
         '(r2, k2, h3) <- Sum Mem.nil k1 h2 ;;
         Done (k1 = k /\ k2 = k
               /\ pending_bytes h1 k = [x61]
               /\ pending_bytes h2 k <> [x61]
               /\ Mem.load h2 r1 <> Mem.load h3 r2)).
Proof.
  vm_compute.
  split; [reflexivity|]. split; [reflexivity|]. split; [reflexivity|].
  split; intros H; discriminate H.
Qed.

(** Claim C6.  The SHA-3 constructors pass a capacity of twice the digest
    bits, which makes the block sizes 144, 136, 104 and 72 bytes
    ([200 - capacity/8]); the sizes are 28, 32, 48 and 64 bytes and the
    domain byte is 0x06. *)
Theorem SHA3_constructor_parameters :
  (NewSHA3224 = newKeccak (2 * 224) 224 x06
   /\ BlockSize NewSHA3224 = 200 - (2 * 224) / 8
   /\ BlockSize NewSHA3224 = 144 /\ Size NewSHA3224 = 28
   /\ domain NewSHA3224 = x06)
  /\ (NewSHA3256 = newKeccak (2 * 256) 256 x06
      /\ BlockSize NewSHA3256 = 200 - (2 * 256) / 8
      /\ BlockSize NewSHA3256 = 136 /\ Size NewSHA3256 = 32
      /\ domain NewSHA3256 = x06)
  /\ (NewSHA3384 = newKeccak (2 * 384) 384 x06
      /\ BlockSize NewSHA3384 = 200 - (2 * 384) / 8
      /\ BlockSize NewSHA3384 = 104 /\ Size NewSHA3384 = 48
      /\ domain NewSHA3384 = x06)
  /\ (NewSHA3512 = newKeccak (2 * 512) 512 x06
      /\ BlockSize NewSHA3512 = 200 - (2 * 512) / 8
      /\ BlockSize NewSHA3512 = 72 /\ Size NewSHA3512 = 64
      /\ domain NewSHA3512 = x06).
Proof.
  repeat split; reflexivity.
Qed.

(** Claim C7.  In every instance a client can hold (fresh from a constructor,
    or after any sequence of [Write], [Reset] and [Sum] calls and of writes of
    the client to its arrays) fewer than [blockSize] bytes are pending.  On
    such an instance [Write] never fails and reports all its input as
    consumed; it absorbs [(p + len b) / rate] full blocks, [p] being the
    number of pending bytes, one block at a time, and keeps the remaining
    [(p + len b) mod rate] bytes pending. *)
Theorem pending_stays_below_rate (h : Mem.heap) (k : keccak) :
  reachable h k ->
  Mem.len (buf k) < blockSize k
  /\ (forall b, Mem.valid h b ->
        exists k' h' data,
          Write b k h = Done (Mem.len b, k', h')
          /\ len data = Mem.len (buf k) + Mem.len b
          /\ state k' = Spec.absorbed (blockSize k) (state k) data
          /\ Spec.full_blocks (blockSize k) data
             = Z.to_nat ((Mem.len (buf k) + Mem.len b) / blockSize k)
          /\ pending_bytes h' k' = Spec.pending (blockSize k) data
          /\ Mem.len (buf k') = (Mem.len (buf k) + Mem.len b) mod blockSize k
          /\ blockSize k' = blockSize k
          /\ Mem.len (buf k') < blockSize k'
          /\ (Mem.slen (buf k) = 0%nat \/ Mem.base (buf k) <> Mem.base b ->
                data = pending_bytes h k ++ Mem.load h b))
  /\ (exists k', Reset k = Done k' /\ Mem.len (buf k') < blockSize k')
  /\ (forall extra out k' h',
        Sum extra k h = Done (out, k', h') -> Mem.len (buf k') < blockSize k').
Proof.
  intros R. pose proof (reachable_well_formed h k R) as W.
  pose proof W as [HS Hr Hb Vk].
  split; [assumption|].
  split; [|split].
  - intros b V.
    destruct (Write_run b k h W V)
      as (k' & h' & data & E & (S1 & P1 & Z1 & B1 & D1) & Ld & W' & _ & _ & _ & Dsep & _).
    exists k', h', data.
    split; [exact E|]. split; [exact Ld|]. split; [exact S1|].
    split; [unfold Spec.full_blocks; now rewrite Ld|].
    split; [exact P1|].
    split.
    { destruct W' as [_ _ _ V']. rewrite <- (len_load h' (buf k') V').
      fold (pending_bytes h' k'). rewrite P1, pending_length, Ld by lia.
      reflexivity. }
    split; [exact B1|].
    split; [apply W'|exact Dsep].
  - exists (with_buf (with_state k (repeat 0 25)) Mem.nil).
    split; [apply Reset_spec; assumption|].
    unfold with_buf, with_state, Mem.len. cbn [buf blockSize Mem.nil Mem.slen]. lia.
  - intros extra out k' h' E. apply Sum_receiver in E. now subst.
Qed.

Lemma pending_stays_below_rate_witness :
  reachable [repeat x61 300] NewSHA3384
  /\ Mem.len (buf NewSHA3384) < blockSize NewSHA3384
  /\ exists k' h', Write (whole 0 300) NewSHA3384 [repeat x61 300] = Done (300, k', h')
                   /\ Mem.len (buf k') < blockSize k'.
Proof.
  assert (R : reachable [repeat x61 300] NewSHA3384) by (apply reach_new; constructor).
  split; [exact R|].
  destruct (pending_stays_below_rate [repeat x61 300] NewSHA3384 R) as (H & Wr & _).
  split; [exact H|].
  assert (V : Mem.valid [repeat x61 300] (whole 0 300)) by (split; simpl; lia).
  destruct (Wr (whole 0 300) V) as (k' & h' & data & E & _ & _ & _ & _ & _ & _ & L & _).
  exists k', h'. split; [exact E | exact L].
Defined.

(** Claim C8.  [absorb] panics exactly when the block is not [blockSize]
    bytes long.  On a block of [blockSize] bytes it returns, having XORed the
    [rate/8] little-endian words of the block into lanes 0 .. rate/8 - 1 and
    run the permutation once.  [final] hands it a block of [blockSize] bytes,
    and neither [final] nor [Write] panics. *)
Theorem absorb_panics_iff_wrong_length (block : list byte) (k : keccak)
  (h : Mem.heap) :
  well_formed h k ->
  ((exists msg, absorb block k = Panic msg) <-> len block <> blockSize k)
  /\ (len block <> blockSize k -> absorb block k = Panic absorb_panic)
  /\ (len block = blockSize k ->
        absorb block k
        = Done (with_state k
                  (Spec.permute (Spec.xor_block (blockSize k) (state k) block))))
  /\ (forall i, (i < 25)%nat ->
        nth i (Spec.xor_block (blockSize k) (state k) block) 0
        = if Z.of_nat i <? blockSize k / 8
          then xor64 (Spec.lane (state k) i) (Spec.le_word (skipn (8 * i) block))
          else Spec.lane (state k) i)
  /\ (exists last,
        pad (buf k) k h = Done last /\ len last = blockSize k
        /\ final k h = absorb last k
        /\ final k h = Done (with_state k (finalized h k)))
  /\ (forall b, Mem.valid h b ->
        exists k' h', Write b k h = Done (Mem.len b, k', h')).
Proof.
  intros W. pose proof W as [HS Hr Hb Vk].
  assert (Bad : len block <> blockSize k -> absorb block k = Panic absorb_panic).
  { intros Ne. unfold absorb.
    replace (len block =? blockSize k) with false
      by (symmetry; apply Z.eqb_neq; assumption).
    reflexivity. }
  assert (Good : len block = blockSize k ->
            absorb block k
            = Done (with_state k (Spec.absorb (blockSize k) (state k) block))).
  { intros E. apply absorb_spec; [assumption | lia | assumption]. }
  split; [split|].
  - intros (msg & E). intros L. rewrite (Good L) in E. discriminate E.
  - intros Ne. exists absorb_panic. apply Bad. assumption.
  - split; [exact Bad|].
    split; [exact Good|].
    split; [intros i Hi; apply xor_block_nth; assumption|].
    split.
    + exists (Spec.pad (blockSize k) (domain k) (pending_bytes h k)).
      assert (P : pad (buf k) k h
                  = Done (Spec.pad (blockSize k) (domain k) (pending_bytes h k)))
        by (apply pad_spec; [assumption | unfold Int.max_int; lia]).
      split; [exact P|].
      split; [unfold len; rewrite pad_length; lia|].
      split; [unfold final; rewrite P; reflexivity|].
      apply final_spec. assumption.
    + intros b V.
      destruct (Write_run b k h W V) as (k' & h' & data & E & _).
      exists k', h'. exact E.
Qed.

Lemma absorb_panics_iff_wrong_length_witness :
  well_formed [] NewSHA3512
  /\ absorb [x00] NewSHA3512 = Panic absorb_panic
  /\ exists k', absorb (repeat x00 72) NewSHA3512 = Done k'.
Proof.
  assert (W : well_formed [] NewSHA3512) by (apply constructed_well_formed; constructor).
  split; [exact W|]. split.
  - apply (absorb_panics_iff_wrong_length [x00] NewSHA3512 [] W). vm_compute. congruence.
  - eexists. apply (absorb_panics_iff_wrong_length (repeat x00 72) NewSHA3512 [] W).
    reflexivity.
Defined.

(** ** Output lengths of the SHAKE instances *)

Lemma shake_size (n : Z) :
  0 <= n < 2 ^ 60 -> Int.quo (Int.mul n 8) 8 = n.
Proof.
  intros H. unfold Int.mul.
  rewrite wrap_small by (unfold Int.min_int, Int.max_int; lia).
  rewrite quo_small by (unfold Int.max_int; lia).
  apply Z.div_mul. lia.
Qed.

Lemma newKeccak_prefix (c : Z) (d : byte) (h : Mem.heap) (msg : Mem.slice) (n : Z) :
  0 < Int.sub 200 (Int.quo c 8) <= 200 -> Mem.valid h msg -> 0 <= n < 2 ^ 59 ->
  prefix_property (fun m => newKeccak c (Int.mul m 8) d) h msg n.
Proof.
  intros Hr V Hn. unfold prefix_property.
  set (rate := Int.sub 200 (Int.quo c 8)) in *.
  assert (W : forall m, well_formed h (newKeccak c (Int.mul m 8) d)).
  { intros m. split; [reflexivity | exact Hr | unfold Mem.len; simpl; lia
                      | apply valid_nil]. }
  assert (Sz : forall m, 0 <= m < 2 ^ 60 -> size (newKeccak c (Int.mul m 8) d) = m).
  { intros m Hm. apply shake_size. assumption. }
  set (F := Spec.finalize rate d (Spec.absorbed rate (repeat 0 25) (Mem.load h msg))
              (Spec.pending rate (Mem.load h msg))).
  assert (D : forall m, 0 <= m < 2 ^ 60 ->
            digest (newKeccak c (Int.mul m 8) d) msg h = Done (Spec.squeeze rate F m)).
  { intros m Hm.
    rewrite digest_spec;
      [ | apply W | reflexivity | rewrite Sz; unfold Int.max_int; lia | assumption].
    rewrite Sz by assumption. reflexivity. }
  exists (Spec.squeeze rate F n), (Spec.squeeze rate F (2 * n)).
  split; [apply D; lia|].
  split; [apply D; lia|].
  symmetry. apply squeeze_prefix; [apply absorb_length | assumption | lia].
Qed.

(** Claim C9, as it stands, fails for output lengths whose bit count
    overflows [int]: [NewSHAKE128(1<<61 + 1)] computes [n*8 = 8] and yields one
    byte, [NewSHAKE128(1<<62 + 2)] yields two, and the first [1<<61 + 1] bytes
    of two bytes are both of them. *)
Lemma SHAKE_prefix_fails_on_overflow :
  0 <= 2 ^ 61 + 1 /\ ~ prefix_property NewSHAKE128 [] Mem.nil (2 ^ 61 + 1).
Proof.
  split; [lia|].
  intros (d1 & d2 & H1 & H2 & E).
  assert (L1 : exists a, digest (NewSHAKE128 (2 ^ 61 + 1)) Mem.nil [] = Done [a])
    by (vm_compute; eexists; reflexivity).
  assert (L2 : exists a b,
            digest (NewSHAKE128 (2 * (2 ^ 61 + 1))) Mem.nil [] = Done [a; b])
    by (vm_compute; do 2 eexists; reflexivity).
  destruct L1 as (a & L1). destruct L2 as (a' & b' & L2).
  rewrite L1 in H1. rewrite L2 in H2.
  injection H1 as <-. injection H2 as <-.
  rewrite firstn_all2 in E by (simpl length; lia).
  discriminate E.
Qed.

(** Claim C9, amended.  For every message and every output length [n] with
    [0 <= n < 2^59] (so that the bit count of [2n] fits an [int]), the digest
    of a SHAKE instance made for [n] bytes is the first [n] bytes of the
    digest of the instance of the same family made for [2n] bytes. *)
Theorem SHAKE_output_is_prefix (h : Mem.heap) (msg : Mem.slice) (n : Z) :
  Mem.valid h msg -> 0 <= n < 2 ^ 59 ->
  prefix_property NewSHAKE128 h msg n /\ prefix_property NewSHAKE256 h msg n.
Proof.
  intros V Hn. split.
  - apply (newKeccak_prefix (128 * 2) domainSHAKE h msg n); [|assumption|assumption].
    vm_compute. split; congruence.
  - apply (newKeccak_prefix (256 * 2) domainSHAKE h msg n); [|assumption|assumption].
    vm_compute. split; congruence.
Qed.

Lemma SHAKE_output_is_prefix_witness :
  Mem.valid [[x61]] (whole 0 1) /\ 0 <= 16 < 2 ^ 59
  /\ prefix_property NewSHAKE128 [[x61]] (whole 0 1) 16.
Proof.
  assert (V : Mem.valid [[x61]] (whole 0 1)) by (split; simpl; lia).
  assert (H : 0 <= 16 < 2 ^ 59) by lia.
  split; [exact V|]. split; [exact H|].
  apply (SHAKE_output_is_prefix [[x61]] (whole 0 1) 16 V H).
Defined.
(** * Further properties of the package *)

(** ** rotl64 *)

Lemma word_high_bits (x i : Z) : is_word x -> 64 <= i -> Z.testbit x i = false.
Proof.
  intros [H0 H1] Hi. apply (proj1 (word_bits x H0) H1). assumption.
Qed.

Lemma rotl64_bit (x n i : Z) :
  is_word x -> 0 <= n <= 64 -> 0 <= i < 64 ->
  Z.testbit (rotl64 x n) i = Z.testbit x ((i - n) mod 64).
Proof.
  intros Hx Hn Hi. unfold rotl64, or64, shl64, shr64, UInt.sub, UInt.wrap.
  rewrite Z.lor_spec.
  destruct (Z.eq_dec n 0) as [->|N0].
  - (* x << 0 | x >> 64 *)
    change ((64 - 0) mod 2 ^ 64) with 64. cbn [Z.ltb Z.compare Pos.compare Pos.compare_cont].
    rewrite Z.shiftl_0_r, Z.mod_small by exact Hx.
    rewrite Z.testbit_0_l, orb_false_r, Z.sub_0_r, Z.mod_small by lia. reflexivity.
  - rewrite (Z.mod_small (64 - n)) by lia.
    destruct (Z.ltb_spec n 64) as [Lt|Ge].
    + replace (64 - n <? 64) with true by (symmetry; apply Z.ltb_lt; lia).
      rewrite Z.mod_pow2_bits_low by lia.
      rewrite Z.shiftl_spec, Z.shiftr_spec by lia.
      destruct (Z.lt_ge_cases i n) as [Lo|Hi'].
      * rewrite (Z.testbit_neg_r x (i - n)) by lia. cbn [orb].
        f_equal. replace (i - n) with (i + (64 - n) + (-1) * 64) by lia.
        rewrite Z.mod_add, Z.mod_small by lia. reflexivity.
      * rewrite (word_high_bits x (i + (64 - n))) by (assumption || lia).
        rewrite orb_false_r, Z.mod_small by lia. reflexivity.
    + replace n with 64 by lia. cbn [Z.sub Z.add Z.opp Z.pos_sub Z.ltb Z.compare
                                       Pos.compare Pos.compare_cont orb].
      change (64 - 64) with 0.
      rewrite Z.testbit_0_l, Z.shiftr_0_r. cbn [orb].
      f_equal. replace (i - 64) with (i + (-1) * 64) by lia.
      rewrite Z.mod_add, Z.mod_small by lia. reflexivity.
Qed.

(** Property X1.  For a count [n] between 0 and 64, [rotl64 x n] is the
    rotation of the 64-bit word [x] to the left by [n] bits: a 64-bit word
    whose bit [i] is bit [(i - n) mod 64] of [x].  Counts 0 and 64 give [x]
    back. *)
Theorem rotl64_rotates_bits (x n : Z) :
  is_word x -> 0 <= n <= 64 ->
  is_word (rotl64 x n)
  /\ (forall i, 0 <= i < 64 ->
        Z.testbit (rotl64 x n) i = Z.testbit x ((i - n) mod 64))
  /\ (n = 0 \/ n = 64 -> rotl64 x n = x).
Proof.
  intros Hx Hn.
  assert (W : is_word (rotl64 x n)) by (apply rotl64_word; assumption).
  split; [exact W|]. split; [intros i Hi; apply rotl64_bit; assumption|].
  intros E. apply Z.bits_inj'. intros i Hi.
  destruct (Z.lt_ge_cases i 64) as [Lt|Ge].
  - rewrite rotl64_bit by (assumption || lia). f_equal.
    destruct E as [-> | ->].
    + rewrite Z.sub_0_r. apply Z.mod_small. lia.
    + replace (i - 64) with (i + (-1) * 64) by lia.
      rewrite Z.mod_add by lia. apply Z.mod_small. lia.
  - rewrite !word_high_bits by assumption. reflexivity.
Qed.

Lemma rotl64_rotates_bits_witness :
  is_word 0x8000000000000001 /\ 0 <= 1 <= 64
  /\ Z.testbit (rotl64 0x8000000000000001 1) 0 = true.
Proof.
  assert (Hx : is_word 0x8000000000000001) by (unfold is_word; lia).
  assert (Hn : 0 <= 1 <= 64) by lia.
  split; [exact Hx|]. split; [exact Hn|].
  destruct (rotl64_rotates_bits 0x8000000000000001 1 Hx Hn) as (_ & B & _).
  rewrite B by lia. reflexivity.
Defined.

(** Property X2.  Rotating left by [n] and then by [64 - n] gives the word
    back; this is how a rotation to the right is had from [rotl64]. *)
Theorem rotl64_undone_by_complement (x n : Z) :
  is_word x -> 0 <= n <= 64 -> rotl64 (rotl64 x n) (64 - n) = x.
Proof.
  intros Hx Hn.
  assert (W : is_word (rotl64 x n)) by (apply rotl64_word; assumption).
  apply Z.bits_inj'. intros i Hi.
  destruct (Z.lt_ge_cases i 64) as [Lt|Ge].
  - rewrite rotl64_bit by (assumption || lia).
    rewrite rotl64_bit by (assumption || lia || apply Z.mod_pos_bound; lia).
    f_equal. rewrite Zminus_mod_idemp_l.
    replace (i - (64 - n) - n) with (i + (-1) * 64) by lia.
    rewrite Z.mod_add by lia. apply Z.mod_small. lia.
  - rewrite word_high_bits, (word_high_bits x) by (try apply rotl64_word; assumption).
    reflexivity.
Qed.

Lemma rotl64_undone_by_complement_witness :
  is_word 0x0123456789ABCDEF /\ 0 <= 21 <= 64
  /\ rotl64 (rotl64 0x0123456789ABCDEF 21) (64 - 21) = 0x0123456789ABCDEF.
Proof.
  assert (Hx : is_word 0x0123456789ABCDEF) by (unfold is_word; lia).
  assert (Hn : 0 <= 21 <= 64) by lia.
  split; [exact Hx|]. split; [exact Hn|].
  apply (rotl64_undone_by_complement 0x0123456789ABCDEF 21 Hx Hn).
Defined.

(** Property X3.  Above 64 the count is no rotation any more: both shifts of
    [rotl64] have a count of 64 or more ([64 - n] wraps around as a [uint]),
    and the result is 0 whatever the word. *)
Theorem rotl64_count_above_64 (x n : Z) :
  64 < n < 2 ^ 64 -> rotl64 x n = 0.
Proof.
  intros Hn. unfold rotl64, or64, shl64, shr64, UInt.sub, UInt.wrap.
  replace (n <? 64) with false by (symmetry; apply Z.ltb_ge; lia).
  replace ((64 - n) mod 2 ^ 64) with (2 ^ 64 + 64 - n).
  - replace (2 ^ 64 + 64 - n <? 64) with false by (symmetry; apply Z.ltb_ge; lia).
    reflexivity.
  - replace (64 - n) with (2 ^ 64 + 64 - n + (-1) * 2 ^ 64) by lia.
    rewrite Z.mod_add by lia. symmetry. apply Z.mod_small. lia.
Qed.

Lemma rotl64_count_above_64_witness :
  64 < 65 < 2 ^ 64 /\ rotl64 1 65 = 0.
Proof.
  assert (Hn : 64 < 65 < 2 ^ 64) by lia.
  split; [exact Hn|]. apply (rotl64_count_above_64 1 65 Hn).
Defined.

(** ** Little-endian words *)

Lemma le_value_digits (x : Z) (n s : nat) :
  fold_right (fun b acc => byte_val b + 256 * acc) 0
    (map (fun j => to_byte (x / 256 ^ Z.of_nat j)) (seq s n))
  = (x / 256 ^ Z.of_nat s) mod 256 ^ Z.of_nat n.
Proof.
  revert s. induction n as [|n IH]; intros s.
  - cbn [seq map fold_right]. change (256 ^ Z.of_nat 0) with 1.
    now rewrite Z.mod_1_r.
  - cbn [seq map fold_right]. rewrite IH, byte_val_to_byte.
    rewrite (Nat2Z.inj_succ n), (Z.pow_succ_r 256 (Z.of_nat n)) by lia.
    rewrite Z.rem_mul_r by lia. f_equal. f_equal. f_equal.
    rewrite (Nat2Z.inj_succ s), Z.pow_succ_r by lia.
    rewrite (Z.mul_comm 256), Z.div_div by lia. reflexivity.
Qed.

Lemma le_word_le_bytes (x : Z) (t : list byte) :
  is_word x -> Spec.le_word (Spec.le_bytes x ++ t) = x.
Proof.
  intros Hx. unfold Spec.le_word.
  rewrite firstn_app, le_bytes_length, Nat.sub_diag.
  change (firstn 0 t) with (@nil byte).
  rewrite app_nil_r, firstn_all2 by (rewrite le_bytes_length; lia).
  unfold Spec.le_bytes. rewrite le_value_digits.
  change (256 ^ Z.of_nat 0) with 1. rewrite Z.div_1_r.
  apply Z.mod_small. exact Hx.
Qed.

Lemma le_value_range (l : list byte) :
  0 <= fold_right (fun b acc => byte_val b + 256 * acc) 0 l
    < 256 ^ Z.of_nat (length l).
Proof.
  induction l as [|b l IH].
  - cbn. lia.
  - cbn [fold_right length]. rewrite Nat2Z.inj_succ, Z.pow_succ_r by lia.
    pose proof (byte_val_range b). lia.
Qed.

Lemma le_word_is_word (v : list byte) : is_word (Spec.le_word v).
Proof.
  unfold Spec.le_word, is_word.
  pose proof (le_value_range (firstn 8 v)) as R.
  assert (L : (length (firstn 8 v) <= 8)%nat) by (rewrite length_firstn; lia).
  assert (256 ^ Z.of_nat (length (firstn 8 v)) <= 256 ^ 8)
    by (apply Z.pow_le_mono_r; lia).
  change (2 ^ 64) with (256 ^ 8). lia.
Qed.

Lemma le_value_nth (l : list byte) (j : nat) :
  (j < length l)%nat ->
  to_byte (fold_right (fun b acc => byte_val b + 256 * acc) 0 l / 256 ^ Z.of_nat j)
  = nth j l x00.
Proof.
  revert j. induction l as [|b l IH]; intros j Hj; [simpl in Hj; lia|].
  cbn [fold_right]. pose proof (byte_val_range b).
  set (V := fold_right _ 0 l) in *.
  destruct j as [|j].
  - change (256 ^ Z.of_nat 0) with 1. rewrite Z.div_1_r. cbn [nth].
    rewrite <- (to_byte_byte_val b) at 2.
    unfold to_byte. rewrite Z.mul_comm, Z.mod_add by lia. reflexivity.
  - rewrite Nat2Z.inj_succ, Z.pow_succ_r, <- Z.div_div by lia.
    replace ((byte_val b + 256 * V) / 256) with V
      by (rewrite Z.mul_comm, Z.div_add, Z.div_small by lia; reflexivity).
    cbn [nth]. apply IH. simpl in Hj. lia.
Qed.

Lemma le_bytes_le_word (v : list byte) :
  (8 <= length v)%nat -> Spec.le_bytes (Spec.le_word v) = firstn 8 v.
Proof.
  intros H. unfold Spec.le_bytes, Spec.le_word.
  assert (L : length (firstn 8 v) = 8%nat) by (rewrite length_firstn; lia).
  apply (nth_ext _ _ x00 x00); [now rewrite length_map, length_seq, L|].
  intros j Hj. rewrite length_map, length_seq in Hj.
  rewrite nth_map_seq by assumption. cbn [Nat.add].
  apply le_value_nth. lia.
Qed.

(** Property X4.  A word written by [putUint64le] at an offset of a buffer
    is the word [uint64le] reads there; the eight bytes at the offset are the
    only ones the write changes. *)
Theorem putUint64le_then_uint64le (b : list byte) (off x : Z) :
  is_word x -> 0 <= off -> off + 8 <= len b ->
  exists b' v,
    putUint64le b off x = Done b'
    /\ slice_from b' off = Done v
    /\ uint64le v = Done x
    /\ length b' = length b
    /\ (forall i, (i < Z.to_nat off \/ Z.to_nat off + 8 <= i)%nat ->
          nth i b' x00 = nth i b x00).
Proof.
  intros Hx Ho Hl.
  set (b' := firstn (Z.to_nat off) b ++ Spec.le_bytes x ++ skipn (Z.to_nat off + 8) b).
  assert (Lp : length (firstn (Z.to_nat off) b) = Z.to_nat off)
    by (rewrite length_firstn; unfold len in Hl; lia).
  assert (Lb : length b' = length b).
  { unfold b'. rewrite !length_app, Lp, le_bytes_length, length_skipn.
    unfold len in Hl. lia. }
  exists b', (Spec.le_bytes x ++ skipn (Z.to_nat off + 8) b).
  split; [apply putUint64le_spec; assumption|].
  split.
  { rewrite slice_from_skipn by (unfold len in *; lia).
    unfold b'. rewrite skipn_app, Lp, Nat.sub_diag.
    rewrite skipn_all2 by lia. reflexivity. }
  split.
  { rewrite uint64le_le_word by (rewrite length_app, le_bytes_length; lia).
    now rewrite le_word_le_bytes. }
  split; [exact Lb|].
  intros i [Lo|Hi]; unfold b'.
  - rewrite app_nth1 by lia. rewrite nth_firstn.
    replace (i <? Z.to_nat off)%nat with true by (symmetry; apply Nat.ltb_lt; lia).
    reflexivity.
  - rewrite app_nth2 by lia. rewrite app_nth2 by (rewrite le_bytes_length; lia).
    rewrite nth_skipn, Lp, le_bytes_length. f_equal. lia.
Qed.

Lemma putUint64le_then_uint64le_witness :
  is_word 0x0102030405060708 /\ 0 <= 8 /\ 8 + 8 <= len (repeat x00 24)
  /\ exists b' v,
       putUint64le (repeat x00 24) 8 0x0102030405060708 = Done b'
       /\ slice_from b' 8 = Done v /\ uint64le v = Done 0x0102030405060708.
Proof.
  assert (Hx : is_word 0x0102030405060708) by (unfold is_word; lia).
  assert (Ho : 0 <= 8) by lia.
  assert (Hl : 8 + 8 <= len (repeat x00 24)) by (vm_compute; congruence).
  split; [exact Hx|]. split; [exact Ho|]. split; [exact Hl|].
  destruct (putUint64le_then_uint64le (repeat x00 24) 8 0x0102030405060708 Hx Ho Hl)
    as (b' & v & E1 & E2 & E3 & _).
  exists b', v. split; [exact E1|]. split; [exact E2 | exact E3].
Defined.

(** Property X5.  What [uint64le] reads from a buffer of at least eight
    bytes is a 64-bit word, and writing that word back with [putUint64le]
    leaves the buffer as it is. *)
Theorem uint64le_then_putUint64le (v : list byte) :
  (8 <= length v)%nat ->
  exists w, uint64le v = Done w /\ is_word w /\ putUint64le v 0 w = Done v.
Proof.
  intros H. exists (Spec.le_word v).
  split; [apply uint64le_le_word; assumption|].
  split; [apply le_word_is_word|].
  rewrite putUint64le_spec by (unfold len; lia).
  rewrite le_bytes_le_word by assumption.
  change (Z.to_nat 0) with 0%nat. change (0 + 8)%nat with 8%nat.
  change (firstn 0 v) with (@nil byte). cbn [app]. now rewrite firstn_skipn.
Qed.

Lemma uint64le_then_putUint64le_witness :
  (8 <= length (repeat xff 9))%nat
  /\ exists w, uint64le (repeat xff 9) = Done w
               /\ putUint64le (repeat xff 9) 0 w = Done (repeat xff 9).
Proof.
  assert (H : (8 <= length (repeat xff 9))%nat) by (simpl; lia).
  split; [exact H|].
  destruct (uint64le_then_putUint64le (repeat xff 9) H) as (w & E1 & _ & E2).
  exists w. split; [exact E1 | exact E2].
Defined.

(** Property X6.  [uint64le] needs eight bytes: on a shorter slice it panics
    with an index out of range, on a longer one it reads the first eight
    bytes only. *)
Theorem uint64le_needs_8_bytes (v : list byte) :
  uint64le v
  = if (8 <=? length v)%nat then Done (Spec.le_word (firstn 8 v))
    else Panic index_out_of_range.
Proof.
  destruct (Nat.leb_spec 8 (length v)) as [Ge|Lt].
  - rewrite uint64le_le_word by assumption.
    unfold Spec.le_word. now rewrite firstn_firstn.
  - do 8 (destruct v as [|? v]; [reflexivity|]).
    simpl in Lt. lia.
Qed.

Lemma store_cases {A : Type} (l : list A) (i : Z) (v : A) :
  (0 <= i < len l /\ store l i v = Done (upd l (Z.to_nat i) v))
  \/ (~ 0 <= i < len l /\ store l i v = Panic index_out_of_range).
Proof.
  unfold store.
  destruct (Z.leb_spec 0 i), (Z.ltb_spec i (len l)); cbn [andb];
    [left | right | right | right]; split; (reflexivity || lia).
Qed.

Lemma len_upd {A : Type} (l : list A) (n : nat) (v : A) : len (upd l n v) = len l.
Proof. unfold len. now rewrite upd_length. Qed.

(** Property X7.  [putUint64le(b[off:], x)] needs eight bytes from [off] on:
    it returns exactly when [0 <= off] and [off + 8 <= len(b)]; when [off]
    lies outside the slice the slicing panics, and when fewer than eight bytes
    follow [off] one of the stores panics with an index out of range. *)
Theorem putUint64le_needs_8_bytes (b : list byte) (off x : Z) :
  putUint64le b off x
  = if (0 <=? off) && (off <=? len b)
    then if off + 8 <=? len b
         then Done (firstn (Z.to_nat off) b ++ Spec.le_bytes x
                      ++ skipn (Z.to_nat off + 8) b)
         else Panic index_out_of_range
    else Panic slice_out_of_range.
Proof.
  destruct ((0 <=? off) && (off <=? len b)) eqn:In.
  - apply andb_true_iff in In. destruct In as [I1 I2].
    apply Z.leb_le in I1. apply Z.leb_le in I2.
    destruct (Z.leb_spec (off + 8) (len b)) as [Ge|Lt].
    + apply putUint64le_spec; assumption.
    + unfold putUint64le. rewrite slice_from_skipn by lia. cbn [bind].
      destruct (store_cases b (off + 0) (to_byte x)) as [[R0 ->]|[_ ->]];
        [cbn [bind] | reflexivity].
      set (b0 := upd b _ _). assert (L0 : len b0 = len b) by apply len_upd.
      destruct (store_cases b0 (off + 1) (to_byte (shr64 x 8))) as [[R1 ->]|[_ ->]];
        [cbn [bind] | reflexivity].
      set (b1 := upd b0 _ _). assert (L1 : len b1 = len b0) by apply len_upd.
      destruct (store_cases b1 (off + 2) (to_byte (shr64 x 16))) as [[R2 ->]|[_ ->]];
        [cbn [bind] | reflexivity].
      set (b2 := upd b1 _ _). assert (L2 : len b2 = len b1) by apply len_upd.
      destruct (store_cases b2 (off + 3) (to_byte (shr64 x 24))) as [[R3 ->]|[_ ->]];
        [cbn [bind] | reflexivity].
      set (b3 := upd b2 _ _). assert (L3 : len b3 = len b2) by apply len_upd.
      destruct (store_cases b3 (off + 4) (to_byte (shr64 x 32))) as [[R4 ->]|[_ ->]];
        [cbn [bind] | reflexivity].
      set (b4 := upd b3 _ _). assert (L4 : len b4 = len b3) by apply len_upd.
      destruct (store_cases b4 (off + 5) (to_byte (shr64 x 40))) as [[R5 ->]|[_ ->]];
        [cbn [bind] | reflexivity].
      set (b5 := upd b4 _ _). assert (L5 : len b5 = len b4) by apply len_upd.
      destruct (store_cases b5 (off + 6) (to_byte (shr64 x 48))) as [[R6 ->]|[_ ->]];
        [cbn [bind] | reflexivity].
      set (b6 := upd b5 _ _). assert (L6 : len b6 = len b5) by apply len_upd.
      destruct (store_cases b6 (off + 7) (to_byte (shr64 x 56))) as [[R7 _]|[_ ->]];
        [lia | reflexivity].
  - unfold putUint64le, slice_from. rewrite In. reflexivity.
Qed.

(** ** pad out of its bounds *)

(** Property X8.  [pad] returns exactly when fewer than [blockSize] bytes are
    pending.  With [blockSize] or more pending bytes the store of the domain
    byte panics with an index out of range, and with a negative [blockSize]
    the allocation of the block panics. *)
Theorem pad_needs_room (block : Mem.slice) (k : keccak) (h : Mem.heap) :
  Mem.valid h (buf k) -> blockSize k <= Int.max_int ->
  pad block k h
  = if blockSize k <? 0 then Panic makeslice_out_of_range
    else if Mem.len (buf k) <? blockSize k
         then Done (Spec.pad (blockSize k) (domain k) (pending_bytes h k))
         else Panic index_out_of_range.
Proof.
  intros V Hm.
  destruct (Z.ltb_spec (blockSize k) 0) as [Neg|Pos].
  - unfold pad, make.
    replace (0 <=? blockSize k) with false by (symmetry; apply Z.leb_gt; lia).
    reflexivity.
  - destruct (Z.ltb_spec (Mem.len (buf k)) (blockSize k)) as [Lt|Ge].
    + apply pad_spec; [assumption | lia].
    + unfold pad, make.
      replace (0 <=? blockSize k) with true by (symmetry; apply Z.leb_le; lia).
      cbn [bind]. unfold store at 1.
      replace (Mem.len (buf k) <? len (copy (repeat x00 (Z.to_nat (blockSize k)))
                                        (Mem.load h (buf k))))
        with false.
      * rewrite andb_false_r. reflexivity.
      * symmetry. apply Z.ltb_ge. unfold len.
        rewrite copy_length, repeat_length. lia.
Qed.

Lemma pad_needs_room_witness :
  let h := [repeat x61 136] in
  let k := with_buf NewSHA3256 (whole 0 136) in
  Mem.valid h (buf k) /\ blockSize k <= Int.max_int
  /\ pad Mem.nil k h = Panic index_out_of_range.
Proof.
  assert (V : Mem.valid [repeat x61 136] (buf (with_buf NewSHA3256 (whole 0 136))))
    by (split; simpl; lia).
  assert (Hm : blockSize (with_buf NewSHA3256 (whole 0 136)) <= Int.max_int)
    by (vm_compute; congruence).
  split; [exact V|]. split; [exact Hm|].
  rewrite (pad_needs_room Mem.nil (with_buf NewSHA3256 (whole 0 136))
             [repeat x61 136] V Hm).
  reflexivity.
Defined.

(** ** Output lengths *)

Lemma shake_size_negative (n : Z) :
  - 2 ^ 60 <= n < 0 -> Int.quo (Int.mul n 8) 8 = n.
Proof.
  intros H. unfold Int.mul, Int.quo.
  rewrite (wrap_small (n * 8)) by (unfold Int.min_int, Int.max_int; lia).
  rewrite Z.quot_mul by lia.
  apply wrap_small. unfold Int.min_int, Int.max_int. lia.
Qed.

(** Property X9.  The SHAKE constructors take a negative output length
    without complaint: the instance has that negative [size], and every [Sum]
    on an instance of negative size panics when [squeeze] slices its scratch
    buffer. *)
Theorem Sum_panics_on_negative_size (n : Z) :
  - 2 ^ 60 <= n < 0 ->
  Size (NewSHAKE128 n) = n
  /\ Size (NewSHAKE256 n) = n
  /\ forall (k : keccak) (h : Mem.heap) (extra : Mem.slice),
       well_formed h k -> Size k = n ->
       Sum extra k h = Panic slice_out_of_range.
Proof.
  intros Hn.
  split; [apply shake_size_negative; assumption|].
  split; [apply shake_size_negative; assumption|].
  intros k h extra W Sz. unfold Size in Sz. unfold Sum.
  rewrite final_spec by assumption. cbn [bind].
  destruct W as [HS Hr Hb Vk].
  assert (HF : length (finalized h k) = 25%nat)
    by (unfold finalized, Spec.finalize; apply absorb_length).
  unfold squeeze. cbn [state with_state size blockSize].
  unfold len at 1. rewrite HF.
  change (make (Int.mul 8 (Z.of_nat 25))) with (Done (repeat x00 200)).
  cbn [bind squeeze_loop state with_state size blockSize].
  rewrite serialize_state by (assumption || reflexivity). cbn [bind].
  replace (size k <=? blockSize k) with true by (symmetry; apply Z.leb_le; lia).
  unfold slice_to.
  replace (0 <=? size k) with false by (symmetry; apply Z.leb_gt; lia).
  reflexivity.
Qed.

Lemma Sum_panics_on_negative_size_witness :
  - 2 ^ 60 <= -1 < 0
  /\ Sum Mem.nil (NewSHAKE128 (-1)) [] = Panic slice_out_of_range.
Proof.
  assert (Hn : - 2 ^ 60 <= -1 < 0) by lia.
  split; [exact Hn|].
  destruct (Sum_panics_on_negative_size (-1) Hn) as (S1 & _ & P).
  apply P; [apply constructed_well_formed; constructor | exact S1].
Defined.

(** Property X10.  For an output length [n] with [0 <= n < 2^60] the SHAKE
    constructors build instances of size [n] with block sizes 168 and 136
    bytes and domain byte 0x1f, and [Sum] on them appends exactly [n]
    bytes. *)
Theorem SHAKE_constructor_parameters (n : Z) :
  0 <= n < 2 ^ 60 ->
  (Size (NewSHAKE128 n) = n /\ BlockSize (NewSHAKE128 n) = 168
   /\ domain (NewSHAKE128 n) = x1f)
  /\ (Size (NewSHAKE256 n) = n /\ BlockSize (NewSHAKE256 n) = 136
      /\ domain (NewSHAKE256 n) = x1f)
  /\ forall (k : keccak) (h : Mem.heap) (extra : Mem.slice),
       k = NewSHAKE128 n \/ k = NewSHAKE256 n -> Mem.valid h extra ->
       exists r h',
         Sum extra k h = Done (r, k, h')
         /\ Mem.len r = Mem.len extra + n.
Proof.
  intros Hn.
  assert (S1 : Size (NewSHAKE128 n) = n) by (apply shake_size; assumption).
  assert (S2 : Size (NewSHAKE256 n) = n) by (apply shake_size; assumption).
  split; [split; [exact S1 | split; reflexivity]|].
  split; [split; [exact S2 | split; reflexivity]|].
  intros k h extra Hk V.
  assert (W : well_formed h k)
    by (destruct Hk as [-> | ->]; apply constructed_well_formed; constructor).
  assert (Sz : size k = n) by (destruct Hk as [-> | ->]; assumption).
  destruct (Sum_run extra k h W) as (r & h' & E & L & Vr & _);
    [unfold Int.max_int; lia | assumption |].
  exists r, h'. split; [exact E|].
  rewrite <- (len_load h' r Vr), L, len_app, (len_load h extra V).
  f_equal. destruct W as [HS Hr Hb Vk]. rewrite Sz.
  apply squeeze_length; [|assumption|lia].
  unfold finalized, Spec.finalize. apply absorb_length.
Qed.

Lemma SHAKE_constructor_parameters_witness :
  0 <= 500 < 2 ^ 60
  /\ Size (NewSHAKE128 500) = 500 /\ BlockSize (NewSHAKE128 500) = 168.
Proof.
  assert (Hn : 0 <= 500 < 2 ^ 60) by lia.
  split; [exact Hn|].
  destruct (SHAKE_constructor_parameters 500 Hn) as ((S1 & B1 & _) & _).
  split; [exact S1 | exact B1].
Defined.

(** Property X11.  The constructors of the original Keccak instances pass a
    capacity of twice the digest bits and the domain byte 0x01: block sizes
    144, 136, 104 and 72 bytes, sizes 28, 32, 48 and 64 bytes.  Each differs
    from the SHA-3 instance of the same width in the domain byte only. *)
Theorem Keccak_constructor_parameters :
  (New224 = newKeccak (2 * 224) 224 x01
   /\ BlockSize New224 = 144 /\ Size New224 = 28
   /\ NewSHA3224 = {| state := state New224; size := size New224;
                      blockSize := blockSize New224; buf := buf New224;
                      domain := x06 |})
  /\ (New256 = newKeccak (2 * 256) 256 x01
      /\ BlockSize New256 = 136 /\ Size New256 = 32
      /\ NewSHA3256 = {| state := state New256; size := size New256;
                         blockSize := blockSize New256; buf := buf New256;
                         domain := x06 |})
  /\ (New384 = newKeccak (2 * 384) 384 x01
      /\ BlockSize New384 = 104 /\ Size New384 = 48
      /\ NewSHA3384 = {| state := state New384; size := size New384;
                         blockSize := blockSize New384; buf := buf New384;
                         domain := x06 |})
  /\ (New512 = newKeccak (2 * 512) 512 x01
      /\ BlockSize New512 = 72 /\ Size New512 = 64
      /\ NewSHA3512 = {| state := state New512; size := size New512;
                         blockSize := blockSize New512; buf := buf New512;
                         domain := x06 |}).
Proof.
  repeat split; reflexivity.
Qed.

(** ** Reset *)

Lemma history_parameters (k0 : keccak) (h : Mem.heap) (k : keccak) :
  history k0 h k -> (forall h0, well_formed h0 k0) ->
  well_formed h k
  /\ size k = size k0 /\ blockSize k = blockSize k0 /\ domain k = domain k0.
Proof.
  intros H W0.
  induction H as [h | h h' k _ IH E | h h' k k' b n _ IH V E
                 | h k k' _ IH E | h h' k k' b out _ IH V E].
  - split; [apply W0 | auto].
  - destruct IH as (W & P). split; [|exact P].
    apply (extends_well_formed h h'); assumption.
  - destruct IH as (W & P1 & P2 & P3).
    destruct (Write_run b k h W V)
      as (k1 & h1 & data & E1 & (_ & _ & Z1 & B1 & D1) & _ & W1 & _).
    rewrite E1 in E. injection E as _ <- <-.
    split; [exact W1|]. rewrite Z1, B1, D1. auto.
  - destruct IH as (W & P). pose proof W as [HS Hr Hb Vk].
    rewrite Reset_spec in E by assumption. injection E as <-.
    split; [|exact P].
    split; unfold with_buf, with_state; cbn [state blockSize buf];
      [reflexivity | assumption | unfold Mem.len; simpl; lia | apply valid_nil].
  - destruct IH as (W & P).
    pose proof (Sum_receiver _ _ _ _ _ _ E) as ->.
    split; [|exact P].
    apply (extends_well_formed h h'); [|assumption].
    apply (Sum_extends b out k k h h' V E).
Qed.

(** Property X12.  Whatever was written to an instance and summed from it,
    [Reset] returns and gives back the instance as its constructor made it:
    all lanes zero, nothing pending, the parameters untouched.  [Size] and
    [BlockSize] keep the values the constructor gave them through every call
    of [Write], [Sum] and [Reset]. *)
Theorem Reset_returns_to_constructed (k0 : keccak) (h : Mem.heap) (k : keccak) :
  constructed k0 -> history k0 h k ->
  Reset k = Done k0 /\ Size k = Size k0 /\ BlockSize k = BlockSize k0.
Proof.
  intros C H.
  destruct (history_parameters k0 h k H) as (W & P1 & P2 & P3).
  { intros h0. apply constructed_well_formed. assumption. }
  split; [|split; assumption].
  destruct W as [HS _ _ _]. rewrite Reset_spec by assumption.
  assert (S0 : state k0 = repeat 0 25) by (destruct C; reflexivity).
  assert (B0 : buf k0 = Mem.nil) by (destruct C; reflexivity).
  destruct k as [St sz bs bf dm], k0 as [St0 sz0 bs0 bf0 dm0].
  unfold with_buf, with_state.
  cbn [state size blockSize buf domain] in *. subst. reflexivity.
Qed.

Lemma Reset_returns_to_constructed_witness :
  constructed NewSHA3256
  /\ exists k h', Write (whole 0 3) NewSHA3256 [[x61; x62; x63]] = Done (3, k, h')
                  /\ history NewSHA3256 h' k
                  /\ state k = state NewSHA3256 /\ buf k <> buf NewSHA3256
                  /\ Reset k = Done NewSHA3256.
Proof.
  assert (C : constructed NewSHA3256) by constructor.
  split; [exact C|].
  assert (V : Mem.valid [[x61; x62; x63]] (whole 0 3)) by (split; simpl; lia).
  destruct (Write (whole 0 3) NewSHA3256 [[x61; x62; x63]]) as [[[n k] h']| |] eqn:E;
    try (vm_compute in E; discriminate E).
  assert (H : history NewSHA3256 h' k)
    by (apply (hist_Write NewSHA3256 _ h' _ k (whole 0 3) n
                 (hist_start NewSHA3256 _) V E)).
  vm_compute in E. injection E as <- <- <-.
  eexists _, _. split; [reflexivity|]. split; [exact H|].
  split; [reflexivity|]. split; [discriminate|].
  apply (Reset_returns_to_constructed NewSHA3256 _ _ C H).
Defined.

(** ** What Write and Sum do to the memory of the client *)

Lemma poke_byte (h : Mem.heap) (a pos : nat) (data : list byte) (a' i : nat) :
  (pos + length data <= length (nth a h []))%nat ->
  a' <> a \/ (i < pos)%nat \/ (pos + length data <= i)%nat ->
  byte_at (Mem.poke h a pos data) a' i = byte_at h a' i.
Proof.
  intros Fit Out. unfold byte_at, Mem.poke. rewrite nth_upd.
  destruct (Nat.eqb_spec a' a) as [->|Ne]; [|reflexivity].
  destruct (Nat.ltb_spec a (length h)) as [Lt|Ge].
  - set (arr := nth a h []) in *.
    assert (Lf : length (firstn pos arr) = pos) by (rewrite length_firstn; lia).
    destruct Out as [Ne | [Lo | Hi]]; [contradiction | |].
    + rewrite app_nth1 by lia. rewrite nth_firstn.
      replace (i <? pos)%nat with true by (symmetry; apply Nat.ltb_lt; lia).
      reflexivity.
    + rewrite app_nth2 by lia. rewrite app_nth2 by lia.
      rewrite nth_skipn, Lf. f_equal. lia.
  - rewrite (nth_overflow h) by assumption. reflexivity.
Qed.

Lemma append_bytes (h : Mem.heap) (s : Mem.slice) (data : list byte) (a i : nat) :
  Mem.valid h s -> (a < length h)%nat -> ~ in_spare s a i ->
  byte_at (snd (Mem.append s data h)) a i = byte_at h a i.
Proof.
  intros [V1 V2] Ha N. unfold Mem.append, in_spare, Mem.array in *.
  destruct (Nat.leb_spec (Mem.slen s + length data) (Mem.scap s)) as [Fit|Big];
    cbn [snd].
  - apply poke_byte; [lia|].
    destruct (Nat.eq_dec a (Mem.base s)) as [E|Ne]; [|left; exact Ne].
    right. lia.
  - unfold byte_at. now rewrite app_nth1.
Qed.

Lemma load_bytes (h h' : Mem.heap) (s : Mem.slice) :
  Mem.valid h s ->
  length (nth (Mem.base s) h' []) = length (nth (Mem.base s) h []) ->
  (forall i, (Mem.off s <= i < Mem.off s + Mem.slen s)%nat ->
     byte_at h' (Mem.base s) i = byte_at h (Mem.base s) i) ->
  Mem.load h' s = Mem.load h s.
Proof.
  intros [V1 V2] L B. unfold Mem.load, Mem.array, byte_at in *.
  apply (nth_ext _ _ x00 x00).
  - rewrite !length_firstn, !length_skipn, L. reflexivity.
  - intros j Hj. rewrite length_firstn, length_skipn in Hj.
    rewrite !nth_firstn.
    destruct (j <? Mem.slen s)%nat eqn:Q; [|reflexivity].
    apply Nat.ltb_lt in Q. rewrite !nth_skipn. apply B. lia.
Qed.

Lemma upd_same {A : Type} (l : list A) (n : nat) (d : A) : upd l n (nth n l d) = l.
Proof.
  revert n. induction l as [|x l IH]; intros [|n]; cbn [upd nth]; try reflexivity.
  now rewrite IH.
Qed.

Lemma poke_nothing (h : Mem.heap) (a pos : nat) : Mem.poke h a pos [] = h.
Proof.
  unfold Mem.poke. cbn [app length]. rewrite Nat.add_0_r, firstn_skipn.
  apply upd_same.
Qed.

Lemma Write_heap (b : Mem.slice) (k k' : keccak) (h h' : Mem.heap) (n : Z) :
  Write b k h = Done (n, k', h') ->
  h' = h \/ exists data, h' = snd (Mem.append (buf k) data h).
Proof.
  unfold Write. cbv zeta.
  destruct (0 <? Mem.len (buf k)).
  - destruct (Mem.upto b _) as [hd| |]; cbn [bind]; try discriminate.
    destruct (Mem.append (buf k) (Mem.load h hd) h) as [grown h1] eqn:A.
    destruct (Mem.from b _) as [b1| |]; cbn [bind]; try discriminate.
    destruct (Mem.len (buf (with_buf k grown)) <? blockSize (with_buf k grown)).
    + cbn [bind]. intros E. injection E as _ _ <-.
      right. exists (Mem.load h hd). now rewrite A.
    + destruct (absorb _ _) as [k1| |]; cbn [bind]; try discriminate.
      destruct (Write_loop _ _ _ _) as [[b2 k2]| |]; cbn [bind]; try discriminate.
      intros E. injection E as _ _ <-.
      right. exists (Mem.load h hd). now rewrite A.
  - cbn [bind].
    destruct (Write_loop _ _ _ _) as [[b2 k2]| |]; cbn [bind]; try discriminate.
    intros E. injection E as _ _ <-. left. reflexivity.
Qed.

(** Property X13.  [Write] returns on every well-formed instance and writes
    to the client's memory in one place only, the spare capacity of the
    pending buffer (the bytes past its length, within its capacity); every
    other byte of every array is as it was, no array changes its length, and
    when nothing is pending the memory is not written at all. *)
Theorem Write_touches_spare_capacity_only (b : Mem.slice) (k : keccak)
  (h : Mem.heap) :
  well_formed h k -> Mem.valid h b ->
  exists k' h',
    Write b k h = Done (Mem.len b, k', h')
    /\ Mem.extends h h'
    /\ (Mem.slen (buf k) = 0%nat -> h' = h)
    /\ (forall a i, (a < length h)%nat -> ~ in_spare (buf k) a i ->
          byte_at h' a i = byte_at h a i).
Proof.
  intros W V.
  destruct (Write_run b k h W V)
    as (k' & h' & data & E & _ & _ & _ & Ex & _ & H0 & _).
  exists k', h'. split; [exact E|]. split; [exact Ex|]. split; [exact H0|].
  intros a i Ha N.
  destruct (Write_heap b k k' h h' _ E) as [-> | (d & ->)]; [reflexivity|].
  apply append_bytes; [apply W | assumption | assumption].
Qed.

Lemma Write_touches_spare_capacity_only_witness :
  let h := [[x01; x02; x03; x04]; [x09]] in
  let k := with_buf New256 (Mem.take (whole 0 4) 2) in
  well_formed h k /\ Mem.valid h (whole 1 1)
  /\ exists k' h',
       Write (whole 1 1) k h = Done (1, k', h')
       /\ byte_at h' 0 2 = x09 /\ byte_at h' 0 1 = byte_at h 0 1.
Proof.
  assert (W : well_formed [[x01; x02; x03; x04]; [x09]]
                (with_buf New256 (Mem.take (whole 0 4) 2))).
  { split; [reflexivity | vm_compute; split; congruence | reflexivity
            | split; simpl; lia]. }
  assert (V : Mem.valid [[x01; x02; x03; x04]; [x09]] (whole 1 1))
    by (split; simpl; lia).
  split; [exact W|]. split; [exact V|].
  destruct (Write_touches_spare_capacity_only (whole 1 1)
              (with_buf New256 (Mem.take (whole 0 4) 2))
              [[x01; x02; x03; x04]; [x09]] W V)
    as (k' & h' & E & _ & _ & F).
  exists k', h'. split; [exact E|].
  split.
  - vm_compute in E. injection E as _ <-. reflexivity.
  - apply F; [simpl; lia|]. unfold in_spare. simpl. lia.
Defined.

(** Property X14.  A [Write] of no bytes returns 0 and changes neither the
    lanes, nor the pending bytes, nor the memory.  With bytes pending the
    instance is as it was; with none pending it keeps the empty slice it was
    given as its pending buffer. *)
Theorem Write_of_nothing (b : Mem.slice) (k : keccak) (h : Mem.heap) :
  well_formed h k -> Mem.valid h b -> Mem.slen b = 0%nat ->
  Write b k h
  = Done (0, (if 0 <? Mem.len (buf k) then k else with_buf k b), h).
Proof.
  intros [HS Hr Hb Vk] V Z0. pose proof V as [V1 V2]. unfold Write.
  assert (Lb : Mem.len b = 0) by (unfold Mem.len; lia). rewrite Lb.
  destruct (Z.ltb_spec 0 (Mem.len (buf k))) as [P|N].
  - unfold Int.sub.
    rewrite wrap_small by (unfold Int.min_int, Int.max_int, Mem.len in *; lia).
    replace (0 <? blockSize k - Mem.len (buf k)) with true
      by (symmetry; apply Z.ltb_lt; lia).
    rewrite upto_take by lia. cbn [bind].
    change (Z.to_nat 0) with 0%nat.
    unfold Mem.load at 1. cbn [Mem.take Mem.slen firstn].
    unfold Mem.append. cbn [length]. rewrite Nat.add_0_r.
    destruct Vk as [Vk1 Vk2].
    replace (Mem.slen (buf k) <=? Mem.scap (buf k))%nat with true
      by (symmetry; apply Nat.leb_le; assumption).
    rewrite poke_nothing.
    rewrite from_drop by lia. cbn [bind].
    replace {| Mem.base := Mem.base (buf k); Mem.off := Mem.off (buf k);
               Mem.slen := Mem.slen (buf k); Mem.scap := Mem.scap (buf k) |}
      with (buf k) by (destruct (buf k); reflexivity).
    replace (with_buf k (buf k)) with k by (destruct k; reflexivity).
    replace (Mem.len (buf k) <? blockSize k) with true
      by (symmetry; apply Z.ltb_lt; assumption).
    reflexivity.
  - cbn [bind]. rewrite Write_loop_spec by (assumption || lia). cbn [bind].
    rewrite (load_empty h b Z0).
    rewrite full_blocks_small, absorbed_small by (unfold len; simpl; lia).
    rewrite Nat.mul_0_r, drop_zero.
    replace (with_state k (state k)) with k by (destruct k; reflexivity).
    reflexivity.
Qed.

Lemma Write_of_nothing_witness :
  let h := [[x61; x62]] in
  let b := Mem.take (whole 0 2) 0 in
  well_formed h New512 /\ Mem.valid h b /\ Mem.slen b = 0%nat
  /\ Write b New512 h = Done (0, with_buf New512 b, h).
Proof.
  assert (W : well_formed [[x61; x62]] New512)
    by (apply constructed_well_formed; constructor).
  assert (V : Mem.valid [[x61; x62]] (Mem.take (whole 0 2) 0)) by (split; simpl; lia).
  assert (Z0 : Mem.slen (Mem.take (whole 0 2) 0) = 0%nat) by reflexivity.
  split; [exact W|]. split; [exact V|]. split; [exact Z0|].
  apply (Write_of_nothing (Mem.take (whole 0 2) 0) New512 [[x61; x62]] W V Z0).
Defined.

Lemma squeeze_loop_frame (fuel : nat) :
  forall (scratch : list byte) (n : Z) (b : Mem.slice) (k : keccak) (h : Mem.heap)
         (r : Mem.slice) (k' : keccak) (h' : Mem.heap),
    Mem.valid h b -> 0 < blockSize k <= 200 -> n <= Int.max_int ->
    squeeze_loop fuel scratch n b k h = Done (r, k', h') ->
    (forall a i, (a < length h)%nat -> ~ in_spare b a i ->
       byte_at h' a i = byte_at h a i)
    /\ 0 <= n
    /\ (if (Mem.slen b + Z.to_nat n <=? Mem.scap b)%nat
        then r = {| Mem.base := Mem.base b; Mem.off := Mem.off b;
                    Mem.slen := Mem.slen b + Z.to_nat n; Mem.scap := Mem.scap b |}
        else (length h <= Mem.base r)%nat).
Proof.
  induction fuel as [|fuel IH]; intros scratch n b k h r k' h' V Hr Hn E;
    [discriminate E|].
  cbn [squeeze_loop] in E.
  destruct (forM _ _ scratch) as [sc| |]; cbn [bind] in E; try discriminate.
  destruct (Z.leb_spec n (blockSize k)) as [Le|Gt].
  - (* the last block *)
    unfold slice_to in E.
    destruct ((0 <=? n) && (n <=? len sc)) eqn:C; cbn [bind] in E; try discriminate.
    apply andb_true_iff in C. destruct C as [C1 C2].
    apply Z.leb_le in C1. apply Z.leb_le in C2.
    set (out := firstn (Z.to_nat n) sc) in *.
    assert (Lo : length out = Z.to_nat n)
      by (unfold out; rewrite length_firstn; unfold len in C2; lia).
    pose proof (append_bytes h b out) as AB.
    unfold Mem.append in *. rewrite Lo in *.
    destruct (Mem.slen b + Z.to_nat n <=? Mem.scap b)%nat;
      cbn [snd] in AB; injection E as <- _ <-.
    + split; [intros a i Ha N; apply AB; assumption|]. split; [exact C1 | reflexivity].
    + split; [intros a i Ha N; apply AB; assumption|]. split; [exact C1|].
      cbn [Mem.base]. lia.
  - (* one block of [blockSize] bytes, then the rest *)
    unfold slice_to in E.
    destruct ((0 <=? blockSize k) && (blockSize k <=? len sc)) eqn:C;
      cbn [bind] in E; try discriminate.
    apply andb_true_iff in C. destruct C as [C1 C2].
    apply Z.leb_le in C1. apply Z.leb_le in C2.
    set (out := firstn (Z.to_nat (blockSize k)) sc) in *.
    assert (Lo : length out = Z.to_nat (blockSize k))
      by (unfold out; rewrite length_firstn; unfold len in C2; lia).
    pose proof (append_bytes h b out) as AB.
    pose proof (append_valid h b out V) as AV.
    pose proof (append_extends h b out V) as [AE _].
    destruct (Mem.append b out h) as [b1 h1] eqn:A. cbn [fst snd] in *.
    destruct (keccakf (state k)) as [St| |]; cbn [bind] in E; try discriminate.
    unfold Int.sub in E.
    rewrite wrap_small in E by (unfold Int.min_int, Int.max_int in *; lia).
    apply IH in E; [ | assumption | cbn [blockSize with_state]; lia | lia ].
    destruct E as (F & Pos & Sh).
    assert (Nn : Z.to_nat n = (Z.to_nat (blockSize k) + Z.to_nat (n - blockSize k))%nat)
      by lia.
    unfold Mem.append in A. rewrite Lo in A.
    destruct (Nat.leb_spec (Mem.slen b + Z.to_nat (blockSize k)) (Mem.scap b))
      as [Fit|Big]; injection A as <- <-; cbn [Mem.base Mem.off Mem.slen Mem.scap] in *.
    + (* appended in place *)
      split.
      { intros a i Ha N. rewrite F; [apply AB; assumption | lia | ].
        unfold in_spare in *. cbn [Mem.base Mem.off Mem.slen Mem.scap]. lia. }
      split; [lia|].
      unfold Mem.poke in Sh. rewrite upd_length in Sh.
      destruct (Nat.leb_spec (Mem.slen b + Z.to_nat n) (Mem.scap b)) as [All|NotAll].
      * replace (Mem.slen b + Z.to_nat (blockSize k) + Z.to_nat (n - blockSize k)
                 <=? Mem.scap b)%nat with true in Sh
          by (symmetry; apply Nat.leb_le; lia).
        rewrite Sh. f_equal. lia.
      * replace (Mem.slen b + Z.to_nat (blockSize k) + Z.to_nat (n - blockSize k)
                 <=? Mem.scap b)%nat with false in Sh
          by (symmetry; apply Nat.leb_gt; lia).
        exact Sh.
    + (* moved to a new array *)
      split.
      { intros a i Ha N. rewrite F; [apply AB; assumption | lia | ].
        unfold in_spare. cbn [Mem.base]. lia. }
      split; [lia|].
      replace (Mem.slen b + Z.to_nat n <=? Mem.scap b)%nat with false
        by (symmetry; apply Nat.leb_gt; lia).
      replace (Mem.slen b + Z.to_nat (blockSize k) + Z.to_nat (n - blockSize k)
               <=? Mem.slen b + Z.to_nat (blockSize k))%nat with false in Sh
        by (symmetry; apply Nat.leb_gt; lia).
      rewrite length_app in Sh. lia.
Qed.

Lemma Sum_as_squeeze_loop (extra r : Mem.slice) (k k' : keccak) (h h' : Mem.heap) :
  well_formed h k -> Sum extra k h = Done (r, k', h') ->
  exists fuel scratch k1,
    squeeze_loop fuel scratch (size k) extra (with_state k (finalized h k)) h
    = Done (r, k1, h').
Proof.
  intros W E. unfold Sum in E. rewrite final_spec in E by assumption.
  cbn [bind] in E. unfold squeeze in E.
  destruct (make _) as [sc| |]; cbn [bind] in E; try discriminate.
  destruct (squeeze_loop _ sc _ extra _ h) as [[[r1 k1] h1]| |] eqn:Q;
    cbn [bind] in E; try discriminate.
  injection E as <- _ <-. cbn [size with_state] in Q.
  eexists _, sc, k1. exact Q.
Qed.

(** Property X15.  [Sum] returns on every well-formed instance of
    non-negative size and writes to the client's memory in one place only,
    the spare capacity of [extra]; every other byte of every array, the bytes
    of [extra] among them, is as it was.  When the spare capacity holds the
    whole digest the result is [extra] grown in place; otherwise the result
    lies in an array allocated by the call. *)
Theorem Sum_touches_spare_capacity_only (extra : Mem.slice) (k : keccak)
  (h : Mem.heap) :
  well_formed h k -> 0 <= size k <= Int.max_int -> Mem.valid h extra ->
  exists r h',
    Sum extra k h = Done (r, k, h')
    /\ Mem.extends h h'
    /\ (forall a i, (a < length h)%nat -> ~ in_spare extra a i ->
          byte_at h' a i = byte_at h a i)
    /\ (if (Mem.slen extra + Z.to_nat (size k) <=? Mem.scap extra)%nat
        then r = {| Mem.base := Mem.base extra; Mem.off := Mem.off extra;
                    Mem.slen := Mem.slen extra + Z.to_nat (size k);
                    Mem.scap := Mem.scap extra |}
        else (length h <= Mem.base r)%nat).
Proof.
  intros W Hn V.
  destruct (Sum_run extra k h W Hn V) as (r & h' & E & _ & _ & Ex & _).
  exists r, h'. split; [exact E|]. split; [exact Ex|].
  destruct (Sum_as_squeeze_loop extra r k k h h' W E) as (fuel & sc & k1 & Q).
  apply squeeze_loop_frame in Q;
    [ | assumption | cbn [blockSize with_state]; apply W | lia ].
  destruct Q as (F & _ & Sh). split; [exact F | exact Sh].
Qed.

Lemma Sum_touches_spare_capacity_only_witness :
  let h := [x61 :: repeat x00 39] in
  let extra := Mem.take (whole 0 40) 1 in
  well_formed h NewSHA3256 /\ 0 <= size NewSHA3256 <= Int.max_int
  /\ Mem.valid h extra
  /\ exists r h',
       Sum extra NewSHA3256 h = Done (r, NewSHA3256, h')
       /\ byte_at h' 0 0 = x61 /\ Mem.base r = 0%nat /\ Mem.slen r = 33%nat.
Proof.
  assert (W : well_formed [x61 :: repeat x00 39] NewSHA3256)
    by (apply constructed_well_formed; constructor).
  assert (Hn : 0 <= size NewSHA3256 <= Int.max_int) by (vm_compute; split; congruence).
  assert (V : Mem.valid [x61 :: repeat x00 39] (Mem.take (whole 0 40) 1))
    by (split; simpl; lia).
  split; [exact W|]. split; [exact Hn|]. split; [exact V|].
  destruct (Sum_touches_spare_capacity_only (Mem.take (whole 0 40) 1) NewSHA3256
              [x61 :: repeat x00 39] W Hn V) as (r & h' & E & _ & F & Sh).
  exists r, h'. split; [exact E|].
  split; [|split; [exact (f_equal Mem.base Sh) | exact (f_equal Mem.slen Sh)]].
  rewrite F; [reflexivity | simpl; lia | ].
  unfold in_spare. simpl. lia.
Defined.

(** ** Sum when the pending bytes are out of its way *)

Lemma Sum_apart (extra : Mem.slice) (k : keccak) (h : Mem.heap) :
  well_formed h k -> 0 <= size k <= Int.max_int -> Mem.valid h extra ->
  exists r h',
    Sum extra k h = Done (r, k, h')
    /\ Mem.load h' r
       = Mem.load h extra ++ Spec.squeeze (blockSize k) (finalized h k) (size k)
    /\ Mem.extends h h'
    /\ forall p, Mem.valid h p -> apart p extra -> Mem.load h' p = Mem.load h p.
Proof.
  intros W Hn V.
  destruct (Sum_run extra k h W Hn V) as (r & h' & E & L & _ & Ex & _).
  destruct (Sum_as_squeeze_loop extra r k k h h' W E) as (fuel & sc & k1 & Q).
  apply squeeze_loop_frame in Q;
    [ | assumption | cbn [blockSize with_state]; apply W | lia ].
  destruct Q as (F & _ & _).
  exists r, h'. split; [exact E|]. split; [exact L|]. split; [exact Ex|].
  intros p Vp Ap.
  destruct (Nat.eq_dec (Mem.slen p) 0) as [Z0|NZ]; [now rewrite !load_empty|].
  assert (Lt : (Mem.base p < length h)%nat).
  { destruct (Nat.lt_ge_cases (Mem.base p) (length h)) as [Lt|Ge]; [exact Lt|].
    destruct Vp as [V1 V2]. unfold Mem.array in V2.
    rewrite (nth_overflow h) in V2 by assumption. simpl in V2. lia. }
  apply load_bytes; [assumption | apply Ex; assumption | ].
  intros i Hi. apply F; [assumption|].
  unfold in_spare, apart in *. lia.
Qed.

(** Property X16.  When the pending bytes lie outside the spare capacity of
    [extra], two calls of [Sum] with no [Write] between them return the same
    digest, whatever slice the second call appends to. *)
Theorem Sum_twice_same_digest (extra : Mem.slice) (k : keccak) (h : Mem.heap) :
  well_formed h k -> 0 <= size k <= Int.max_int -> Mem.valid h extra ->
  apart (buf k) extra ->
  exists r1 h1 d,
    Sum extra k h = Done (r1, k, h1)
    /\ Mem.load h1 r1 = Mem.load h extra ++ d
    /\ len d = size k
    /\ forall extra2, Mem.valid h1 extra2 ->
         exists r2 h2,
           Sum extra2 k h1 = Done (r2, k, h2)
           /\ Mem.load h2 r2 = Mem.load h1 extra2 ++ d.
Proof.
  intros W Hn V Ap.
  destruct (Sum_apart extra k h W Hn V) as (r1 & h1 & E1 & L1 & Ex & Keep).
  exists r1, h1, (Spec.squeeze (blockSize k) (finalized h k) (size k)).
  split; [exact E1|]. split; [exact L1|].
  split.
  { destruct W as [HS Hr Hb Vk]. apply squeeze_length; [|assumption|lia].
    unfold finalized, Spec.finalize. apply absorb_length. }
  intros extra2 V2.
  assert (W1 : well_formed h1 k) by (apply (extends_well_formed h h1); assumption).
  destruct (Sum_run extra2 k h1 W1 Hn V2) as (r2 & h2 & E2 & L2 & _).
  exists r2, h2. split; [exact E2|].
  rewrite L2. unfold finalized, pending_bytes.
  rewrite (Keep (buf k)) by (apply W || assumption). reflexivity.
Qed.

Lemma Sum_twice_same_digest_witness :
  let h := [[x61; x62; x63]; repeat x00 40] in
  let k := with_buf NewSHA3256 (whole 0 3) in
  let extra := Mem.take (whole 1 40) 0 in
  well_formed h k /\ 0 <= size k <= Int.max_int /\ Mem.valid h extra
  /\ apart (buf k) extra
  /\ exists r1 h1 r2 h2,
       Sum extra k h = Done (r1, k, h1)
       /\ Sum Mem.nil k h1 = Done (r2, k, h2)
       /\ Mem.load h2 r2 = Mem.load h1 r1.
Proof.
  assert (W : well_formed [[x61; x62; x63]; repeat x00 40]
                (with_buf NewSHA3256 (whole 0 3))).
  { split; [reflexivity | vm_compute; split; congruence | reflexivity
            | split; simpl; lia]. }
  assert (Hn : 0 <= size (with_buf NewSHA3256 (whole 0 3)) <= Int.max_int)
    by (vm_compute; split; congruence).
  assert (V : Mem.valid [[x61; x62; x63]; repeat x00 40] (Mem.take (whole 1 40) 0))
    by (split; simpl; lia).
  assert (Ap : apart (buf (with_buf NewSHA3256 (whole 0 3))) (Mem.take (whole 1 40) 0))
    by (right; left; simpl; lia).
  split; [exact W|]. split; [exact Hn|]. split; [exact V|]. split; [exact Ap|].
  destruct (Sum_twice_same_digest (Mem.take (whole 1 40) 0)
              (with_buf NewSHA3256 (whole 0 3))
              [[x61; x62; x63]; repeat x00 40] W Hn V Ap)
    as (r1 & h1 & d & E1 & L1 & _ & Again).
  destruct (Again Mem.nil (valid_nil h1)) as (r2 & h2 & E2 & L2).
  exists r1, h1, r2, h2. split; [exact E1|]. split; [exact E2|].
  rewrite L1, L2. reflexivity.
Defined.

(** Property X17.  When the pending bytes and the bytes of [b] lie outside
    the spare capacity of [extra], and [b] lies in another array than the
    pending buffer, a [Write] of [b] after [Sum(extra)] continues the stream
    that was being written: it leaves the lanes and the pending bytes that
    the same [Write] leaves without the [Sum]. *)
Theorem Write_after_Sum_continues (extra b : Mem.slice) (k : keccak)
  (h : Mem.heap) :
  well_formed h k -> 0 <= size k <= Int.max_int ->
  Mem.valid h extra -> Mem.valid h b ->
  apart (buf k) extra -> apart b extra ->
  Mem.slen (buf k) = 0%nat \/ Mem.base (buf k) <> Mem.base b ->
  exists r h1 k2 h2 k3 h3,
    Sum extra k h = Done (r, k, h1)
    /\ Write b k h1 = Done (Mem.len b, k2, h2)
    /\ Write b k h = Done (Mem.len b, k3, h3)
    /\ state k2 = state k3
    /\ pending_bytes h2 k2 = pending_bytes h3 k3
    /\ streamed k (pending_bytes h k ++ Mem.load h b) h2 k2.
Proof.
  intros W Hn V Vb Ap Apb Sep.
  destruct (Sum_apart extra k h W Hn V) as (r & h1 & E1 & _ & Ex & Keep).
  assert (W1 : well_formed h1 k) by (apply (extends_well_formed h h1); assumption).
  assert (Vb1 : Mem.valid h1 b) by (apply (extends_valid h h1); assumption).
  destruct (Write_run b k h1 W1 Vb1)
    as (k2 & h2 & d2 & E2 & S2 & _ & _ & _ & _ & _ & D2 & _).
  destruct (Write_run b k h W Vb)
    as (k3 & h3 & d3 & E3 & S3 & _ & _ & _ & _ & _ & D3 & _).
  rewrite (D2 Sep) in S2. rewrite (D3 Sep) in S3.
  unfold pending_bytes in S2 at 1.
  rewrite (Keep (buf k)), (Keep b) in S2 by (apply W || assumption).
  fold (pending_bytes h k) in S2.
  exists r, h1, k2, h2, k3, h3.
  split; [exact E1|]. split; [exact E2|]. split; [exact E3|].
  pose proof S2 as (A2 & P2 & _). destruct S3 as (A3 & P3 & _).
  split; [now rewrite A2, A3|]. split; [now rewrite P2, P3 | exact S2].
Qed.

Lemma Write_after_Sum_continues_witness :
  let h := [[x61; x62]; repeat x00 40; [x63]] in
  let k := with_buf NewSHA3256 (Mem.take (whole 0 2) 1) in
  let extra := Mem.take (whole 1 40) 0 in
  let b := whole 2 1 in
  well_formed h k /\ 0 <= size k <= Int.max_int
  /\ Mem.valid h extra /\ Mem.valid h b
  /\ apart (buf k) extra /\ apart b extra
  /\ (Mem.slen (buf k) = 0%nat \/ Mem.base (buf k) <> Mem.base b)
  /\ exists r h1 k2 h2,
       Sum extra k h = Done (r, k, h1)
       /\ Write b k h1 = Done (1, k2, h2)
       /\ pending_bytes h2 k2 = [x61; x63].
Proof.
  assert (W : well_formed [[x61; x62]; repeat x00 40; [x63]]
                (with_buf NewSHA3256 (Mem.take (whole 0 2) 1))).
  { split; [reflexivity | vm_compute; split; congruence | reflexivity
            | split; simpl; lia]. }
  assert (Hn : 0 <= size (with_buf NewSHA3256 (Mem.take (whole 0 2) 1)) <= Int.max_int)
    by (vm_compute; split; congruence).
  assert (V : Mem.valid [[x61; x62]; repeat x00 40; [x63]] (Mem.take (whole 1 40) 0))
    by (split; simpl; lia).
  assert (Vb : Mem.valid [[x61; x62]; repeat x00 40; [x63]] (whole 2 1))
    by (split; simpl; lia).
  assert (Ap : apart (buf (with_buf NewSHA3256 (Mem.take (whole 0 2) 1)))
                 (Mem.take (whole 1 40) 0))
    by (right; left; simpl; lia).
  assert (Apb : apart (whole 2 1) (Mem.take (whole 1 40) 0))
    by (right; left; simpl; lia).
  assert (Sep : Mem.slen (buf (with_buf NewSHA3256 (Mem.take (whole 0 2) 1))) = 0%nat
                \/ Mem.base (buf (with_buf NewSHA3256 (Mem.take (whole 0 2) 1)))
                   <> Mem.base (whole 2 1))
    by (right; simpl; lia).
  split; [exact W|]. split; [exact Hn|]. split; [exact V|]. split; [exact Vb|].
  split; [exact Ap|]. split; [exact Apb|]. split; [exact Sep|].
  destruct (Write_after_Sum_continues (Mem.take (whole 1 40) 0) (whole 2 1)
              (with_buf NewSHA3256 (Mem.take (whole 0 2) 1))
              [[x61; x62]; repeat x00 40; [x63]] W Hn V Vb Ap Apb Sep)
    as (r & h1 & k2 & h2 & k3 & h3 & E1 & E2 & _ & _ & _ & (_ & P & _)).
  exists r, h1, k2, h2. split; [exact E1|]. split; [exact E2|].
  rewrite P. reflexivity.
Defined.

(** ** Chunks that do not share an array *)

(** Property X18.  When every chunk lies in an array of its own and the
    pending buffer, if it holds bytes, in yet another, one [Write] per chunk
    leaves the lanes and the pending bytes that a single [Write] of the
    concatenated chunks leaves, and [Sum] returns the same digest after
    either. *)
Theorem Write_chunks_in_separate_arrays (chunks : list Mem.slice) (m : Mem.slice)
  (k : keccak) (h : Mem.heap) :
  well_formed h k -> 0 <= size k <= Int.max_int ->
  Forall (fun c => Mem.valid h c /\ (Mem.base c < length h)%nat) chunks ->
  NoDup (map Mem.base chunks) ->
  Mem.slen (buf k) = 0%nat
  \/ (~ In (Mem.base (buf k)) (map Mem.base chunks)
      /\ Mem.base (buf k) <> Mem.base m) ->
  Mem.valid h m -> Mem.load h m = concat (map (Mem.load h) chunks) ->
  exists k1 h1 k2 h2,
    Write_all chunks k h = Done (k1, h1)
    /\ Write m k h = Done (Mem.len m, k2, h2)
    /\ state k1 = state k2
    /\ pending_bytes h1 k1 = pending_bytes h2 k2
    /\ exists r1 g1 r2 g2,
         Sum Mem.nil k1 h1 = Done (r1, k1, g1)
         /\ Sum Mem.nil k2 h2 = Done (r2, k2, g2)
         /\ Mem.load g1 r1 = Mem.load g2 r2.
Proof.
  intros W Hn F ND Sep Vm Lm.
  destruct (Write_all_separate chunks k h W F ND) as (k1 & h1 & E1 & S1 & W1 & _).
  { destruct Sep as [Z0 | [NI _]]; [left | right]; assumption. }
  destruct (Write_run m k h W Vm)
    as (k2 & h2 & d2 & E2 & S2 & _ & W2 & _ & _ & _ & D2 & _).
  rewrite D2 in S2 by (destruct Sep as [Z0 | [_ Ne]]; [left | right]; assumption).
  rewrite Lm in S2.
  destruct S1 as (A1 & P1 & Z1 & B1 & D1). destruct S2 as (A2 & P2 & Z2 & B2 & D2').
  exists k1, h1, k2, h2.
  split; [exact E1|]. split; [exact E2|].
  split; [now rewrite A1, A2|]. split; [now rewrite P1, P2|].
  destruct (Sum_run Mem.nil k1 h1 W1) as (r1 & g1 & Q1 & L1 & _);
    [rewrite Z1; exact Hn | apply valid_nil |].
  destruct (Sum_run Mem.nil k2 h2 W2) as (r2 & g2 & Q2 & L2 & _);
    [rewrite Z2; exact Hn | apply valid_nil |].
  exists r1, g1, r2, g2. split; [exact Q1|]. split; [exact Q2|].
  rewrite L1, L2. unfold finalized.
  rewrite P1, P2, A1, A2, Z1, Z2, B1, B2, D1, D2'. reflexivity.
Qed.

Lemma Write_chunks_in_separate_arrays_witness :
  let h := [[x01; x02]; [x09]; [x03; x04]; [x01; x02; x09; x03; x04]] in
  let chunks := [whole 0 2; whole 1 1; whole 2 2] in
  let m := whole 3 5 in
  well_formed h New256 /\ 0 <= size New256 <= Int.max_int
  /\ Forall (fun c => Mem.valid h c /\ (Mem.base c < length h)%nat) chunks
  /\ NoDup (map Mem.base chunks)
  /\ Mem.valid h m /\ Mem.load h m = concat (map (Mem.load h) chunks)
  /\ exists k1 h1 k2 h2,
       Write_all chunks New256 h = Done (k1, h1)
       /\ Write m New256 h = Done (5, k2, h2)
       /\ pending_bytes h1 k1 = pending_bytes h2 k2.
Proof.
  assert (W : well_formed [[x01; x02]; [x09]; [x03; x04]; [x01; x02; x09; x03; x04]]
                New256)
    by (apply constructed_well_formed; constructor).
  assert (Hn : 0 <= size New256 <= Int.max_int) by (vm_compute; split; congruence).
  assert (F : Forall (fun c =>
                Mem.valid [[x01; x02]; [x09]; [x03; x04]; [x01; x02; x09; x03; x04]] c
                /\ (Mem.base c
                    < length [[x01; x02]; [x09]; [x03; x04]; [x01; x02; x09; x03; x04]])%nat)
              [whole 0 2; whole 1 1; whole 2 2])
    by (repeat constructor; simpl; lia).
  assert (ND : NoDup (map Mem.base [whole 0 2; whole 1 1; whole 2 2])).
  { simpl. repeat constructor; simpl; intuition lia. }
  assert (Sep : Mem.slen (buf New256) = 0%nat
                \/ (~ In (Mem.base (buf New256))
                        (map Mem.base [whole 0 2; whole 1 1; whole 2 2])
                    /\ Mem.base (buf New256) <> Mem.base (whole 3 5)))
    by (left; reflexivity).
  assert (Vm : Mem.valid [[x01; x02]; [x09]; [x03; x04]; [x01; x02; x09; x03; x04]]
                 (whole 3 5))
    by (split; simpl; lia).
  assert (Lm : Mem.load [[x01; x02]; [x09]; [x03; x04]; [x01; x02; x09; x03; x04]]
                 (whole 3 5)
               = concat (map (Mem.load [[x01; x02]; [x09]; [x03; x04];
                                        [x01; x02; x09; x03; x04]])
                           [whole 0 2; whole 1 1; whole 2 2]))
    by reflexivity.
  split; [exact W|]. split; [exact Hn|]. split; [exact F|]. split; [exact ND|].
  split; [exact Vm|]. split; [exact Lm|].
  destruct (Write_chunks_in_separate_arrays [whole 0 2; whole 1 1; whole 2 2]
              (whole 3 5) New256 _ W Hn F ND Sep Vm Lm)
    as (k1 & h1 & k2 & h2 & E1 & E2 & _ & P & _).
  exists k1, h1, k2, h2. split; [exact E1|]. split; [exact E2 | exact P].
Defined.

(** ** The digest as a sponge over the padded message *)

Lemma pad_begins_with_pending (rate : Z) (dom : byte) (pend : list byte) :
  (length pend < Z.to_nat rate)%nat ->
  Spec.pad rate dom pend = pend ++ skipn (length pend) (Spec.pad rate dom pend).
Proof.
  intros H. rewrite <- (firstn_skipn (length pend) (Spec.pad rate dom pend)) at 1.
  f_equal.
  apply (nth_ext _ _ x00 x00); [rewrite length_firstn, pad_length; lia|].
  intros i Hi. rewrite length_firstn, pad_length in Hi.
  rewrite nth_firstn.
  replace (i <? length pend)%nat with true by (symmetry; apply Nat.ltb_lt; lia).
  unfold Spec.pad. rewrite nth_map_seq by lia. cbn zeta.
  replace (i <? length pend)%nat with true by (symmetry; apply Nat.ltb_lt; lia).
  replace (S i =? Z.to_nat rate)%nat with false by (symmetry; apply Nat.eqb_neq; lia).
  reflexivity.
Qed.

Lemma absorbed_one_block (rate : Z) (St : list Z) (block : list byte) :
  0 < rate -> len block = rate ->
  Spec.absorbed rate St block = Spec.absorb rate St block.
Proof.
  intros Hr L. rewrite absorbed_step by lia.
  rewrite absorbed_small
    by (unfold len in *; rewrite length_skipn; lia).
  now rewrite firstn_all2 by (unfold len in L; lia).
Qed.

(** Property X19.  On an instance with nothing pending, [Write(msg)] followed
    by [Sum(nil)] returns the sponge of the padded message: the message is
    extended by the domain byte, zero bytes and a last byte with 0x80 ORed in
    (one byte, the domain byte with 0x80 ORed in, when a single byte is
    missing) up to the next multiple of the block size; the blocks of the
    extended message are absorbed one after the other; [size] bytes are
    squeezed. *)
Theorem digest_is_sponge_of_padded_message (k : keccak) (msg : Mem.slice)
  (h : Mem.heap) :
  well_formed h k -> Mem.slen (buf k) = 0%nat -> 0 <= size k <= Int.max_int ->
  Mem.valid h msg ->
  let M := Mem.load h msg in
  let P := Spec.pending (blockSize k) M in
  let padding := skipn (length P) (Spec.pad (blockSize k) (domain k) P) in
  digest k msg h
  = Done (Spec.squeeze (blockSize k)
            (Spec.absorbed (blockSize k) (state k) (M ++ padding)) (size k))
  /\ len padding = blockSize k - len M mod blockSize k
  /\ len (M ++ padding) mod blockSize k = 0
  /\ (forall j, (j < length padding)%nat ->
        nth j padding x00
        = let b := if (j =? 0)%nat then domain k else x00 in
          if (S j =? length padding)%nat then or8 b x80 else b).
Proof.
  intros W Z0 Hn V M P padding. pose proof W as [HS Hr Hb Vk].
  assert (LP : len P = len M mod blockSize k) by (apply pending_length; lia).
  assert (LPn : (length P < Z.to_nat (blockSize k))%nat).
  { pose proof (Z.mod_pos_bound (len M) (blockSize k)). unfold len in *. lia. }
  assert (Lpad : length padding = (Z.to_nat (blockSize k) - length P)%nat)
    by (unfold padding; rewrite length_skipn, pad_length; reflexivity).
  split.
  { rewrite digest_spec by assumption. fold M. fold P.
    destruct (stream_app (blockSize k) (length M) ltac:(lia) (state k) M padding
                (le_n _)) as [E _].
    rewrite E. fold P. unfold padding.
    rewrite <- pad_begins_with_pending by assumption.
    rewrite (absorbed_one_block (blockSize k)
               (Spec.absorbed (blockSize k) (state k) M)
               (Spec.pad (blockSize k) (domain k) P));
      [unfold Spec.finalize; reflexivity | lia | ].
    unfold len. rewrite pad_length. lia. }
  split; [unfold len in *; lia|].
  split.
  { rewrite len_app. replace (len padding) with (blockSize k - len M mod blockSize k)
      by (unfold len in *; lia).
    rewrite (Z.div_mod (len M) (blockSize k)) at 1 by lia.
    replace (blockSize k * (len M / blockSize k) + len M mod blockSize k
             + (blockSize k - len M mod blockSize k))
      with ((len M / blockSize k + 1) * blockSize k) by lia.
    apply Z.mod_mul. lia. }
  intros j Hj. unfold padding. rewrite nth_skipn.
  unfold Spec.pad. rewrite nth_map_seq by lia. cbn zeta.
  replace (length P + j <? length P)%nat with false
    by (symmetry; apply Nat.ltb_ge; lia).
  replace (length P + j =? length P)%nat with (j =? 0)%nat
    by (destruct (Nat.eqb_spec j 0), (Nat.eqb_spec (length P + j) (length P));
        (reflexivity || lia)).
  fold padding.
  replace (S (length P + j) =? Z.to_nat (blockSize k))%nat
    with (S j =? length padding)%nat
    by (destruct (Nat.eqb_spec (S j) (length padding)),
                 (Nat.eqb_spec (S (length P + j)) (Z.to_nat (blockSize k)));
        (reflexivity || lia)).
  reflexivity.
Qed.

Lemma digest_is_sponge_of_padded_message_witness :
  let h := [repeat x61 200] in
  let msg := whole 0 200 in
  well_formed h NewSHA3256 /\ Mem.slen (buf NewSHA3256) = 0%nat
  /\ 0 <= size NewSHA3256 <= Int.max_int /\ Mem.valid h msg
  /\ exists padding,
       length padding = 72%nat
       /\ digest NewSHA3256 msg h
          = Done (Spec.squeeze 136
                    (Spec.absorbed 136 (repeat 0 25) (repeat x61 200 ++ padding)) 32).
Proof.
  assert (W : well_formed [repeat x61 200] NewSHA3256)
    by (apply constructed_well_formed; constructor).
  assert (Z0 : Mem.slen (buf NewSHA3256) = 0%nat) by reflexivity.
  assert (Hn : 0 <= size NewSHA3256 <= Int.max_int) by (vm_compute; split; congruence).
  assert (V : Mem.valid [repeat x61 200] (whole 0 200)) by (split; simpl; lia).
  split; [exact W|]. split; [exact Z0|]. split; [exact Hn|]. split; [exact V|].
  destruct (digest_is_sponge_of_padded_message NewSHA3256 (whole 0 200)
              [repeat x61 200] W Z0 Hn V) as (E & _).
  eexists. split; [|exact E]. reflexivity.
Defined.

(** ** What Write keeps of its argument *)

(** Property X20.  With nothing pending, [Write(b)] absorbs the full blocks
    of [b] and copies nothing: the pending buffer it leaves is the slice
    [b[m:]] of the client's array, [m] being the length of the full blocks,
    with the capacity [b] has left from there; [len(b) mod blockSize] bytes
    are pending, none when [b] is a whole number of blocks. *)
Theorem Write_keeps_tail_of_argument (b : Mem.slice) (k : keccak) (h : Mem.heap) :
  well_formed h k -> Mem.slen (buf k) = 0%nat -> Mem.valid h b ->
  let m := (Z.to_nat (blockSize k)
            * Spec.full_blocks (blockSize k) (Mem.load h b))%nat in
  Write b k h
  = Done (Mem.len b,
          with_buf (with_state k (Spec.absorbed (blockSize k) (state k)
                                    (Mem.load h b)))
                   (Mem.drop b m),
          h)
  /\ Z.of_nat m = blockSize k * (Mem.len b / blockSize k)
  /\ Mem.len (Mem.drop b m) = Mem.len b mod blockSize k.
Proof.
  intros [HS Hr Hb Vk] Z0 V m.
  pose proof (len_load h b V) as Lb.
  assert (Hm : Z.of_nat m = blockSize k * (Mem.len b / blockSize k)).
  { unfold m, Spec.full_blocks. rewrite Lb.
    pose proof (Z.div_pos (Mem.len b) (blockSize k)).
    unfold Mem.len in *. lia. }
  split; [|split; [exact Hm|]].
  - unfold Write.
    replace (0 <? Mem.len (buf k)) with false
      by (symmetry; apply Z.ltb_ge; unfold Mem.len; lia).
    cbn [bind]. rewrite Write_loop_spec by (assumption || lia).
    cbn [bind]. reflexivity.
  - pose proof (Z.mul_div_le (Mem.len b) (blockSize k) ltac:(lia)).
    rewrite (Z.mod_eq (Mem.len b) (blockSize k)) by lia.
    unfold Mem.len, Mem.drop in *. cbn [Mem.slen]. lia.
Qed.

Lemma Write_keeps_tail_of_argument_witness :
  let h := [repeat x61 150] in
  let b := whole 0 150 in
  well_formed h NewSHA3256 /\ Mem.slen (buf NewSHA3256) = 0%nat /\ Mem.valid h b
  /\ exists k', Write b NewSHA3256 h = Done (150, k', h)
                /\ buf k' = Mem.drop b 136.
Proof.
  assert (W : well_formed [repeat x61 150] NewSHA3256)
    by (apply constructed_well_formed; constructor).
  assert (Z0 : Mem.slen (buf NewSHA3256) = 0%nat) by reflexivity.
  assert (V : Mem.valid [repeat x61 150] (whole 0 150)) by (split; simpl; lia).
  split; [exact W|]. split; [exact Z0|]. split; [exact V|].
  destruct (Write_keeps_tail_of_argument (whole 0 150) NewSHA3256
              [repeat x61 150] W Z0 V) as (E & _).
  eexists. split; [exact E|]. reflexivity.
Defined.
